(** * cruddl: query tree, authorization rewriting, error propagation and the
      in-memory JavaScript generator

    A shallow embedding of
    - [src/authorization/move-errors-to-output-nodes.ts],
    - [src/authorization/transformers/follow-edge.ts] and the
      create-entity / field transformers,
    - [src/database/inmemory/js-generator.ts], with the collection of the
      selected fields ([resolveSelections]) that comes with it,
    - [reformatPath] of
      [src/schema/preparation/source-validation-modules/sidecar-schema.ts],
    together with the properties the specification states about them and
    further properties of the code. *)

From stdpp Require Import base strings list gmap sorting.
From Stdlib Require Import ZArith Lia Ascii DecimalString.

Local Open Scope Z_scope.
Set Warnings "-register-all".

(** Decimal rendering of an integer, as [String(n)] gives it for an integral
    JavaScript number below 10^21 in magnitude. *)
Definition showZ (z : Z) : string := NilZero.string_of_int (Z.to_int z).

(* ===================================================================== *)
(** * Part I.  The error-propagation pass (move-errors-to-output-nodes.ts) *)
(* ===================================================================== *)

Module ErrorPass.

(** ** Objects as the visitor sees them

    [visitObject] is reflective: it looks at [node.constructor], walks
    [Object.keys(node)] in order and descends into object-valued fields and
    into the items of array-valued fields.  A query tree is therefore given
    here the way the visitor meets it: a constructor tag and an ordered list
    of (key, value) fields. *)

(** The constructors the pass distinguishes.  The six classes registered in
    [outputNodes] and [RuntimeErrorQueryNode] are named; every other subclass
    of [QueryNode] is [OtherQueryNode], and [NonQueryNode] stands for the
    constructor of any object outside the [QueryNode] hierarchy (GraphQL
    types, plain objects). *)
Inductive Clazz : Type :=
  | VariableAssignmentQueryNode
  | ObjectQueryNode
  | PropertySpecification
  | ListQueryNode
  | ConditionalQueryNode
  | TransformListQueryNode
  | RuntimeErrorQueryNode
  | OtherQueryNode (name : string)
  | NonQueryNode (name : string).

Global Instance Clazz_eq_dec : EqDecision Clazz.
Proof. solve_decision. Defined.

Inductive Prim : Type :=
  | PUndefined
  | PNull
  | PBool (b : bool)
  | PNumber (n : Z)
  | PString (s : string).

Inductive JSVal : Type :=
  | JPrim (p : Prim)
  | JArray (items : list JSVal)
  | JObject (clazz : Clazz) (fields : list (string * JSVal)).

(** [node instanceof QueryNode] *)
Definition instanceofQueryNode (c : Clazz) : bool :=
  match c with
  | NonQueryNode _ => false
  | _ => true
  end.

(** [node instanceof RuntimeErrorQueryNode] *)
Definition instanceofRuntimeError (c : Clazz) : bool :=
  match c with
  | RuntimeErrorQueryNode => true
  | _ => false
  end.

(** ** namespace outputNodes *)
Module outputNodes.

(** The table built by the seven [add(...)] calls: class |-> set of field
    names.  Classes never added have no entry. *)
Definition map (clazz : Clazz) : option (list string) :=
  match clazz with
  | VariableAssignmentQueryNode => Some ["resultNode"]
  | ObjectQueryNode => Some ["properties"]
  | PropertySpecification => Some ["valueNode"]
  | ListQueryNode => Some ["itemNodes"]
  | ConditionalQueryNode => Some ["expr1"; "expr2"]
  | TransformListQueryNode => Some ["innerNode"]
  | _ => None
  end.

(** [isOutputNode(clazz, fieldName)].  The root is visited with an
    undefined key, which no set contains. *)
Definition isOutputNode (clazz : Clazz) (fieldName : option string) : bool :=
  match map clazz with
  | None => false
  | Some set =>
      match fieldName with
      | Some f => bool_decide (f ∈ set)
      | None => false
      end
  end.

End outputNodes.

(** ** The visitor state of [moveErrorsToOutputNodes] *)

Record StackFrame : Type := mkFrame {
  clazz : Clazz;
  isOutputNode : bool
}.

(** [errorList] and [stack] are the two closure variables.  The top of the
    JavaScript stack (its last element) is the head of [stack]. *)
Record State : Type := mkState {
  errorList : list JSVal;
  stack : list StackFrame
}.

(** [err.message]: a property read. *)
Definition getField (key : string) (v : JSVal) : JSVal :=
  match v with
  | JObject _ fields =>
      match List.find (fun kv => String.eqb (fst kv) key) fields with
      | Some kv => snd kv
      | None => JPrim PUndefined
      end
  | _ => JPrim PUndefined
  end.

(** How [Array.prototype.join] renders an element: empty for [undefined] and
    [null], [ToString] otherwise. *)
Fixpoint toStringForJoin (v : JSVal) : string :=
  match v with
  | JPrim PUndefined => ""
  | JPrim PNull => ""
  | JPrim (PBool true) => "true"
  | JPrim (PBool false) => "false"
  | JPrim (PNumber n) => showZ n
  | JPrim (PString s) => s
  | JArray items => String.concat "," (List.map toStringForJoin items)
  | JObject _ _ => "[object Object]"
  end.

(** [errors.map(err => err.message).join(', ')] *)
Definition joinMessages (errors : list JSVal) : string :=
  String.concat ", " (List.map (fun err => toStringForJoin (getField "message" err)) errors).

(** [new RuntimeErrorQueryNode(message)]; the class has the single field
    [message]. *)
Definition newRuntimeError (message : string) : JSVal :=
  JObject RuntimeErrorQueryNode [("message", JPrim (PString message))].

(** The [enter] handler.  [None] is [VisitAction.SKIP_NODE]; otherwise the
    handler returns the node itself, so only the new state is given. *)
Definition enter (node : JSVal) (key : option string) (s : State) : option State :=
  match node with
  | JObject c _ =>
      if negb (instanceofQueryNode c) then None
      else
        let errors :=
          if instanceofRuntimeError c then errorList s ++ [node] else errorList s in
        match stack s with
        | [] => Some (mkState errors [mkFrame c true])
        | parentFrame :: _ =>
            let isOut :=
              isOutputNode parentFrame && outputNodes.isOutputNode (clazz parentFrame) key in
            Some (mkState errors (mkFrame c isOut :: stack s))
        end
  | _ => None
  end.

(** What an output node is replaced with, given the collected errors. *)
Definition collapse (errors : list JSVal) : JSVal :=
  match errors with
  | [e] => e
  | _ => newRuntimeError (joinMessages errors)
  end.

(** The [leave] handler. *)
Definition leave (node : JSVal) (s : State) : JSVal * State :=
  match stack s with
  | frame :: rest =>
      if isOutputNode frame && negb (Nat.eqb (length (errorList s)) 0)
      then (collapse (errorList s), mkState [] rest)
      else (node, mkState (errorList s) rest)
  | [] => (node, s)
  end.

(** Modelled from the spec: [visitObject] of utils/visitor.ts is not among
    the sources.  Section 4.3 describes it as a single depth-first traversal
    that enters a node, walks its child slots, and then leaves it; a skipped
    value is returned as it is and is neither descended into nor left.  Child
    slots are the object's own keys in order; an array-valued slot offers each
    item under the slot's key.  A node whose children changed is rebuilt with
    the same constructor and key order before [leave] sees it. *)
Fixpoint visitObject (node : JSVal) (key : option string) (s : State) {struct node}
  : JSVal * State :=
  match enter node key s with
  | None => (node, s)
  | Some s1 =>
      match node with
      | JObject c fields =>
          let visitItems :=
            fix visitItems (items : list JSVal) (k : option string) (s : State)
              : list JSVal * State :=
              match items with
              | [] => ([], s)
              | item :: rest =>
                  let '(item', s') := visitObject item k s in
                  let '(rest', s'') := visitItems rest k s' in
                  (item' :: rest', s'')
              end in
          let visitFields :=
            fix visitFields (fs : list (string * JSVal)) (s : State)
              : list (string * JSVal) * State :=
              match fs with
              | [] => ([], s)
              | (k, v) :: rest =>
                  let '(v', s') :=
                    match v with
                    | JPrim _ => (v, s)
                    | JObject _ _ => visitObject v (Some k) s
                    | JArray items =>
                        let '(items', s') := visitItems items (Some k) s in
                        (JArray items', s')
                    end in
                  let '(rest', s'') := visitFields rest s' in
                  ((k, v') :: rest', s'')
              end in
          let '(fields', s2) := visitFields fields s1 in
          leave (JObject c fields') s2
      | _ => (node, s1)
      end
  end.

(** The two inner loops of [visitObject], named. *)
Fixpoint visitItems (items : list JSVal) (k : option string) (s : State)
  : list JSVal * State :=
  match items with
  | [] => ([], s)
  | item :: rest =>
      let '(item', s') := visitObject item k s in
      let '(rest', s'') := visitItems rest k s' in
      (item' :: rest', s'')
  end.

(** [visitObjectOrArray] *)
Definition visitObjectOrArray (v : JSVal) (k : string) (s : State) : JSVal * State :=
  match v with
  | JPrim _ => (v, s)
  | JObject _ _ => visitObject v (Some k) s
  | JArray items =>
      let '(items', s') := visitItems items (Some k) s in
      (JArray items', s')
  end.

Fixpoint visitFields (fs : list (string * JSVal)) (s : State)
  : list (string * JSVal) * State :=
  match fs with
  | [] => ([], s)
  | (k, v) :: rest =>
      let '(v', s') := visitObjectOrArray v k s in
      let '(rest', s'') := visitFields rest s' in
      ((k, v') :: rest', s'')
  end.

(** [moveErrorsToOutputNodes(queryTree)] *)
Definition moveErrorsToOutputNodes (queryTree : JSVal) : JSVal :=
  fst (visitObject queryTree None (mkState [] [])).

(** ** Reference notions used to state what the pass does *)

(** The [RuntimeErrorQueryNode]s the traversal meets below (and including)
    [v], in depth-first, first-encountered order.  Values the [enter] handler
    skips hide what is below them. *)
Fixpoint errorsOf (v : JSVal) : list JSVal :=
  match v with
  | JObject c fields =>
      if instanceofQueryNode c then
        (if instanceofRuntimeError c then [v] else []) ++
        (fix inFields (fs : list (string * JSVal)) : list JSVal :=
           match fs with
           | [] => []
           | (_, w) :: rest =>
               match w with
               | JPrim _ => []
               | JObject _ _ => errorsOf w
               | JArray items =>
                   (fix inItems (l : list JSVal) : list JSVal :=
                      match l with
                      | [] => []
                      | item :: l' => errorsOf item ++ inItems l'
                      end) items
               end ++ inFields rest
           end) fields
      else []
  | _ => []
  end.

Fixpoint errorsOfItems (items : list JSVal) : list JSVal :=
  match items with
  | [] => []
  | item :: rest => errorsOf item ++ errorsOfItems rest
  end.

Definition errorsOfSlot (w : JSVal) : list JSVal :=
  match w with
  | JPrim _ => []
  | JObject _ _ => errorsOf w
  | JArray items => errorsOfItems items
  end.

Fixpoint errorsOfFields (fs : list (string * JSVal)) : list JSVal :=
  match fs with
  | [] => []
  | (_, w) :: rest => errorsOfSlot w ++ errorsOfFields rest
  end.

(** Is the value one the [enter] handler does not skip? *)
Definition isQueryNode (v : JSVal) : bool :=
  match v with
  | JObject c _ => instanceofQueryNode c
  | _ => false
  end.

(** The frame a node gets when it is entered under the given stack. *)
Definition frameIsOutput (st : list StackFrame) (key : option string) : bool :=
  match st with
  | [] => true
  | parentFrame :: _ =>
      isOutputNode parentFrame && outputNodes.isOutputNode (clazz parentFrame) key
  end.

(** The pass's list of pending errors after one child of an output-position
    node of class [c] has been visited under key [k]: an output child that is
    a query node leaves nothing pending, whatever was pending before it, and
    any other child adds its own errors.  The list is the pass's own
    bookkeeping: it need not hold every error below the node. *)
Definition pendingAfterChild (c : Clazz) (k : string) (child : JSVal)
    (pending : list JSVal) : list JSVal :=
  if isQueryNode child && outputNodes.isOutputNode c (Some k) then []
  else pending ++ errorsOf child.

Fixpoint pendingAfterItems (c : Clazz) (k : string) (items : list JSVal)
    (pending : list JSVal) : list JSVal :=
  match items with
  | [] => pending
  | item :: rest => pendingAfterItems c k rest (pendingAfterChild c k item pending)
  end.

Definition pendingAfterSlot (c : Clazz) (k : string) (w : JSVal)
    (pending : list JSVal) : list JSVal :=
  match w with
  | JPrim _ => pending
  | JObject _ _ => pendingAfterChild c k w pending
  | JArray items => pendingAfterItems c k items pending
  end.

Fixpoint pendingAfterFields (c : Clazz) (fs : list (string * JSVal))
    (pending : list JSVal) : list JSVal :=
  match fs with
  | [] => pending
  | (k, w) :: rest => pendingAfterFields c rest (pendingAfterSlot c k w pending)
  end.

(** Does some [RuntimeErrorQueryNode] of the tree sit at an output position,
    [out] being the position of [v] itself? *)
Fixpoint errorAtOutput (out : bool) (v : JSVal) : bool :=
  match v with
  | JObject c fields =>
      if instanceofQueryNode c then
        (out && instanceofRuntimeError c) ||
        (fix inFields (fs : list (string * JSVal)) : bool :=
           match fs with
           | [] => false
           | (k, w) :: rest =>
               let out' := out && outputNodes.isOutputNode c (Some k) in
               match w with
               | JPrim _ => false
               | JObject _ _ => errorAtOutput out' w
               | JArray items =>
                   (fix inItems (l : list JSVal) : bool :=
                      match l with
                      | [] => false
                      | item :: l' => errorAtOutput out' item || inItems l'
                      end) items
               end || inFields rest
           end) fields
      else false
  | _ => false
  end.

(** "Every RuntimeError node is reachable only through non-output child
    slots": no error of the tree is at an output position. *)
Definition errorsOnlyThroughNonOutputSlots (tree : JSVal) : bool :=
  negb (errorAtOutput true tree).

(** ** Statements proved by induction on the tree *)

(** A property of the node in a slot: of the value itself, or of every item
    when the slot holds an array. *)
Definition slotAll (P : JSVal → Prop) (w : JSVal) : Prop :=
  match w with
  | JArray items => Forall P items
  | _ => P w
  end.

Definition restoresStack (v : JSVal) : Prop :=
  ∀ key s, stack (snd (visitObject v key s)) = stack s.

Definition untouchedBelow (v : JSVal) : Prop :=
  ∀ key el frame rest,
    isOutputNode frame && outputNodes.isOutputNode (clazz frame) key = false →
    visitObject v key (mkState el (frame :: rest)) =
    (v, mkState (el ++ errorsOf v) (frame :: rest)).

(** ** Sample trees *)

Definition variableNode (label : string) : JSVal :=
  JObject (OtherQueryNode "VariableQueryNode") [("label", JPrim (PString label))].

Definition entitiesNode (typeName : string) : JSVal :=
  JObject (OtherQueryNode "EntitiesQueryNode")
    [("objectType", JObject (NonQueryNode "GraphQLObjectType")
                      [("name", JPrim (PString typeName))])].

(** [new TransformListQueryNode({listNode, innerNode, filterNode})]: the
    fields in the order the constructor assigns them, with the default
    (empty) order specification and no [maxCount]. *)
Definition transformListNode (itemVariable listNode innerNode filterNode : JSVal) : JSVal :=
  JObject TransformListQueryNode
    [("itemVariable", itemVariable);
     ("listNode", listNode);
     ("innerNode", innerNode);
     ("filterNode", filterNode);
     ("orderBy", JObject (NonQueryNode "OrderSpecification") [("clauses", JArray [])]);
     ("maxCount", JPrim PUndefined)].

(** A list of all [Hero] entities whose filter predicate is an
    authorization error. *)
Definition filterErrorTree : JSVal :=
  transformListNode (variableNode "item") (entitiesNode "Hero")
    (variableNode "item") (newRuntimeError "Not authorized").

(** A list whose list operand and whose filter predicate are both errors,
    with the item as its inner node. *)
Definition siblingErrorsTree : JSVal :=
  transformListNode (variableNode "item") (newRuntimeError "a")
    (variableNode "item") (newRuntimeError "b").

(** A list whose list operand is an error, with a filter that accepts every
    item. *)
Definition listErrorTree : JSVal :=
  transformListNode (variableNode "item") (newRuntimeError "a")
    (variableNode "item")
    (JObject (OtherQueryNode "ConstBoolQueryNode") [("value", JPrim (PBool true))]).

(** [lhs < rhs] with an error on either side. *)
Definition twoErrorsTree : JSVal :=
  JObject (OtherQueryNode "BinaryOperationQueryNode")
    [("lhs", newRuntimeError "first");
     ("operator", JPrim (PNumber 4));
     ("rhs", newRuntimeError "second")].

End ErrorPass.

(* ===================================================================== *)
(** * Part II.  The query tree (query/definition) *)
(* ===================================================================== *)

(** The outcome of code that may throw: a value, or what was thrown. *)
Inductive Result (E A : Type) : Type :=
  | Ok (a : A)
  | Throw (e : E).
Arguments Ok {E A} a.
Arguments Throw {E A} e.

(** A computation over a threaded state that may throw.  A throw discards
    the state. *)
Definition StateErr (E S A : Type) : Type := S → Result E (A * S).

Definition ret {E S A : Type} (a : A) : StateErr E S A :=
  fun s => Ok (a, s).

Definition bind {E S A B : Type} (m : StateErr E S A) (k : A → StateErr E S B)
    : StateErr E S B :=
  fun s =>
    match m s with
    | Ok (a, s') => k a s'
    | Throw e => Throw e
    end.

Definition throw {E S A : Type} (e : E) : StateErr E S A :=
  fun _ => Throw e.

Notation "x <- m ;; k" := (bind m (fun x => k))
  (at level 100, m at next level, right associativity).

Module QueryTree.

(** The schema objects the nodes refer to.  Of a GraphQL type only its name
    and its fields are read, of a field only its name. *)
Record GraphQLField : Type := mkField { fieldName : string }.

Record GraphQLObjectType : Type := mkType {
  typeName : string;
  getFields : list GraphQLField
}.

(** [type.getFields()[name]] *)
Definition lookupField (type : GraphQLObjectType) (name : string) : option GraphQLField :=
  List.find (fun f => String.eqb (fieldName f) name) (getFields type).

(** [RelationFieldEdgeSide] and [invertRelationFieldEdgeSide] *)
Inductive RelationFieldEdgeSide : Type := FROM_SIDE | TO_SIDE.

Definition invertRelationFieldEdgeSide (side : RelationFieldEdgeSide) : RelationFieldEdgeSide :=
  match side with
  | FROM_SIDE => TO_SIDE
  | TO_SIDE => FROM_SIDE
  end.

(** An [EdgeType]: the type on either side and the relation field that
    declares the edge there, if any. *)
Record EdgeType : Type := mkEdgeType {
  fromType : GraphQLObjectType;
  fromField : option GraphQLField;
  toType : GraphQLObjectType;
  toField : option GraphQLField
}.

Definition getTypeOfSide (e : EdgeType) (side : RelationFieldEdgeSide) : GraphQLObjectType :=
  match side with
  | FROM_SIDE => fromType e
  | TO_SIDE => toType e
  end.

Definition getFieldOfSide (e : EdgeType) (side : RelationFieldEdgeSide) : option GraphQLField :=
  match side with
  | FROM_SIDE => fromField e
  | TO_SIDE => toField e
  end.

(** A JSON-like constant, the payload of a [LiteralQueryNode]. *)
Inductive Json : Type :=
  | JUndefined
  | JNull
  | JBool (b : bool)
  | JNumber (n : Z)
  | JString (s : string)
  | JList (items : list Json)
  | JRecord (properties : list (string * Json)).

Inductive BasicType : Type := OBJECT | LIST | SCALAR | NULL.

Inductive UnaryOperator : Type := NOT | JSON_STRINGIFY.

(** The binary operators the generator knows. *)
Inductive BinaryOperator : Type :=
  | AND | OR | EQUAL | UNEQUAL
  | LESS_THAN | LESS_THAN_OR_EQUAL | GREATER_THAN | GREATER_THAN_OR_EQUAL
  | IN | CONTAINS | STARTS_WITH | ENDS_WITH
  | ADD | SUBTRACT | MULTIPLY | DIVIDE | MODULO
  | APPEND | PREPEND.

Inductive OrderDirection : Type := ASCENDING | DESCENDING.

(** A [VariableQueryNode] object: the variable maps are keyed by the object
    itself, so it is given by its identity [uid] together with its label. *)
Record VarId : Type := mkVar { label : string; uid : nat }.

(** [ErrorIfNotTruthyResultValidator(errorMessage, errorName)], the one
    result validator the transformers build. *)
Inductive QueryResultValidator : Type :=
  | ErrorIfNotTruthyResultValidator (errorMessage : string) (errorName : string).

Record PropertySpecification (N : Type) : Type := mkProperty {
  propertyName : string;
  valueNode : N
}.
Arguments mkProperty {N}.
Arguments propertyName {N}.
Arguments valueNode {N}.

Record OrderClause (N : Type) : Type := mkOrderClause {
  clauseValueNode : N;
  direction : OrderDirection
}.
Arguments mkOrderClause {N}.
Arguments clauseValueNode {N}.
Arguments direction {N}.

Record PreExecQueryParms (N : Type) : Type := mkPreExec {
  query : N;
  resultVariable : option VarId;
  resultValidator : option QueryResultValidator
}.
Arguments mkPreExec {N}.
Arguments query {N}.
Arguments resultVariable {N}.
Arguments resultValidator {N}.

(** The node classes the in-memory generator has processors for (all but
    EntityFromId, DeleteEntities and the three edge mutations). *)
Inductive QueryNode : Type :=
  | LiteralQueryNode (value : Json)
  | NullQueryNode
  | RuntimeErrorQueryNode (message : string)
  | ConstBoolQueryNode (value : bool)
  | ConstIntQueryNode (value : Z)
  | ObjectQueryNode (properties : list (PropertySpecification QueryNode))
  | ListQueryNode (itemNodes : list QueryNode)
  | ConcatListsQueryNode (listNodes : list QueryNode)
  | VariableQueryNode (variable : VarId)
  | VariableAssignmentQueryNode (variableNode : VarId)
      (variableValueNode resultNode : QueryNode)
  | WithPreExecutionQueryNode (preExecQueries : list (PreExecQueryParms QueryNode))
      (resultNode : QueryNode)
  | FieldQueryNode (objectNode : QueryNode) (field : GraphQLField)
      (objectType : GraphQLObjectType)
  | RootEntityIDQueryNode (objectNode : QueryNode)
  | TransformListQueryNode (listNode : QueryNode) (itemVariable : VarId)
      (filterNode : QueryNode) (orderBy : list (OrderClause QueryNode))
      (maxCount : option Z) (innerNode : QueryNode)
  | CountQueryNode (listNode : QueryNode)
  | MergeObjectsQueryNode (objectNodes : list QueryNode)
  | FirstOfListQueryNode (listNode : QueryNode)
  | BinaryOperationQueryNode (lhs : QueryNode) (operator : BinaryOperator) (rhs : QueryNode)
  | UnaryOperationQueryNode (valueNode : QueryNode) (operator : UnaryOperator)
  | ConditionalQueryNode (condition expr1 expr2 : QueryNode)
  | TypeCheckQueryNode (valueNode : QueryNode) (type : BasicType)
  | EntitiesQueryNode (objectType : GraphQLObjectType)
  | FollowEdgeQueryNode (edgeType : EdgeType) (sourceEntityNode : QueryNode)
      (sourceFieldSide : RelationFieldEdgeSide)
  | CreateEntityQueryNode (objectType : GraphQLObjectType) (objectNode : QueryNode)
  | UpdateEntitiesQueryNode (objectType : GraphQLObjectType) (listNode : QueryNode)
      (updates : list (PropertySpecification QueryNode)) (currentEntityVariable : VarId).

(** Modelled from the spec: the constructor of the [TransformListQueryNode]
    that the transformers and the generator use, the one with an item
    variable, is not among the sources (the class that is predates the item
    variable).  [new TransformListQueryNode({listNode, filterNode,
    itemVariable})] takes the defaults of section 3 for what is left out:
    unordered, no cap, and the identity on the bound item as the mapping,
    which the generator recognises as [innerNode] being [itemVariable]. *)
Definition newTransformList (listNode : QueryNode) (itemVariable : VarId)
    (filterNode : QueryNode) : QueryNode :=
  TransformListQueryNode listNode itemVariable filterNode [] None
    (VariableQueryNode itemVariable).

(** [node.innerNode != node.itemVariable] compares object identities. *)
Definition isVariable (n : QueryNode) (v : VarId) : bool :=
  match n with
  | VariableQueryNode w => Nat.eqb (uid w) (uid v)
  | _ => false
  end.

(** Does the tree refer to the variable with identity [v]? *)
Fixpoint mentions (v : nat) (node : QueryNode) {struct node} : bool :=
  match node with
  | VariableQueryNode w => Nat.eqb (uid w) v
  | LiteralQueryNode _ | NullQueryNode | RuntimeErrorQueryNode _
  | ConstBoolQueryNode _ | ConstIntQueryNode _ | EntitiesQueryNode _ => false
  | ObjectQueryNode properties => existsb (fun p => mentions v (valueNode p)) properties
  | ListQueryNode itemNodes => existsb (mentions v) itemNodes
  | ConcatListsQueryNode listNodes => existsb (mentions v) listNodes
  | MergeObjectsQueryNode objectNodes => existsb (mentions v) objectNodes
  | VariableAssignmentQueryNode _ variableValueNode resultNode =>
      mentions v variableValueNode || mentions v resultNode
  | WithPreExecutionQueryNode preExecQueries resultNode =>
      existsb (fun parm => mentions v (query parm)) preExecQueries || mentions v resultNode
  | FieldQueryNode objectNode _ _ => mentions v objectNode
  | RootEntityIDQueryNode objectNode => mentions v objectNode
  | TransformListQueryNode listNode _ filterNode orderBy _ innerNode =>
      mentions v listNode || mentions v filterNode
      || existsb (fun clause => mentions v (clauseValueNode clause)) orderBy
      || mentions v innerNode
  | CountQueryNode listNode => mentions v listNode
  | FirstOfListQueryNode listNode => mentions v listNode
  | BinaryOperationQueryNode lhs _ rhs => mentions v lhs || mentions v rhs
  | UnaryOperationQueryNode valueNode _ => mentions v valueNode
  | ConditionalQueryNode condition expr1 expr2 =>
      mentions v condition || mentions v expr1 || mentions v expr2
  | TypeCheckQueryNode valueNode _ => mentions v valueNode
  | FollowEdgeQueryNode _ sourceEntityNode _ => mentions v sourceEntityNode
  | CreateEntityQueryNode _ objectNode => mentions v objectNode
  | UpdateEntitiesQueryNode _ listNode updates _ =>
      mentions v listNode || existsb (fun p => mentions v (valueNode p)) updates
  end.

(** Does some node of the tree introduce the variable with identity [v]? *)
Fixpoint binds (v : nat) (node : QueryNode) {struct node} : bool :=
  match node with
  | VariableQueryNode _
  | LiteralQueryNode _ | NullQueryNode | RuntimeErrorQueryNode _
  | ConstBoolQueryNode _ | ConstIntQueryNode _ | EntitiesQueryNode _ => false
  | ObjectQueryNode properties => existsb (fun p => binds v (valueNode p)) properties
  | ListQueryNode itemNodes => existsb (binds v) itemNodes
  | ConcatListsQueryNode listNodes => existsb (binds v) listNodes
  | MergeObjectsQueryNode objectNodes => existsb (binds v) objectNodes
  | VariableAssignmentQueryNode variableNode variableValueNode resultNode =>
      Nat.eqb (uid variableNode) v || binds v variableValueNode || binds v resultNode
  | WithPreExecutionQueryNode preExecQueries resultNode =>
      existsb (fun parm =>
                 match resultVariable parm with
                 | Some resultVariable => Nat.eqb (uid resultVariable) v
                 | None => false
                 end || binds v (query parm)) preExecQueries
      || binds v resultNode
  | FieldQueryNode objectNode _ _ => binds v objectNode
  | RootEntityIDQueryNode objectNode => binds v objectNode
  | TransformListQueryNode listNode itemVariable filterNode orderBy _ innerNode =>
      Nat.eqb (uid itemVariable) v || binds v listNode || binds v filterNode
      || existsb (fun clause => binds v (clauseValueNode clause)) orderBy
      || binds v innerNode
  | CountQueryNode listNode => binds v listNode
  | FirstOfListQueryNode listNode => binds v listNode
  | BinaryOperationQueryNode lhs _ rhs => binds v lhs || binds v rhs
  | UnaryOperationQueryNode valueNode _ => binds v valueNode
  | ConditionalQueryNode condition expr1 expr2 =>
      binds v condition || binds v expr1 || binds v expr2
  | TypeCheckQueryNode valueNode _ => binds v valueNode
  | FollowEdgeQueryNode _ sourceEntityNode _ => binds v sourceEntityNode
  | CreateEntityQueryNode _ objectNode => binds v objectNode
  | UpdateEntitiesQueryNode _ listNode updates currentEntityVariable =>
      Nat.eqb (uid currentEntityVariable) v || binds v listNode
      || existsb (fun p => binds v (valueNode p)) updates
  end.

End QueryTree.

(* ===================================================================== *)
(** * Part III.  The authorization transformers (authorization/transformers) *)
(* ===================================================================== *)

Module Authorization.
Import QueryTree.

Inductive PermissionResult : Type := GRANTED | DENIED | CONDITIONAL.

Inductive AccessOperation : Type := READ | WRITE.

Inductive ConditionExplanationContext : Type := BEFORE_WRITE | SET.

(** A permission descriptor, by the three methods the transformers call. *)
Record PermissionDescriptor (AuthContext : Type) : Type := mkDescriptor {
  canAccess : AuthContext → AccessOperation → PermissionResult;
  getAccessCondition : AuthContext → AccessOperation → QueryNode → QueryNode;
  getExplanationForCondition :
    AuthContext → AccessOperation → ConditionExplanationContext → string
}.
Arguments canAccess {AuthContext}.
Arguments getAccessCondition {AuthContext}.
Arguments getExplanationForCondition {AuthContext}.

Section Transformers.

(** The authorization context, the registry lookup
    [getPermissionDescriptor(type, field?)] and the constant
    [AUTHORIZATION_ERROR_NAME] come from modules outside the sources; the
    transformers are stated for any. *)
Context {AuthContext : Type}.
Variable getPermissionDescriptor :
  GraphQLObjectType → option GraphQLField → PermissionDescriptor AuthContext.
Variable AUTHORIZATION_ERROR_NAME : string.

(** [transformFieldQueryNode] *)
Definition transformFieldQueryNode (objectNode : QueryNode) (field : GraphQLField)
    (objectType : GraphQLObjectType) (authContext : AuthContext) : Result string QueryNode :=
  let permissionDescriptor := getPermissionDescriptor objectType (Some field) in
  let access := canAccess permissionDescriptor authContext READ in
  match access with
  | GRANTED => Ok (FieldQueryNode objectNode field objectType)
  | DENIED =>
      Ok (RuntimeErrorQueryNode
            ("Not authorized to read " +:+ typeName objectType +:+ "." +:+ fieldName field))
  | CONDITIONAL =>
      Throw ("Permission profiles with accessGroup restrictions are currently not supported on fields, but used in "
             +:+ typeName objectType +:+ "." +:+ fieldName field)
  end.

(** [transformFollowEdgeQueryNode].  [fresh] is the identity the next
    [new VariableQueryNode(...)] gets. *)
Definition transformFollowEdgeQueryNode (edgeType : EdgeType) (sourceEntityNode : QueryNode)
    (sourceFieldSide : RelationFieldEdgeSide) (authContext : AuthContext) (fresh : nat)
    : Result string QueryNode :=
  let node := FollowEdgeQueryNode edgeType sourceEntityNode sourceFieldSide in
  let sourceType := getTypeOfSide edgeType sourceFieldSide in
  match getFieldOfSide edgeType sourceFieldSide with
  | None =>
      Throw ("Encountered FollowEdgeQueryNode which traverses via non-existing inverse field (on "
             +:+ typeName sourceType +:+ ")")
  | Some sourceField =>
      let fieldPermissionDescriptor := getPermissionDescriptor sourceType (Some sourceField) in
      let access := canAccess fieldPermissionDescriptor authContext READ in
      match access with
      | DENIED =>
          Ok (RuntimeErrorQueryNode
                ("Not authorized to read " +:+ typeName sourceType +:+ "."
                 +:+ fieldName sourceField))
      | CONDITIONAL =>
          Throw ("Permission profiles with accessGroup restrictions are currently not supported on fields, but used in "
                 +:+ typeName sourceType +:+ "." +:+ fieldName sourceField)
      | GRANTED =>
          let targetType :=
            getTypeOfSide edgeType (invertRelationFieldEdgeSide sourceFieldSide) in
          let entityPermissionDescriptor := getPermissionDescriptor targetType None in
          let entityAccess := canAccess entityPermissionDescriptor authContext READ in
          match entityAccess with
          | GRANTED => Ok node
          | DENIED =>
              Ok (RuntimeErrorQueryNode
                    ("Not authorized to read " +:+ typeName targetType
                     +:+ " objects by following " +:+ typeName sourceType +:+ "."
                     +:+ fieldName sourceField))
          | CONDITIONAL =>
              match lookupField targetType "accessGroup" with
              | None =>
                  Throw ("Root entity " +:+ typeName targetType
                         +:+ " has an accessGroup-based permission profile, but no accessGroup field")
              | Some accessGroupField =>
                  let itemVar := mkVar "item" fresh in
                  let accessGroupNode :=
                    FieldQueryNode (VariableQueryNode itemVar) accessGroupField targetType in
                  let condition :=
                    getAccessCondition entityPermissionDescriptor authContext READ
                      accessGroupNode in
                  Ok (newTransformList node itemVar condition)
              end
          end
      end
  end.

(** [transformCreateEntityQueryNode] *)
Definition transformCreateEntityQueryNode (objectType : GraphQLObjectType)
    (objectNode : QueryNode) (authContext : AuthContext) : QueryNode :=
  let node := CreateEntityQueryNode objectType objectNode in
  let permissionDescriptor := getPermissionDescriptor objectType None in
  let access := canAccess permissionDescriptor authContext WRITE in
  match access with
  | GRANTED => node
  | DENIED =>
      RuntimeErrorQueryNode
        (AUTHORIZATION_ERROR_NAME +:+ ": Not authorized to create "
         +:+ typeName objectType +:+ " objects")
  | CONDITIONAL =>
      let condition :=
        getAccessCondition permissionDescriptor authContext WRITE objectNode in
      let explanation :=
        getExplanationForCondition permissionDescriptor authContext WRITE SET in
      WithPreExecutionQueryNode
        [mkPreExec condition None
           (Some (ErrorIfNotTruthyResultValidator
                    ("Not authorized to " +:+ explanation) AUTHORIZATION_ERROR_NAME))]
        node
  end.

End Transformers.

(** The entity-level verdict on following an edge: the READ verdict of the
    permission descriptor of the type on the far side. *)
Definition entityVerdict {AuthContext : Type}
    (getPermissionDescriptor :
       GraphQLObjectType → option GraphQLField → PermissionDescriptor AuthContext)
    (edgeType : EdgeType) (sourceFieldSide : RelationFieldEdgeSide)
    (authContext : AuthContext) : PermissionResult :=
  canAccess
    (getPermissionDescriptor
       (getTypeOfSide edgeType (invertRelationFieldEdgeSide sourceFieldSide)) None)
    authContext READ.

(** The field-level verdict: the READ verdict of the descriptor of the
    relation field the edge is followed through. *)
Definition fieldVerdict {AuthContext : Type}
    (getPermissionDescriptor :
       GraphQLObjectType → option GraphQLField → PermissionDescriptor AuthContext)
    (edgeType : EdgeType) (sourceFieldSide : RelationFieldEdgeSide)
    (authContext : AuthContext) : option PermissionResult :=
  match getFieldOfSide edgeType sourceFieldSide with
  | None => None
  | Some sourceField =>
      Some (canAccess
              (getPermissionDescriptor (getTypeOfSide edgeType sourceFieldSide)
                 (Some sourceField))
              authContext READ)
  end.

(** ** A sample schema: heroes and their missions *)

Definition Hero : GraphQLObjectType :=
  mkType "Hero" [mkField "name"; mkField "missions"].

Definition Mission : GraphQLObjectType :=
  mkType "Mission" [mkField "title"; mkField "accessGroup"; mkField "heroes"].

Definition heroMissions : EdgeType :=
  mkEdgeType Hero (Some (mkField "missions")) Mission (Some (mkField "heroes")).

(** Roles are the authorization context of the sample. *)
Definition allowedGroups (roles : list string) : QueryNode :=
  LiteralQueryNode (JList (List.map JString roles)).

(** A registry in which the relation field [Hero.missions] has the given
    verdict and every entity type the given entity verdict; the access
    condition tests that the subject is one of the roles. *)
Definition sampleDescriptors (fieldAccess entityAccess : PermissionResult)
    (type : GraphQLObjectType) (field : option GraphQLField)
    : PermissionDescriptor (list string) :=
  mkDescriptor (list string)
    (fun _ _ => match field with Some _ => fieldAccess | None => entityAccess end)
    (fun roles _ subject => BinaryOperationQueryNode subject IN (allowedGroups roles))
    (fun _ _ _ => "create objects with this access group").

End Authorization.

(* ===================================================================== *)
(** * Part IV.  The generated JavaScript (database/inmemory/js) *)
(* ===================================================================== *)

Module JS.
Import QueryTree.

(** A [JSVariable] object.  Each object is rendered under a name of its own,
    so a variable is its identity [jsId]; [jsLabel] is the hint it was
    created with.  A [JSQueryResultVariable] is a [JSVariable] that holds the
    result of a pre-execution query. *)
Record JSVariable : Type := mkJSVar {
  jsLabel : string;
  jsId : nat;
  isQueryResultVariable : bool
}.

(** What a template puts in the place of a key in an object literal: raw
    code ([js.code]), a string literal ([js.string]), or a bound value,
    spliced in as it is, without brackets around it. *)
Inductive PropKey : Type :=
  | KCode (name : string)
  | KString (name : string)
  | KBound (value : string).

(** The operators that occur in the templates. *)
Inductive JSOperator : Type :=
  | OpAnd | OpOr                         (* && || *)
  | OpStrictEq | OpStrictNe              (* === !== *)
  | OpLooseEq | OpLooseNe                (* == != *)
  | OpAdd | OpSub | OpMul | OpDiv | OpMod
  | OpLt | OpLe | OpGt | OpGe.

(** A piece of a template that is kept as text: code, or a variable
    spliced in. *)
Inductive RawPiece : Type :=
  | RCode (code : string)
  | RVar (x : JSVariable).

(** The code the generator's templates denote, one constructor per form of
    template.  A template stands for the expression it spells; the one
    template that does not spell an expression is kept as text ([ERaw]). *)
Inductive JSExpr : Type :=
  | EBound (value : Json)                         (* a bound value *)
  | ENull                                         (* null *)
  | EBool (b : bool)                              (* true, false *)
  | EInteger (n : Z)                              (* js.integer *)
  | EString (s : string)                          (* 'text' *)
  | EVar (x : JSVariable)
  | EObject (properties : list (PropKey * JSExpr))  (* { k: v, ... } *)
  | EArray (items : list JSExpr)                  (* [ a, b ] *)
  | ESpreadArray (lists : list JSExpr)            (* [...a, ...b] *)
  | EApplyLambda (x : JSVariable) (body arg : JSExpr)   (* (x => (body))(arg) *)
  | EExecutingFunction (body : list JSStmt)       (* (function() { ... })() *)
  | EConditional (cond thenE elseE : JSExpr)      (* (c ? a : b) *)
  | ENot (e : JSExpr)                             (* !(e) *)
  | ETypeof (e : JSExpr)                          (* typeof e *)
  | EIsArray (e : JSExpr)                         (* Array.isArray(e) *)
  | EStringOf (e : JSExpr)                        (* String(e) *)
  | EJSONStringify (e : JSExpr)                   (* JSON.stringify(e) *)
  | EBinary (op : JSOperator) (l r : JSExpr)      (* (l op r) *)
  | EMember (e : JSExpr) (name : string)          (* e.name *)
  | EIndex (e key : JSExpr)                       (* e[key] *)
  | ESupportCompare (l r : JSExpr)                (* support.compare(l, r) *)
  | EObjectAssign (target : JSExpr) (sources : list JSExpr)  (* Object.assign(t, s...) *)
  | EFilter (e : JSExpr) (x : JSVariable) (body : JSExpr)    (* e.filter(x => (body)) *)
  | EMap (e : JSExpr) (x : JSVariable) (body : JSExpr)       (* e.map(x => (body)) *)
  | EFind (e : JSExpr) (x : JSVariable) (body : JSExpr)      (* e.find(x => (body)) *)
  | ESliceSort (e : JSExpr) (x : JSVariable) (clauses : list (JSExpr * bool))
      (* e.slice().sort(support.getMultiComparator([x => (key), desc], ...)) *)
  | ESlice (e : JSExpr) (count : Z)               (* e.slice(0, count) *)
  | EIncludes (e arg : JSExpr)                    (* e.includes(arg) *)
  | EStartsWith (e arg : JSExpr)                  (* e.startsWith(arg) *)
  | EEndsWith (e arg : JSExpr)                    (* e.endsWith(arg) *)
  | ECollection (name : string)                   (* js.collection(name) *)
  | EGenerateID                                   (* db.generateID() *)
  | ERaw (pieces : list RawPiece)                 (* template text, as it is *)
with JSStmt : Type :=
  | SConst (x : JSVariable) (e : JSExpr)          (* const x = e; *)
  | SExpr (e : JSExpr)                            (* e; *)
  | SSetMember (x : JSVariable) (name : string) (e : JSExpr)   (* x.name = e; *)
  | SPush (collection : string) (e : JSExpr)      (* collection.push(e); *)
  | SReturn (e : JSExpr).                         (* return e; *)

(** [JSCompoundQuery] *)
Inductive JSCompoundQuery : Type :=
  | mkCompound (preExecQueries : list JSCompoundQuery) (jsQuery : JSExpr)
      (resultVar : option JSVariable) (resultValidator : option QueryResultValidator).

Definition compoundPreExecQueries (q : JSCompoundQuery) : list JSCompoundQuery :=
  match q with mkCompound pre _ _ _ => pre end.
Definition compoundQuery (q : JSCompoundQuery) : JSExpr :=
  match q with mkCompound _ e _ _ => e end.
Definition compoundResultVar (q : JSCompoundQuery) : option JSVariable :=
  match q with mkCompound _ _ v _ => v end.
Definition compoundValidator (q : JSCompoundQuery) : option QueryResultValidator :=
  match q with mkCompound _ _ _ v => v end.

End JS.

(* ===================================================================== *)
(** * Part V.  The generator (database/inmemory/js-generator.ts) *)
(* ===================================================================== *)

Module Generator.
Import QueryTree JS.

(** What the generator takes from modules outside the sources. *)
Class Externals : Type := {
  (** query/runtime-errors *)
  RUNTIME_ERROR_TOKEN : string;
  (** [js.isSafeIdentifier] *)
  isSafeIdentifier : string → bool;
  (** utils *)
  decapitalize : string → string;
  (** inmemory-basics *)
  getCollectionNameForRootEntity : GraphQLObjectType → string;
  getCollectionNameForEdge : EdgeType → string;
  (** how a [VariableQueryNode] prints in an error message *)
  describeVariable : VarId → string
}.

Definition ID_FIELD_NAME : string := "id".

(** ** class QueryContext *)

(** The variable map of a context, keyed by the identity of the
    [VariableQueryNode].  The [preExecQueries] array, which a context shares
    with the contexts nested in it, is threaded as state ([GenState]). *)
Record QueryContext : Type := mkContext {
  variableMap : gmap nat JSVariable
}.

(** The state of a compilation: the identity the next [JSVariable] gets and
    the [preExecQueries] array of the contexts at hand. *)
Record GenState : Type := mkGenState {
  nextJSVar : nat;
  preExecQueries : list JSCompoundQuery
}.

Definition Gen (A : Type) : Type := StateErr string GenState A.

(** A step of a compilation that only ever adds pre-execution queries at
    the end of the array it is given, as [push] does. *)
Definition appending {A : Type} (m : Gen A) : Prop :=
  ∀ gs a gs', m gs = Ok (a, gs') → ∃ more, preExecQueries gs' = preExecQueries gs ++ more.

(** A step of a compilation that throws from every state. *)
Definition throws {A : Type} (m : Gen A) : Prop := ∀ gs, ∃ e, m gs = Throw e.

(** [new JSVariable(label)], [js.variable(label)] *)
Definition newJSVariable (label : string) : Gen JSVariable :=
  fun s => Ok (mkJSVar label (nextJSVar s) false,
               mkGenState (S (nextJSVar s)) (preExecQueries s)).

(** [new JSQueryResultVariable(label)], [js.queryResultVariable(label)] *)
Definition newJSQueryResultVariable (label : string) : Gen JSVariable :=
  fun s => Ok (mkJSVar label (nextJSVar s) true,
               mkGenState (S (nextJSVar s)) (preExecQueries s)).

(** [new QueryContext()] *)
Definition emptyContext : QueryContext := mkContext ∅.

(** [newPreExecContext] *)
Definition newPreExecContext (this : QueryContext) : QueryContext :=
  mkContext (filter (fun kv => isQueryResultVariable (snd kv) = true) (variableMap this)).

(** The variable with identity [v] has no binding in the context. *)
Definition unbound (v : nat) (context : QueryContext) : Prop :=
  variableMap context !! v = None.

(** None of the steps binds its result to the variable with identity [v]. *)
Definition noResultIs (v : nat) (parms : list (PreExecQueryParms QueryNode)) : Prop :=
  Forall (fun parm =>
            match resultVariable parm with
            | Some rv => Nat.eqb (uid rv) v
            | None => false
            end = false) parms.

Section WithExternals.
Context `{Externals}.

(** [newNestedContextWithNewVariable] *)
Definition newNestedContextWithNewVariable (this : QueryContext)
    (variableNode : VarId) (jsVariable : JSVariable) : Gen QueryContext :=
  match variableMap this !! uid variableNode with
  | Some _ =>
      throw ("Variable " +:+ describeVariable variableNode +:+ " is introduced twice")
  | None => ret (mkContext (<[uid variableNode := jsVariable]> (variableMap this)))
  end.

(** [introduceVariable] *)
Definition introduceVariable (this : QueryContext) (variableNode : VarId)
    : Gen QueryContext :=
  variable <- newJSVariable (label variableNode) ;;
  newNestedContextWithNewVariable this variableNode variable.

(** [getVariable] *)
Definition getVariable (this : QueryContext) (variableNode : VarId) : Gen JSExpr :=
  match variableMap this !! uid variableNode with
  | None =>
      throw ("Variable " +:+ describeVariable variableNode
             +:+ " is used but not introduced")
  | Some variable => ret (EVar variable)
  end.

(** [getVariable], for the places that splice the variable in as a binder *)
Definition getJSVariable (this : QueryContext) (variableNode : VarId) : Gen JSVariable :=
  match variableMap this !! uid variableNode with
  | None =>
      throw ("Variable " +:+ describeVariable variableNode
             +:+ " is used but not introduced")
  | Some variable => ret variable
  end.

(** [jsExt.safeJSONKey] *)
Definition safeJSONKey (key : string) : PropKey :=
  if isSafeIdentifier key then KString key else KBound key.

(** [getJSOperator] *)
Definition getJSOperator (op : BinaryOperator) : option JSOperator :=
  match op with
  | AND => Some OpAnd
  | OR => Some OpOr
  | EQUAL => Some OpStrictEq
  | UNEQUAL => Some OpStrictNe
  | ADD => Some OpAdd
  | SUBTRACT => Some OpSub
  | MULTIPLY => Some OpMul
  | DIVIDE => Some OpDiv
  | MODULO => Some OpMod
  | _ => None
  end.

(** The template of the SCALAR type check, piece by piece:
    [(typeof ${valueVar} == 'boolean' || typeof ${valueVar} == 'number ||
    typeof ${valueVar} == 'string')]. *)
Definition scalarCheckTemplate (valueVar : JSVariable) : list RawPiece :=
  [RCode "(typeof "; RVar valueVar; RCode " == 'boolean' || typeof "; RVar valueVar;
   RCode " == 'number || typeof "; RVar valueVar; RCode " == 'string')"].

(** [typeof x == 'object'] and [x != null], as the Field and TypeCheck
    templates spell them. *)
Definition typeofIsObject (x : JSVariable) : JSExpr :=
  EBinary OpLooseEq (ETypeof (EVar x)) (EString "object").
Definition isNotNull (x : JSVariable) : JSExpr :=
  EBinary OpLooseNe (EVar x) ENull.

(** [(v => (Array.isArray(v) ? v : String(v)))(e)] *)
Definition listOrStringOf (v : JSVariable) (e : JSExpr) : JSExpr :=
  EApplyLambda v (EConditional (EIsArray (EVar v)) (EVar v) (EStringOf (EVar v))) e.

(** [compare(comp)] inside the BinaryOperation processor *)
Definition compareWith (comp : JSOperator) (lhs rhs : JSExpr) : JSExpr :=
  EBinary comp (ESupportCompare lhs rhs) (EInteger 0).

(** [processNode], with the processors in place.  [createJSCompoundQuery]
    and [addPreExecuteQuery] call back into it and are inlined in the
    WithPreExecution case; they are restated on their own below. *)
Fixpoint processNode (node : QueryNode) (context : QueryContext) {struct node}
  : Gen JSExpr :=
  match node with
  | LiteralQueryNode value => ret (EBound value)
  | NullQueryNode => ret ENull
  | RuntimeErrorQueryNode message =>
      ret (EObject [(KCode RUNTIME_ERROR_TOKEN, EBound (JString message))])
  | ConstBoolQueryNode value => ret (if value then EBool true else EBool false)
  | ConstIntQueryNode value => ret (EInteger value)
  | ObjectQueryNode properties =>
      match properties with
      | [] => ret (EObject [])
      | _ =>
          props <- (fix processProperties (ps : list (PropertySpecification QueryNode))
                     : Gen (list (PropKey * JSExpr)) :=
                     match ps with
                     | [] => ret []
                     | p :: ps' =>
                         v <- processNode (valueNode p) context ;;
                         rest <- processProperties ps' ;;
                         ret ((safeJSONKey (propertyName p), v) :: rest)
                     end) properties ;;
          ret (EObject props)
      end
  | ListQueryNode itemNodes =>
      match itemNodes with
      | [] => ret (EArray [])
      | _ =>
          items <- (fix processItems (ns : list QueryNode) : Gen (list JSExpr) :=
                      match ns with
                      | [] => ret []
                      | n :: ns' =>
                          e <- processNode n context ;;
                          rest <- processItems ns' ;;
                          ret (e :: rest)
                      end) itemNodes ;;
          ret (EArray items)
      end
  | ConcatListsQueryNode listNodes =>
      lists <- (fix processItems (ns : list QueryNode) : Gen (list JSExpr) :=
                  match ns with
                  | [] => ret []
                  | n :: ns' =>
                      e <- processNode n context ;;
                      rest <- processItems ns' ;;
                      ret (e :: rest)
                  end) listNodes ;;
      ret (ESpreadArray lists)
  | VariableQueryNode variable => getVariable context variable
  | VariableAssignmentQueryNode variableNode variableValueNode resultNode =>
      newContext <- introduceVariable context variableNode ;;
      tmpVar <- getJSVariable newContext variableNode ;;
      value <- processNode variableValueNode newContext ;;
      result <- processNode resultNode newContext ;;
      ret (EExecutingFunction [SConst tmpVar value; SReturn result])
  | WithPreExecutionQueryNode preExecQueries resultNode =>
      currentContext <-
        (fix addAll (parms : list (PreExecQueryParms QueryNode)) (currentContext : QueryContext)
           : Gen QueryContext :=
           match parms with
           | [] => ret currentContext
           | preExecParm :: parms' =>
               (* addPreExecuteQuery *)
               resultVar_newContext <-
                 match resultVariable preExecParm with
                 | Some resultVariable =>
                     resultVar <- newJSQueryResultVariable (label resultVariable) ;;
                     newContext <-
                       newNestedContextWithNewVariable currentContext resultVariable resultVar ;;
                     ret (Some resultVar, newContext)
                 | None => ret (None, currentContext)
                 end ;;
               (* createJSCompoundQuery(preExecQuery, resultVar, resultValidator,
                                        this.newPreExecContext()) *)
               jsQuery <-
                 (fun s =>
                    match (code <- processNode (query preExecParm)
                                     (newPreExecContext currentContext) ;;
                           fun s' => Ok (mkCompound (Generator.preExecQueries s') code
                                           (fst resultVar_newContext)
                                           (resultValidator preExecParm), s'))
                            (mkGenState (nextJSVar s) []) with
                    | Ok (jsQuery, s') =>
                        Ok (jsQuery, mkGenState (nextJSVar s') (Generator.preExecQueries s))
                    | Throw e => Throw e
                    end) ;;
               (* this.preExecQueries.push(jsQuery) *)
               _ <- (fun s => Ok (tt, mkGenState (nextJSVar s)
                                        (Generator.preExecQueries s ++ [jsQuery]))) ;;
               addAll parms' (snd resultVar_newContext)
           end) preExecQueries context ;;
      processNode resultNode currentContext
  | FieldQueryNode objectNode field _ =>
      object <- processNode objectNode context ;;
      objectVar <- newJSVariable "object" ;;
      let identifier := fieldName field in
      let raw :=
        if isSafeIdentifier identifier
        then Some (EMember (EVar objectVar) identifier) else None in
      (* the assignment that follows overwrites [raw] in either case *)
      let raw := EIndex (EVar objectVar) (EBound (JString identifier)) in
      ret (EApplyLambda objectVar
             (EConditional
                (EBinary OpAnd (typeofIsObject objectVar) (isNotNull objectVar))
                raw ENull)
             object)
  | RootEntityIDQueryNode objectNode =>
      object <- processNode objectNode context ;;
      ret (EMember object ID_FIELD_NAME)
  | TransformListQueryNode listNode itemVariable filterNode orderBy maxCount innerNode =>
      itemContext <- introduceVariable context itemVariable ;;
      itemVar <- getJSVariable itemContext itemVariable ;;
      (* getComparatorForOrderSpecification, unless the order is empty *)
      comparator <-
        match orderBy with
        | [] => ret None
        | _ =>
            args <- (fix processClauses (cs : list (OrderClause QueryNode))
                       : Gen (list (JSExpr * bool)) :=
                       match cs with
                       | [] => ret []
                       | clause :: cs' =>
                           key <- processNode (clauseValueNode clause) itemContext ;;
                           rest <- processClauses cs' ;;
                           ret ((key,
                                 match direction clause with
                                 | DESCENDING => true
                                 | ASCENDING => false
                                 end) :: rest)
                       end) orderBy ;;
            ret (Some args)
        end ;;
      let isFiltered :=
        match filterNode with
        | ConstBoolQueryNode true => false
        | _ => true
        end in
      let isMapped := negb (isVariable innerNode itemVariable) in
      list <- processNode listNode context ;;
      filtered <-
        (if isFiltered
         then (pred <- processNode filterNode itemContext ;; ret (EFilter list itemVar pred))
         else ret list) ;;
      let sorted :=
        match comparator with
        | Some args => ESliceSort filtered itemVar args
        | None => filtered
        end in
      let capped :=
        match maxCount with
        | Some n => ESlice sorted n
        | None => sorted
        end in
      (if isMapped
       then (inner <- processNode innerNode itemContext ;; ret (EMap capped itemVar inner))
       else ret capped)
  | CountQueryNode listNode =>
      list <- processNode listNode context ;;
      ret (EMember list "length")
  | MergeObjectsQueryNode objectNodes =>
      objectList <- (fix processItems (ns : list QueryNode) : Gen (list JSExpr) :=
                       match ns with
                       | [] => ret []
                       | n :: ns' =>
                           e <- processNode n context ;;
                           rest <- processItems ns' ;;
                           ret (e :: rest)
                       end) objectNodes ;;
      ret (EObjectAssign (EObject []) objectList)
  | FirstOfListQueryNode listNode =>
      list <- processNode listNode context ;;
      ret (EIndex list (EInteger 0))
  | BinaryOperationQueryNode lhsNode operator rhsNode =>
      lhs <- processNode lhsNode context ;;
      rhs <- processNode rhsNode context ;;
      lhsVar <- newJSVariable "lhs" ;;
      rhsVar <- newJSVariable "rhs" ;;
      let lhsListOrString := listOrStringOf lhsVar lhs in
      let rhsListOrString := listOrStringOf rhsVar rhs in
      match getJSOperator operator with
      | Some op => ret (EBinary op lhs rhs)
      | None =>
          match operator with
          | LESS_THAN => ret (compareWith OpLt lhs rhs)
          | LESS_THAN_OR_EQUAL => ret (compareWith OpLe lhs rhs)
          | GREATER_THAN => ret (compareWith OpGt lhs rhs)
          | GREATER_THAN_OR_EQUAL => ret (compareWith OpGe lhs rhs)
          | CONTAINS => ret (EIncludes lhsListOrString rhsListOrString)
          | IN => ret (EIncludes rhsListOrString lhsListOrString)
          | STARTS_WITH => ret (EStartsWith (EStringOf lhs) rhs)
          | ENDS_WITH => ret (EEndsWith (EStringOf lhs) rhs)
          | APPEND => ret (EBinary OpAdd (EStringOf lhs) (EStringOf rhs))
          | PREPEND => ret (EBinary OpAdd (EStringOf rhs) (EStringOf lhs))
          | _ => throw "Unsupported binary operator: undefined"
          end
      end
  | UnaryOperationQueryNode valueNode operator =>
      match operator with
      | NOT => value <- processNode valueNode context ;; ret (ENot value)
      | JSON_STRINGIFY =>
          value <- processNode valueNode context ;; ret (EJSONStringify value)
      end
  | ConditionalQueryNode condition expr1 expr2 =>
      cond <- processNode condition context ;;
      e1 <- processNode expr1 context ;;
      e2 <- processNode expr2 context ;;
      ret (EConditional cond e1 e2)
  | TypeCheckQueryNode valueNode type =>
      value <- processNode valueNode context ;;
      valueVar <- newJSVariable "value" ;;
      match type with
      | SCALAR => ret (EApplyLambda valueVar (ERaw (scalarCheckTemplate valueVar)) value)
      | LIST => ret (EIsArray value)
      | OBJECT =>
          ret (EApplyLambda valueVar
                 (EBinary OpAnd
                    (EBinary OpAnd (typeofIsObject valueVar) (isNotNull valueVar))
                    (ENot (EIsArray (EVar valueVar))))
                 value)
      | NULL => ret (EBinary OpLooseEq value ENull)
      end
  | EntitiesQueryNode objectType =>
      ret (ECollection (getCollectionNameForRootEntity objectType))
  | FollowEdgeQueryNode edgeType sourceEntityNode sourceFieldSide =>
      let targetType := getTypeOfSide edgeType (invertRelationFieldEdgeSide sourceFieldSide) in
      let targetColl := ECollection (getCollectionNameForRootEntity targetType) in
      let edgeColl := ECollection (getCollectionNameForEdge edgeType) in
      edgeVar <- newJSVariable "edge" ;;
      itemVar <- newJSVariable (decapitalize (typeName targetType)) ;;
      let sourceIDOnEdge :=
        match sourceFieldSide with
        | FROM_SIDE => EMember (EVar edgeVar) "_from"
        | TO_SIDE => EMember (EVar edgeVar) "_to"
        end in
      let targetIDOnEdge :=
        match sourceFieldSide with
        | FROM_SIDE => EMember (EVar edgeVar) "_to"
        | TO_SIDE => EMember (EVar edgeVar) "_from"
        end in
      (* processNode(new RootEntityIDQueryNode(node.sourceEntityNode), context) *)
      source <- processNode sourceEntityNode context ;;
      let sourceID := EMember source ID_FIELD_NAME in
      let idOnItem := EMember (EVar itemVar) ID_FIELD_NAME in
      let idOnItemEqualsTargetIDOnEdge := EBinary OpStrictEq idOnItem targetIDOnEdge in
      ret (EFilter
             (EMap
                (EFilter edgeColl edgeVar (EBinary OpLooseEq sourceIDOnEdge sourceID))
                edgeVar (EFind targetColl itemVar idOnItemEqualsTargetIDOnEdge))
             itemVar (EVar itemVar))
  | CreateEntityQueryNode objectType objectNode =>
      objVar <- newJSVariable "obj" ;;
      idVar <- newJSVariable "id" ;;
      object <- processNode objectNode context ;;
      ret (EExecutingFunction
             [SConst objVar object;
              SConst idVar EGenerateID;
              SSetMember objVar ID_FIELD_NAME (EVar idVar);
              SPush (getCollectionNameForRootEntity objectType) (EVar objVar);
              SReturn (EVar idVar)])
  | UpdateEntitiesQueryNode objectType listNode updates currentEntityVariable =>
      newContext <- introduceVariable context currentEntityVariable ;;
      entityVar <- getJSVariable newContext currentEntityVariable ;;
      (* processNode(new ObjectQueryNode(node.updates), newContext) *)
      updateObject <-
        match updates with
        | [] => ret (EObject [])
        | _ =>
            props <- (fix processProperties (ps : list (PropertySpecification QueryNode))
                       : Gen (list (PropKey * JSExpr)) :=
                       match ps with
                       | [] => ret []
                       | p :: ps' =>
                           v <- processNode (valueNode p) newContext ;;
                           rest <- processProperties ps' ;;
                           ret ((safeJSONKey (propertyName p), v) :: rest)
                       end) updates ;;
            ret (EObject props)
        end ;;
      let updateFunction :=
        EExecutingFunction
          [SExpr (EObjectAssign (EVar entityVar) [updateObject]);
           SReturn (EMember (EVar entityVar) ID_FIELD_NAME)] in
      list <- processNode listNode context ;;
      ret (EMap list entityVar updateFunction)
  end.

(** The loops of [processNode], named. *)
Definition processItems (context : QueryContext) : list QueryNode → Gen (list JSExpr) :=
  fix processItems (ns : list QueryNode) : Gen (list JSExpr) :=
    match ns with
    | [] => ret []
    | n :: ns' =>
        e <- processNode n context ;;
        rest <- processItems ns' ;;
        ret (e :: rest)
    end.

Definition processProperties (context : QueryContext)
  : list (PropertySpecification QueryNode) → Gen (list (PropKey * JSExpr)) :=
  fix processProperties (ps : list (PropertySpecification QueryNode))
    : Gen (list (PropKey * JSExpr)) :=
    match ps with
    | [] => ret []
    | p :: ps' =>
        v <- processNode (valueNode p) context ;;
        rest <- processProperties ps' ;;
        ret ((safeJSONKey (propertyName p), v) :: rest)
    end.

(** [getClauseFnAndInvert] over the clauses of an order specification *)
Definition processClauses (context : QueryContext)
  : list (OrderClause QueryNode) → Gen (list (JSExpr * bool)) :=
  fix processClauses (cs : list (OrderClause QueryNode)) : Gen (list (JSExpr * bool)) :=
    match cs with
    | [] => ret []
    | clause :: cs' =>
        key <- processNode (clauseValueNode clause) context ;;
        rest <- processClauses cs' ;;
        ret ((key,
              match direction clause with
              | DESCENDING => true
              | ASCENDING => false
              end) :: rest)
    end.

(** [createJSCompoundQuery]: the query is compiled against the context's
    own [preExecQueries] array, here the one in the state. *)
Definition createJSCompoundQuery (node : QueryNode) (resultVariable : option JSVariable)
    (resultValidator : option QueryResultValidator) (context : QueryContext)
    : Gen JSCompoundQuery :=
  jsQuery <- processNode node context ;;
  fun s => Ok (mkCompound (preExecQueries s) jsQuery resultVariable resultValidator, s).

(** [addPreExecuteQuery] *)
Definition addPreExecuteQuery (this : QueryContext) (preExecQuery : QueryNode)
    (resultVariable : option VarId) (resultValidator : option QueryResultValidator)
    : Gen QueryContext :=
  resultVar_newContext <-
    match resultVariable with
    | Some resultVariable =>
        resultVar <- newJSQueryResultVariable (label resultVariable) ;;
        newContext <- newNestedContextWithNewVariable this resultVariable resultVar ;;
        ret (Some resultVar, newContext)
    | None => ret (None, this)
    end ;;
  jsQuery <-
    (fun s =>
       match createJSCompoundQuery preExecQuery (fst resultVar_newContext) resultValidator
               (newPreExecContext this) (mkGenState (nextJSVar s) []) with
       | Ok (jsQuery, s') => Ok (jsQuery, mkGenState (nextJSVar s') (preExecQueries s))
       | Throw e => Throw e
       end) ;;
  _ <- (fun s => Ok (tt, mkGenState (nextJSVar s) (preExecQueries s ++ [jsQuery]))) ;;
  ret (snd resultVar_newContext).

(** The loop of the WithPreExecution processor, as it stands in
    [processNode]: [addPreExecuteQuery] for each step in turn. *)
Fixpoint addPreExecuteQueries (parms : list (PreExecQueryParms QueryNode))
    (currentContext : QueryContext) : Gen QueryContext :=
  match parms with
  | [] => ret currentContext
  | preExecParm :: parms' =>
      resultVar_newContext <-
        match resultVariable preExecParm with
        | Some resultVariable =>
            resultVar <- newJSQueryResultVariable (label resultVariable) ;;
            newContext <-
              newNestedContextWithNewVariable currentContext resultVariable resultVar ;;
            ret (Some resultVar, newContext)
        | None => ret (None, currentContext)
        end ;;
      jsQuery <-
        (fun s =>
           match createJSCompoundQuery (query preExecParm) (fst resultVar_newContext)
                   (resultValidator preExecParm) (newPreExecContext currentContext)
                   (mkGenState (nextJSVar s) []) with
           | Ok (jsQuery, s') => Ok (jsQuery, mkGenState (nextJSVar s') (preExecQueries s))
           | Throw e => Throw e
           end) ;;
      _ <- (fun s => Ok (tt, mkGenState (nextJSVar s) (preExecQueries s ++ [jsQuery]))) ;;
      addPreExecuteQueries parms' (snd resultVar_newContext)
  end.

(** [getJSQuery] *)
Definition getJSQuery (node : QueryNode) : Result string JSCompoundQuery :=
  match (resultVar <- newJSQueryResultVariable "result" ;;
         createJSCompoundQuery node (Some resultVar) None emptyContext)
          (mkGenState 0 []) with
  | Ok (q, _) => Ok q
  | Throw e => Throw e
  end.

End WithExternals.

End Generator.

(* ===================================================================== *)
(** * Part VI.  What the generated code computes *)
(* ===================================================================== *)

(** The in-memory adapter evaluates the generated code with the JavaScript
    engine.  This part gives the meaning of the code forms of Part IV on
    JSON-like data, following ECMAScript for the operations the templates
    use.  Numbers are modelled by their integer values, and arithmetic is
    given a result only within the integers a double holds exactly.  Objects
    live in a heap and are referred to by address, so that [Object.assign]
    and member assignment act in place; arrays are immutable values, which
    is what the templates make of them except for [push] on a collection.
    Whatever lies outside (non-integral or inexact results, coercions
    between numbers and numeric strings, comparing two arrays for identity,
    inherited properties) is reported as [Unmodelled], never given a made-up
    value.

    Two things the engine does with the text of the code are not modelled
    by a walk over its structure, and the statements about [eval] are to be
    read with them in mind.  The engine parses the whole text before it runs
    any of it: text that is not JavaScript (a template that ends inside a
    string literal, an object literal with a key that is no key) is rejected
    as a whole, whereas [eval] raises the SyntaxError when it reaches the
    offending part, and not at all when it never does.  And a template
    splices the text of its operands in as it is: [eval] takes every operand
    as a unit, which is what the text means when the operand's text is a
    unit of its own (a variable, a bound value, a call, a parenthesized
    expression); an operand whose text is an operator expression without
    parentheses around it, spliced into a tighter context, is grouped by the
    engine by precedence. *)

Module Semantics.
Import QueryTree JS.

Inductive Value : Type :=
  | VUndefined
  | VNull
  | VBool (b : bool)
  | VNumber (n : Z)
  | VString (s : string)
  | VList (items : list Value)
  | VRef (address : nat).

Inductive JSError : Type :=
  | TypeError
  | ReferenceError
  | SyntaxError
  | Unmodelled.

(** The database the code runs against: the heap of objects, the
    collections by name, and the state of the source of identifiers behind
    [db.generateID()], of which nothing is known here but that it is a
    state. *)
Record Store : Type := mkStore {
  heap : list (list (string * Value));
  collections : gmap string (list Value);
  nextID : Z
}.

Definition Eval (A : Type) : Type := StateErr JSError Store A.

(** Variable bindings, innermost first, keyed by the variable's identity. *)
Definition Env : Type := list (nat * Value).

Definition bindVar (x : JSVariable) (v : Value) (env : Env) : Env :=
  (jsId x, v) :: env.

Fixpoint lookupVar (env : Env) (x : JSVariable) : option Value :=
  match env with
  | [] => None
  | (i, v) :: rest => if Nat.eqb i (jsId x) then Some v else lookupVar rest x
  end.

(** What the code calls but the sources do not hold is taken as given: the
    engine's comparator helper [support.compare], and [db.generateID()],
    which from the state of the source of identifiers gives an identifier
    and the state after it. *)
Class Runtime : Type := {
  supportCompare : Value → Value → Z;
  generateID : Z → string * Z
}.

(** ** Values *)

(** ToBoolean *)
Definition truthy (v : Value) : bool :=
  match v with
  | VUndefined | VNull => false
  | VBool b => b
  | VNumber n => negb (Z.eqb n 0)
  | VString s => negb (String.eqb s "")
  | VList _ | VRef _ => true
  end.

(** [typeof] *)
Definition typeOf (v : Value) : string :=
  match v with
  | VUndefined => "undefined"
  | VNull => "object"
  | VBool _ => "boolean"
  | VNumber _ => "number"
  | VString _ => "string"
  | VList _ | VRef _ => "object"
  end.

(** ToString, as [String(v)] and the string methods apply it.  An array
    joins its elements with commas, [null] and [undefined] elements being
    empty; an object prints as [[object Object]]. *)
Fixpoint toStr (v : Value) : string :=
  match v with
  | VUndefined => "undefined"
  | VNull => "null"
  | VBool true => "true"
  | VBool false => "false"
  | VNumber n => showZ n
  | VString s => s
  | VList items =>
      String.concat ","
        (List.map (fun item => match item with
                               | VUndefined | VNull => ""
                               | _ => toStr item
                               end) items)
  | VRef _ => "[object Object]"
  end.

(** Strict equality.  [None]: two arrays, whose identity is not tracked. *)
Definition strictEq (a b : Value) : option bool :=
  match a, b with
  | VUndefined, VUndefined => Some true
  | VNull, VNull => Some true
  | VBool x, VBool y => Some (Bool.eqb x y)
  | VNumber x, VNumber y => Some (Z.eqb x y)
  | VString x, VString y => Some (String.eqb x y)
  | VRef x, VRef y => Some (Nat.eqb x y)
  | VList _, VList _ => None
  | _, _ => Some false
  end.

(** Loose equality.  [None]: a comparison that coerces an operand. *)
Definition looseEq (a b : Value) : option bool :=
  match a, b with
  | (VUndefined | VNull), (VUndefined | VNull) => Some true
  | (VUndefined | VNull), _ => Some false
  | _, (VUndefined | VNull) => Some false
  | VBool _, VBool _ | VNumber _, VNumber _ | VString _, VString _
  | VRef _, VRef _ | VList _, VList _ => strictEq a b
  | _, _ => None
  end.

(** ToNumber on what has an integer value. *)
Definition toNumber (v : Value) : option Z :=
  match v with
  | VNull => Some 0
  | VBool true => Some 1
  | VBool false => Some 0
  | VNumber n => Some n
  | _ => None
  end.

Definition isStringLike (v : Value) : bool :=
  match v with
  | VString _ | VList _ | VRef _ => true
  | _ => false
  end.

Definition compareStrings (a b : string) : comparison := String.compare a b.

(** The integers every one of which a double holds exactly
    ([Number.isSafeInteger]).  The engine computes in doubles: the sum,
    difference or product of two such integers is exact when it is such an
    integer again, and is rounded otherwise. *)
Definition isSafeInteger (n : Z) : bool :=
  (- 9007199254740991 <=? n) && (n <=? 9007199254740991).

(** The arithmetic and relational operators on two values.  Arithmetic is
    given a result where the engine's is exact: on safe integers with a safe
    integer for result. *)
Definition applyOperator (op : JSOperator) (a b : Value) : Result JSError Value :=
  let numeric (f : Z → Z → option Value) :=
    match toNumber a, toNumber b with
    | Some x, Some y =>
        match f x y with Some v => Ok v | None => Throw Unmodelled end
    | _, _ => Throw Unmodelled
    end in
  let arithmetic (f : Z → Z → option Z) :=
    numeric (fun x y =>
               if isSafeInteger x && isSafeInteger y then
                 match f x y with
                 | Some r => if isSafeInteger r then Some (VNumber r) else None
                 | None => None
                 end
               else None) in
  let relational (onZ : Z → Z → bool) (onCmp : comparison → bool) :=
    match a, b with
    | VString x, VString y => Ok (VBool (onCmp (compareStrings x y)))
    | _, _ => numeric (fun x y => Some (VBool (onZ x y)))
    end in
  let equality (eq : Value → Value → option bool) (negate : bool) :=
    match eq a b with
    | Some r => Ok (VBool (xorb negate r))
    | None => Throw Unmodelled
    end in
  match op with
  | OpAnd => Ok (if truthy a then b else a)
  | OpOr => Ok (if truthy a then a else b)
  | OpStrictEq => equality strictEq false
  | OpStrictNe => equality strictEq true
  | OpLooseEq => equality looseEq false
  | OpLooseNe => equality looseEq true
  | OpAdd =>
      if isStringLike a || isStringLike b then Ok (VString (toStr a +:+ toStr b))
      else arithmetic (fun x y => Some (x + y))
  | OpSub => arithmetic (fun x y => Some (x - y))
  | OpMul => arithmetic (fun x y => Some (x * y))
  | OpDiv =>
      arithmetic (fun x y =>
                    if Z.eqb y 0 then None
                    else if Z.eqb (Z.rem x y) 0 then Some (Z.quot x y) else None)
  | OpMod => arithmetic (fun x y => if Z.eqb y 0 then None else Some (Z.rem x y))
  | OpLt => relational Z.ltb (fun c => match c with Lt => true | _ => false end)
  | OpLe => relational Z.leb (fun c => match c with Gt => false | _ => true end)
  | OpGt => relational Z.gtb (fun c => match c with Gt => true | _ => false end)
  | OpGe => relational Z.geb (fun c => match c with Lt => false | _ => true end)
  end.

(** ** Objects *)

(** Own property read: the value, or [undefined]. *)
Definition getProperty (name : string) (object : list (string * Value)) : Value :=
  match List.find (fun kv => String.eqb (fst kv) name) object with
  | Some kv => snd kv
  | None => VUndefined
  end.

(** Own property write: an existing key keeps its place, a new key goes
    last. *)
Fixpoint setProperty (name : string) (v : Value) (object : list (string * Value))
  : list (string * Value) :=
  match object with
  | [] => [(name, v)]
  | (k, w) :: rest =>
      if String.eqb k name then (k, v) :: rest else (k, w) :: setProperty name v rest
  end.

(** What [Object.assign(target, source)] does to the target's properties:
    each own property of the source is written onto the target, in order. *)
Definition assignProperties (target source : list (string * Value)) : list (string * Value) :=
  List.fold_left (fun acc kv => setProperty (fst kv) (snd kv) acc) source target.

(** Own property lookup. *)
Definition ownProperty (name : string) (object : list (string * Value)) : option Value :=
  match List.find (fun kv => String.eqb (fst kv) name) object with
  | Some kv => Some (snd kv)
  | None => None
  end.

(** The value the last of a sequence of assignments gives to a name. *)
Fixpoint lastValue (name : string) (assignments : list (string * Value)) : option Value :=
  match assignments with
  | [] => None
  | (k, v) :: rest =>
      match lastValue name rest with
      | Some w => Some w
      | None => if String.eqb k name then Some v else None
      end
  end.

Definition allocate (object : list (string * Value)) : Eval Value :=
  fun st => Ok (VRef (length (heap st)),
                mkStore (heap st ++ [object]) (collections st) (nextID st)).

Definition readObject (address : nat) : Eval (list (string * Value)) :=
  fun st =>
    match heap st !! address with
    | Some object => Ok (object, st)
    | None => Throw ReferenceError
    end.

Definition writeObject (address : nat) (object : list (string * Value)) : Eval unit :=
  fun st => Ok (tt, mkStore (<[address := object]> (heap st)) (collections st) (nextID st)).

Definition fail {A : Type} (e : JSError) : Eval A := throw e.

(** A bound value enters the code as the data it is; its records are placed
    in the heap. *)
Fixpoint fromJson (j : Json) : Eval Value :=
  match j with
  | JUndefined => ret VUndefined
  | JNull => ret VNull
  | JBool b => ret (VBool b)
  | JNumber n => ret (VNumber n)
  | JString s => ret (VString s)
  | JList items =>
      vs <- (fix all (js : list Json) : Eval (list Value) :=
               match js with
               | [] => ret []
               | j' :: js' => v <- fromJson j' ;; vs <- all js' ;; ret (v :: vs)
               end) items ;;
      ret (VList vs)
  | JRecord properties =>
      props <- (fix all (ps : list (string * Json)) : Eval (list (string * Value)) :=
                  match ps with
                  | [] => ret []
                  | (k, j') :: ps' =>
                      v <- fromJson j' ;; rest <- all ps' ;; ret ((k, v) :: rest)
                  end) properties ;;
      allocate (List.fold_left (fun acc kv => setProperty (fst kv) (snd kv) acc) props [])
  end.

(** ** Lists *)

Fixpoint filterM (f : Value → Eval Value) (vs : list Value) : Eval (list Value) :=
  match vs with
  | [] => ret []
  | v :: vs' =>
      keep <- f v ;;
      rest <- filterM f vs' ;;
      ret (if truthy keep then v :: rest else rest)
  end.

Fixpoint mapM {A : Type} (f : Value → Eval A) (vs : list Value) : Eval (list A) :=
  match vs with
  | [] => ret []
  | v :: vs' =>
      w <- f v ;;
      rest <- mapM f vs' ;;
      ret (w :: rest)
  end.

Fixpoint findM (f : Value → Eval Value) (vs : list Value) : Eval Value :=
  match vs with
  | [] => ret VUndefined
  | v :: vs' =>
      found <- f v ;;
      if truthy found then ret v else findM f vs'
  end.

(** [list.slice(0, count)]: a negative end counts from the end. *)
Definition slice0 {A : Type} (count : Z) (l : list A) : list A :=
  if 0 <=? count then firstn (Z.to_nat count) l
  else firstn (Z.to_nat (Z.of_nat (length l) + count)) l.

(** [list.includes(needle)]: SameValueZero against each element in turn. *)
Fixpoint listIncludes (needle : Value) (l : list Value) : Result JSError bool :=
  match l with
  | [] => Ok false
  | item :: rest =>
      match strictEq item needle with
      | Some true => Ok true
      | Some false => listIncludes needle rest
      | None => Throw Unmodelled
      end
  end.

(** [text.includes(needle)] *)
Definition stringIncludes (needle text : string) : bool :=
  match String.index 0 needle text with
  | Some _ => true
  | None => false
  end.

Definition reverseString (s : string) : string :=
  String.string_of_list_ascii (List.rev (String.list_ascii_of_string s)).

(** [text.endsWith(needle)] *)
Definition stringEndsWith (needle text : string) : bool :=
  String.prefix (reverseString needle) (reverseString text).

(** ** The stable multi-key sort *)

(** Modelled from the spec: [support.getMultiComparator] and the engine's
    [Array.prototype.sort] are not among the sources.  Section 4.4 asks for a
    stable multi-key sort in which each clause is a (key extractor,
    descending flag) pair, composed left to right as primary, secondary, ...
    keys.  The keys of every item are extracted first; the items are then
    sorted by comparing key lists with [support.compare], clause by clause,
    a descending clause negating the comparison. *)
Section Sorting.
Context `{Runtime}.

Fixpoint compareKeys (descending : list bool) (a b : list Value) : Z :=
  match descending, a, b with
  | desc :: ds, x :: a', y :: b' =>
      let c := supportCompare x y in
      if Z.eqb c 0 then compareKeys ds a' b'
      else if desc then - c else c
  | _, _, _ => 0
  end.

(** Insertion before the first element that does not precede [x]. *)
Fixpoint insertSorted {A : Type} (cmp : A → A → Z) (x : A) (l : list A) : list A :=
  match l with
  | [] => [x]
  | y :: rest => if cmp x y <=? 0 then x :: y :: rest else y :: insertSorted cmp x rest
  end.

Definition stableSort {A : Type} (cmp : A → A → Z) (l : list A) : list A :=
  List.fold_right (insertSorted cmp) [] l.

(** The elements of a list that tie with [a], in the order they have. *)
Definition tiesWith {A : Type} (cmp : A → A → Z) (a : A) (l : list A) : list A :=
  List.filter (fun y => cmp a y =? 0) l.

(** Sorting items that carry their keys. *)
Definition sortByKeys (descending : list bool) (decorated : list (Value * list Value))
    : list Value :=
  List.map fst
    (stableSort (fun p q => compareKeys descending (snd p) (snd q)) decorated).

End Sorting.

(** ** Raw template text *)

(** Does the text end inside a single-quoted string literal?  Variables
    spliced in are identifiers and contain no quote.  Text that does is not
    JavaScript: the engine rejects the code it occurs in with a SyntaxError
    when it parses it, before any of it runs.  [eval] raises the error when
    it reaches the template, which gives the same outcome whenever nothing
    with an effect is evaluated before. *)
Fixpoint endsInsideString (inside : bool) (code : string) : bool :=
  match code with
  | EmptyString => inside
  | String c rest =>
      if Ascii.eqb c "'"%char then endsInsideString (negb inside) rest
      else endsInsideString inside rest
  end.

Fixpoint unterminatedString (inside : bool) (pieces : list RawPiece) : bool :=
  match pieces with
  | [] => inside
  | RCode code :: rest => unterminatedString (endsInsideString inside code) rest
  | RVar _ :: rest => unterminatedString inside rest
  end.

(** ** Property access *)

(** Names every object inherits from [Object.prototype]; reading one that is
    not an own property is outside the model. *)
Definition inheritedName (name : string) : bool :=
  bool_decide (name ∈ ["constructor"; "toString"; "toLocaleString"; "valueOf";
                       "hasOwnProperty"; "isPrototypeOf"; "propertyIsEnumerable";
                       "__proto__"; "__defineGetter__"; "__defineSetter__";
                       "__lookupGetter__"; "__lookupSetter__"]).

(** [object[name]] on the properties of an object. *)
Definition readProperty (name : string) (object : list (string * Value))
  : Result JSError Value :=
  match List.find (fun kv => String.eqb (fst kv) name) object with
  | Some kv => Ok (snd kv)
  | None => if inheritedName name then Throw Unmodelled else Ok VUndefined
  end.

Definition liftResult {A : Type} (r : Result JSError A) : Eval A :=
  fun st => match r with Ok a => Ok (a, st) | Throw e => Throw e end.

(** RequireObjectCoercible: member access on [null] or [undefined] throws. *)
Definition requireObjectCoercible (v : Value) : Eval unit :=
  match v with
  | VUndefined | VNull => fail TypeError
  | _ => ret tt
  end.

(** [v[key]] with the key already a property name. *)
Definition getMember (v : Value) (name : string) : Eval Value :=
  match v with
  | VUndefined | VNull => fail TypeError
  | VRef address => object <- readObject address ;; liftResult (readProperty name object)
  | VList items =>
      if String.eqb name "length" then ret (VNumber (Z.of_nat (length items)))
      else fail Unmodelled
  | VString text =>
      if String.eqb name "length" then ret (VNumber (Z.of_nat (String.length text)))
      else fail Unmodelled
  | VBool _ | VNumber _ => fail Unmodelled
  end.

(** [v[key]] *)
Definition getIndex (v key : Value) : Eval Value :=
  match v, key with
  | (VUndefined | VNull), _ => fail TypeError
  | VList items, VNumber n =>
      if (0 <=? n) && (n <? Z.of_nat (length items))
      then ret (List.nth (Z.to_nat n) items VUndefined)
      else ret VUndefined
  | VString text, VNumber n =>
      if (0 <=? n) && (n <? Z.of_nat (String.length text))
      then ret (VString (String.substring (Z.to_nat n) 1 text))
      else ret VUndefined
  | _, _ => getMember v (toStr key)
  end.

(** [Object.assign(target, ...sources)] *)
Fixpoint objectAssign (target : nat) (sources : list Value) : Eval unit :=
  match sources with
  | [] => ret tt
  | source :: rest =>
      _ <- match source with
           | VUndefined | VNull | VBool _ | VNumber _ => ret tt
           | VRef address =>
               from <- readObject address ;;
               onto <- readObject target ;;
               writeObject target (assignProperties onto from)
           | VString _ | VList _ => fail Unmodelled
           end ;;
      objectAssign target rest
  end.

Definition asList (v : Value) : Eval (list Value) :=
  match v with
  | VList items => ret items
  | _ => fail TypeError
  end.

(** What an array spread takes from a value. *)
Definition spreadOf (v : Value) : Eval (list Value) :=
  match v with
  | VList items => ret items
  | VString _ => fail Unmodelled
  | _ => fail TypeError
  end.

(** The property name a key of an object literal spells: the name itself,
    given as code or as a string literal.  A bound value is spliced in as an
    expression that refers to the value; the grammar takes an expression for
    a key only in brackets, [{ [key]: value }], so a bound value on its own
    spells no name and the literal is not JavaScript. *)
Definition keyName (k : PropKey) : option string :=
  match k with
  | KCode name | KString name => Some name
  | KBound _ => None
  end.

(** Does every key of an object literal spell a property name?  A literal
    with a key that does not is rejected as a whole, before any of its
    values is evaluated. *)
Definition keysAreNames (properties : list (PropKey * JSExpr)) : bool :=
  forallb (fun p => match keyName (fst p) with Some _ => true | None => false end)
    properties.

(** How a statement ends: the bindings go on, or the function returns. *)
Inductive Completion : Type :=
  | Normal (env : Env)
  | Returned (v : Value).

Section Evaluation.
Context `{Runtime}.

(** The value of an expression under the bindings [env]. *)
Fixpoint eval (e : JSExpr) (env : Env) {struct e} : Eval Value :=
  match e with
  | EBound value => fromJson value
  | ENull => ret VNull
  | EBool b => ret (VBool b)
  | EInteger n => ret (VNumber n)
  | EString text => ret (VString text)
  | EVar x =>
      match lookupVar env x with
      | Some v => ret v
      | None => fail ReferenceError
      end
  | EObject properties =>
      if keysAreNames properties then
        props <- (fix evalProperties (ps : list (PropKey * JSExpr))
                   : Eval (list (string * Value)) :=
                   match ps with
                   | [] => ret []
                   | (k, e') :: ps' =>
                       match keyName k with
                       | Some name =>
                           v <- eval e' env ;;
                           rest <- evalProperties ps' ;;
                           ret ((name, v) :: rest)
                       | None => fail SyntaxError
                       end
                   end) properties ;;
        allocate (assignProperties [] props)
      else fail SyntaxError
  | EArray items =>
      vs <- (fix evalAll (es : list JSExpr) : Eval (list Value) :=
               match es with
               | [] => ret []
               | e' :: es' => v <- eval e' env ;; vs <- evalAll es' ;; ret (v :: vs)
               end) items ;;
      ret (VList vs)
  | ESpreadArray lists =>
      vs <- (fix evalAll (es : list JSExpr) : Eval (list Value) :=
               match es with
               | [] => ret []
               | e' :: es' =>
                   v <- eval e' env ;;
                   items <- spreadOf v ;;
                   rest <- evalAll es' ;;
                   ret (items ++ rest)
               end) lists ;;
      ret (VList vs)
  | EApplyLambda x body arg =>
      v <- eval arg env ;;
      eval body (bindVar x v env)
  | EExecutingFunction body =>
      (fix run (stmts : list JSStmt) (env : Env) : Eval Value :=
         match stmts with
         | [] => ret VUndefined
         | stmt :: rest =>
             c <- exec stmt env ;;
             match c with
             | Normal env' => run rest env'
             | Returned v => ret v
             end
         end) body env
  | EConditional cond thenE elseE =>
      c <- eval cond env ;;
      if truthy c then eval thenE env else eval elseE env
  | ENot e' => v <- eval e' env ;; ret (VBool (negb (truthy v)))
  | ETypeof e' => v <- eval e' env ;; ret (VString (typeOf v))
  | EIsArray e' =>
      v <- eval e' env ;;
      ret (VBool match v with VList _ => true | _ => false end)
  | EStringOf e' => v <- eval e' env ;; ret (VString (toStr v))
  | EJSONStringify e' => _ <- eval e' env ;; fail Unmodelled
  | EBinary op l r =>
      a <- eval l env ;;
      match op with
      | OpAnd => if truthy a then eval r env else ret a
      | OpOr => if truthy a then ret a else eval r env
      | _ => b <- eval r env ;; liftResult (applyOperator op a b)
      end
  | EMember e' name => v <- eval e' env ;; getMember v name
  | EIndex e' key =>
      v <- eval e' env ;;
      k <- eval key env ;;
      getIndex v k
  | ESupportCompare l r =>
      a <- eval l env ;;
      b <- eval r env ;;
      ret (VNumber (supportCompare a b))
  | EObjectAssign target sources =>
      t <- eval target env ;;
      vs <- (fix evalAll (es : list JSExpr) : Eval (list Value) :=
               match es with
               | [] => ret []
               | e' :: es' => v <- eval e' env ;; vs <- evalAll es' ;; ret (v :: vs)
               end) sources ;;
      match t with
      | VRef address => _ <- objectAssign address vs ;; ret t
      | VUndefined | VNull => fail TypeError
      | _ => fail Unmodelled
      end
  | EFilter e' x body =>
      v <- eval e' env ;;
      items <- asList v ;;
      kept <- filterM (fun item => eval body (bindVar x item env)) items ;;
      ret (VList kept)
  | EMap e' x body =>
      v <- eval e' env ;;
      items <- asList v ;;
      mapped <- mapM (fun item => eval body (bindVar x item env)) items ;;
      ret (VList mapped)
  | EFind e' x body =>
      v <- eval e' env ;;
      items <- asList v ;;
      findM (fun item => eval body (bindVar x item env)) items
  | ESliceSort e' x clauses =>
      v <- eval e' env ;;
      items <- asList v ;;
      keys <- mapM (fun item =>
                      (fix keysOf (cs : list (JSExpr * bool)) : Eval (list Value) :=
                         match cs with
                         | [] => ret []
                         | (key, _) :: cs' =>
                             k <- eval key (bindVar x item env) ;;
                             ks <- keysOf cs' ;;
                             ret (k :: ks)
                         end) clauses) items ;;
      ret (VList (sortByKeys (List.map snd clauses) (List.combine items keys)))
  | ESlice e' count =>
      v <- eval e' env ;;
      match v with
      | VList items => ret (VList (slice0 count items))
      | VString text =>
          ret (VString (String.string_of_list_ascii
                          (slice0 count (String.list_ascii_of_string text))))
      | _ => fail TypeError
      end
  | EIncludes e' arg =>
      v <- eval e' env ;;
      _ <- requireObjectCoercible v ;;
      needle <- eval arg env ;;
      match v with
      | VList items => found <- liftResult (listIncludes needle items) ;; ret (VBool found)
      | VString text => ret (VBool (stringIncludes (toStr needle) text))
      | _ => fail TypeError
      end
  | EStartsWith e' arg =>
      v <- eval e' env ;;
      _ <- requireObjectCoercible v ;;
      needle <- eval arg env ;;
      match v with
      | VString text => ret (VBool (String.prefix (toStr needle) text))
      | _ => fail TypeError
      end
  | EEndsWith e' arg =>
      v <- eval e' env ;;
      _ <- requireObjectCoercible v ;;
      needle <- eval arg env ;;
      match v with
      | VString text => ret (VBool (stringEndsWith (toStr needle) text))
      | _ => fail TypeError
      end
  | ECollection name =>
      fun st =>
        Ok (match collections st !! name with
            | Some items => VList items
            | None => VUndefined
            end, st)
  | EGenerateID =>
      fun st =>
        Ok (VString (fst (generateID (nextID st))),
            mkStore (heap st) (collections st) (snd (generateID (nextID st))))
  | ERaw pieces =>
      fail (if unterminatedString false pieces then SyntaxError else Unmodelled)
  end
with exec (stmt : JSStmt) (env : Env) {struct stmt} : Eval Completion :=
  match stmt with
  | SConst x e => v <- eval e env ;; ret (Normal (bindVar x v env))
  | SExpr e => _ <- eval e env ;; ret (Normal env)
  | SSetMember x name e =>
      match lookupVar env x with
      | None => fail ReferenceError
      | Some target =>
          v <- eval e env ;;
          match target with
          | VRef address =>
              object <- readObject address ;;
              _ <- writeObject address (setProperty name v object) ;;
              ret (Normal env)
          | VUndefined | VNull => fail TypeError
          | _ => fail Unmodelled
          end
      end
  | SPush collection e =>
      items <- (fun st =>
                  match collections st !! collection with
                  | Some items => Ok (items, st)
                  | None => Throw TypeError
                  end) ;;
      v <- eval e env ;;
      fun st =>
        Ok (Normal env,
            mkStore (heap st)
              (<[collection := default [] (collections st !! collection) ++ [v]]>
                 (collections st))
              (nextID st))
  | SReturn e => v <- eval e env ;; ret (Returned v)
  end.

(** The loops of [eval], named. *)
Definition evalAll (env : Env) : list JSExpr → Eval (list Value) :=
  fix evalAll (es : list JSExpr) : Eval (list Value) :=
    match es with
    | [] => ret []
    | e :: es' => v <- eval e env ;; vs <- evalAll es' ;; ret (v :: vs)
    end.

Definition evalProperties (env : Env)
  : list (PropKey * JSExpr) → Eval (list (string * Value)) :=
  fix evalProperties (ps : list (PropKey * JSExpr)) : Eval (list (string * Value)) :=
    match ps with
    | [] => ret []
    | (k, e) :: ps' =>
        match keyName k with
        | Some name =>
            v <- eval e env ;;
            rest <- evalProperties ps' ;;
            ret ((name, v) :: rest)
        | None => fail SyntaxError
        end
    end.

Definition evalKeys (env : Env) : list (JSExpr * bool) → Eval (list Value) :=
  fix keysOf (cs : list (JSExpr * bool)) : Eval (list Value) :=
    match cs with
    | [] => ret []
    | (key, _) :: cs' =>
        k <- eval key env ;;
        ks <- keysOf cs' ;;
        ret (k :: ks)
    end.

Fixpoint run (stmts : list JSStmt) (env : Env) : Eval Value :=
  match stmts with
  | [] => ret VUndefined
  | stmt :: rest =>
      c <- exec stmt env ;;
      match c with
      | Normal env' => run rest env'
      | Returned v => ret v
      end
  end.

End Evaluation.

End Semantics.

(* ===================================================================== *)
(** * Part VII.  Running a compiled query *)
(* ===================================================================== *)

Module Execution.
Import QueryTree JS Semantics.

(** One step of the transaction a compound query unfolds to. *)
Record JSExecutableQuery : Type := mkExecutable {
  code : JSExpr;
  resultName : option JSVariable;
  validator : option QueryResultValidator
}.

Inductive ExecutionError : Type :=
  | ValidationFailed (errorName : string) (errorMessage : string)
  | EvaluationFailed (e : JSError).

(** Modelled from the spec: the execution of a compound query (the methods
    of [JSCompoundQuery] in database/inmemory/js and the adapter that runs
    them) is not among the sources.  Sections 5 and 6 give the contract: the
    operation is an ordered list of pre-execution steps, each a query with an
    optional result variable and an optional result validator, followed by
    the main query; steps run strictly in declaration order, each completed,
    validator included, before the next begins; a validator failure aborts
    the remaining steps and the main query without executing them.  The steps
    of a nested compound query come before the query they belong to. *)
Fixpoint getExecutableQueries (q : JSCompoundQuery) : list JSExecutableQuery :=
  match q with
  | mkCompound preExecQueries jsQuery resultVar resultValidator =>
      (fix allOf (qs : list JSCompoundQuery) : list JSExecutableQuery :=
         match qs with
         | [] => []
         | q' :: qs' => getExecutableQueries q' ++ allOf qs'
         end) preExecQueries
      ++ [mkExecutable jsQuery resultVar resultValidator]
  end.

Fixpoint getAllExecutableQueries (qs : list JSCompoundQuery) : list JSExecutableQuery :=
  match qs with
  | [] => []
  | q :: qs' => getExecutableQueries q ++ getAllExecutableQueries qs'
  end.

(** Modelled from the spec: [ErrorIfNotTruthyResultValidator] of
    query/query-result-validators is not among the sources; section 4.2 has
    it fail the whole operation if the result is not truthy. *)
Definition validate (validator : option QueryResultValidator) (result : Value)
  : Result ExecutionError unit :=
  match validator with
  | Some (ErrorIfNotTruthyResultValidator errorMessage errorName) =>
      if truthy result then Ok tt else Throw (ValidationFailed errorName errorMessage)
  | None => Ok tt
  end.

Section Executor.

(** The database and the evaluation of one query against it are those of
    the storage adapter; the executor is stated for any.  A query that
    throws still leaves a database behind. *)
Context {Database : Type}.
Variable runQuery : JSExpr → Env → Database → Result JSError Value * Database.

(** Runs the steps in order.  [results] holds the results of the steps so
    far under their result variables, [last] the result of the latest
    step. *)
Fixpoint executeQueries (queries : list JSExecutableQuery) (results : Env)
    (last : Value) (db : Database) : Result ExecutionError (Env * Value) * Database :=
  match queries with
  | [] => (Ok (results, last), db)
  | q :: rest =>
      match runQuery (code q) results db with
      | (Throw e, db') => (Throw (EvaluationFailed e), db')
      | (Ok result, db') =>
          match validate (validator q) result with
          | Throw failure => (Throw failure, db')
          | Ok _ =>
              let results' :=
                match resultName q with
                | Some x => bindVar x result results
                | None => results
                end in
              executeQueries rest results' result db'
          end
      end
  end.

(** Runs a compound query: its transaction, the main query last. *)
Definition execute (q : JSCompoundQuery) (db : Database)
  : Result ExecutionError Value * Database :=
  match executeQueries (getExecutableQueries q) [] VUndefined db with
  | (Ok (_, result), db') => (Ok result, db')
  | (Throw e, db') => (Throw e, db')
  end.

End Executor.

End Execution.

(* ===================================================================== *)
(** * Part VIII.  Reference semantics of the list operations *)
(* ===================================================================== *)

Module Reference.
Import QueryTree JS Semantics.

Section Reference.
Context `{Runtime}.

(** The four stages of a list transformation, always in this order: keep
    the items the filter accepts, sort them by the keys of the clauses,
    cut the result to the cap, map what is left. *)
Definition transformList (itemVar : JSVariable) (filterCode : JSExpr)
    (clauses : list (JSExpr * bool)) (maxCount : option Z) (innerCode : JSExpr)
    (env : Env) (items : list Value) : Eval Value :=
  kept <- filterM (fun item => eval filterCode (bindVar itemVar item env)) items ;;
  keys <- mapM (fun item => evalKeys (bindVar itemVar item env) clauses) kept ;;
  let sorted := sortByKeys (List.map snd clauses) (List.combine kept keys) in
  let capped :=
    match maxCount with
    | Some count => slice0 count sorted
    | None => sorted
    end in
  mapped <- mapM (fun item => eval innerCode (bindVar itemVar item env)) capped ;;
  ret (VList mapped).

(** An expression evaluates, from [st], like a computation of a list run
    from [st1]. *)
Definition evaluatesAs (e : JSExpr) (env : Env) (st : Store)
    (m : Eval (list Value)) (st1 : Store) : Prop :=
  eval e env st = (l <- m ;; ret (VList l)) st1.




(** The values of update properties, each under its property name,
    evaluated in order. *)
Definition evalNamed (env : Env) : list (string * JSExpr) → Eval (list (string * Value)) :=
  fix evalNamed (ps : list (string * JSExpr)) : Eval (list (string * Value)) :=
    match ps with
    | [] => ret []
    | (name, e) :: ps' =>
        v <- eval e env ;;
        rest <- evalNamed ps' ;;
        ret ((name, v) :: rest)
    end.

(** What an update does to one matched entity: the update properties,
    given by name, are evaluated with the entity bound, put into an object,
    assigned onto the entity, and the entity's [id] is read back. *)
Definition updateEntity (entityVar : JSVariable) (updates : list (string * JSExpr))
    (env : Env) (entity : Value) : Eval Value :=
  values <- evalNamed (bindVar entityVar entity env) updates ;;
  patch <- allocate (assignProperties [] values) ;;
  match entity with
  | VRef address =>
      _ <- objectAssign address [patch] ;;
      getMember entity "id"
  | VUndefined | VNull => fail TypeError
  | _ => fail Unmodelled
  end.

End Reference.

(** The kind a value is of. *)
Definition kindOf (v : Value) : BasicType :=
  match v with
  | VUndefined | VNull => NULL
  | VBool _ | VNumber _ | VString _ => SCALAR
  | VList _ => LIST
  | VRef _ => OBJECT
  end.

(** Is the value [null] or a scalar, that is, anything but a list or an
    object?  [undefined], which a missing property reads as, counts. *)
Definition isNullOrScalar (v : Value) : bool :=
  match v with
  | VList _ | VRef _ => false
  | _ => true
  end.

End Reference.

(* ===================================================================== *)
(** * Part IX.  Sample instances *)
(* ===================================================================== *)

Module Samples.
Import QueryTree JS Semantics Generator.

Definition isIdentifierChar (c : ascii) : bool :=
  let n := nat_of_ascii c in
  ((48 <=? n) && (n <=? 57) || (65 <=? n) && (n <=? 90)
   || (97 <=? n) && (n <=? 122) || (n =? 95))%nat.

Definition lowerFirst (s : string) : string :=
  match s with
  | EmptyString => EmptyString
  | String c rest =>
      let n := nat_of_ascii c in
      if ((65 <=? n) && (n <=? 90))%nat then String (ascii_of_nat (n + 32)) rest
      else s
  end.

Global Instance sampleExternals : Externals := {|
  RUNTIME_ERROR_TOKEN := "__cruddl_runtime_error";
  isSafeIdentifier := fun key =>
    List.forallb isIdentifierChar (String.list_ascii_of_string key);
  decapitalize := lowerFirst;
  getCollectionNameForRootEntity := fun type => lowerFirst (typeName type) +:+ "s";
  getCollectionNameForEdge := fun edge =>
    lowerFirst (typeName (fromType edge)) +:+ "s_" +:+ lowerFirst (typeName (toType edge)) +:+ "s";
  describeVariable := fun v => "$" +:+ label v
|}.

(** A comparator that orders numbers and strings among themselves and
    everything else by kind. *)
Definition kindRank (v : Value) : Z :=
  match v with
  | VUndefined | VNull => 0
  | VBool _ => 1
  | VNumber _ => 2
  | VString _ => 3
  | VList _ => 4
  | VRef _ => 5
  end.

Definition sampleCompare (a b : Value) : Z :=
  match a, b with
  | VNumber x, VNumber y => Z.sgn (x - y)
  | VString x, VString y =>
      match String.compare x y with
      | Lt => -1
      | Eq => 0
      | Gt => 1
      end
  | VBool x, VBool y => Z.b2z x - Z.b2z y
  | _, _ => Z.sgn (kindRank a - kindRank b)
  end.

(** The sample source of identifiers counts: the identifier is the count in
    decimal. *)
Global Instance sampleRuntime : Runtime := {|
  supportCompare := sampleCompare;
  generateID := fun count => (showZ count, count + 1)
|}.

(** Three heroes in the heap and in the collection [heros]. *)
Definition sampleStore : Store :=
  mkStore
    [[("id", VString "h1"); ("name", VString "Flash"); ("age", VNumber 31)];
     [("id", VString "h2"); ("name", VString "Atom"); ("age", VNumber 42)];
     [("id", VString "h3"); ("name", VString "Cyborg"); ("age", VNumber 31)]]
    {[ "heros" := [VRef 0; VRef 1; VRef 2] ]}
    100.

Definition HeroType : GraphQLObjectType :=
  mkType "Hero" [mkField "id"; mkField "name"; mkField "age"].

Definition hero : VarId := mkVar "hero" 0.

Definition heroField (name : string) : QueryNode :=
  FieldQueryNode (VariableQueryNode hero) (mkField name) HeroType.

(** The heroes older than 30, by age descending and then by name, the first
    two of them, each as its name. *)
Definition sampleTransformList : QueryNode :=
  TransformListQueryNode (EntitiesQueryNode HeroType) hero
    (BinaryOperationQueryNode (heroField "age") GREATER_THAN (ConstIntQueryNode 30))
    [mkOrderClause (heroField "age") DESCENDING; mkOrderClause (heroField "name") ASCENDING]
    (Some 2)
    (heroField "name").

(** All heroes, as they are. *)
Definition sampleIdentityList : QueryNode :=
  newTransformList (EntitiesQueryNode HeroType) hero (ConstBoolQueryNode true).

(** Every hero gets a year older and a new title. *)
Definition sampleUpdate : QueryNode :=
  UpdateEntitiesQueryNode HeroType (EntitiesQueryNode HeroType)
    [mkProperty "age"
       (BinaryOperationQueryNode (heroField "age") ADD (ConstIntQueryNode 1));
     mkProperty "title" (LiteralQueryNode (JString "Dr."))]
    hero.

(** Every hero gets a property whose name is not an identifier. *)
Definition sampleUnsafeUpdate : QueryNode :=
  UpdateEntitiesQueryNode HeroType (EntitiesQueryNode HeroType)
    [mkProperty "my-prop" (LiteralQueryNode (JString "x"))]
    hero.

(** Compiles a tree from scratch and evaluates the main query. *)
Definition compileAndEval (node : QueryNode) (st : Store)
  : Result string (Result JSError (Value * Store)) :=
  match getJSQuery node with
  | Ok q => Ok (eval (compoundQuery q) [] st)
  | Throw e => Throw e
  end.

End Samples.

(* ===================================================================== *)
(** * Where the errors of a tree sit *)
(* ===================================================================== *)

Module ErrorPlacement.
Import ErrorPass.

(** Is the value a [RuntimeErrorQueryNode]? *)
Definition isRuntimeError (v : JSVal) : bool :=
  match v with
  | JObject c _ => instanceofQueryNode c && instanceofRuntimeError c
  | _ => false
  end.

(** Does every [RuntimeErrorQueryNode] the traversal meets in the tree sit at
    an output position, [out] being the position of [v] itself? *)
Fixpoint errorsOnlyAtOutput (out : bool) (v : JSVal) : bool :=
  match v with
  | JObject c fields =>
      if instanceofQueryNode c then
        (out || negb (instanceofRuntimeError c)) &&
        (fix inFields (fs : list (string * JSVal)) : bool :=
           match fs with
           | [] => true
           | (k, w) :: rest =>
               let out' := out && outputNodes.isOutputNode c (Some k) in
               match w with
               | JPrim _ => true
               | JObject _ _ => errorsOnlyAtOutput out' w
               | JArray items =>
                   (fix inItems (l : list JSVal) : bool :=
                      match l with
                      | [] => true
                      | item :: l' => errorsOnlyAtOutput out' item && inItems l'
                      end) items
               end && inFields rest
           end) fields
      else true
  | _ => true
  end.

Fixpoint errorsOnlyAtOutputItems (out : bool) (items : list JSVal) : bool :=
  match items with
  | [] => true
  | item :: rest => errorsOnlyAtOutput out item && errorsOnlyAtOutputItems out rest
  end.

Definition errorsOnlyAtOutputSlot (out : bool) (w : JSVal) : bool :=
  match w with
  | JPrim _ => true
  | JObject _ _ => errorsOnlyAtOutput out w
  | JArray items => errorsOnlyAtOutputItems out items
  end.

Fixpoint errorsOnlyAtOutputFields (out : bool) (c : Clazz) (fs : list (string * JSVal))
  : bool :=
  match fs with
  | [] => true
  | (k, w) :: rest =>
      errorsOnlyAtOutputSlot (out && outputNodes.isOutputNode c (Some k)) w
      && errorsOnlyAtOutputFields out c rest
  end.

(** The loops of [errorAtOutput], named. *)
Fixpoint errorAtOutputItems (out : bool) (items : list JSVal) : bool :=
  match items with
  | [] => false
  | item :: rest => errorAtOutput out item || errorAtOutputItems out rest
  end.

Definition errorAtOutputSlot (out : bool) (w : JSVal) : bool :=
  match w with
  | JPrim _ => false
  | JObject _ _ => errorAtOutput out w
  | JArray items => errorAtOutputItems out items
  end.

Fixpoint errorAtOutputFields (out : bool) (c : Clazz) (fs : list (string * JSVal)) : bool :=
  match fs with
  | [] => false
  | (k, w) :: rest =>
      errorAtOutputSlot (out && outputNodes.isOutputNode c (Some k)) w
      || errorAtOutputFields out c rest
  end.

(** The pass leaves the value alone when it is visited with nothing
    pending and its errors sit at output positions. *)
Definition fixedAt (v : JSVal) : Prop :=
  ∀ key st,
    errorsOnlyAtOutput (frameIsOutput st key) v = true →
    visitObject v key (mkState [] st) = (v, mkState [] st).

(** Visiting a query node at an output position with something pending, or
    with an error inside, yields a tree with an error at an output
    position. *)
Definition surfaces (v : JSVal) : Prop :=
  ∀ key st el,
    isQueryNode v = true →
    frameIsOutput st key = true →
    Forall (λ e, isRuntimeError e = true) el →
    el ++ errorsOf v ≠ [] →
    errorAtOutput true (fst (visitObject v key (mkState el st))) = true.

End ErrorPlacement.

(* ===================================================================== *)
(** * Entities and edges in the store *)
(* ===================================================================== *)

Module Graph.
Import QueryTree JS Semantics.

(** The own property [name] of the object a value refers to. *)
Definition propertyOf (st : Store) (v : Value) (name : string) : option Value :=
  match v with
  | VRef address =>
      match heap st !! address with
      | Some object => ownProperty name object
      | None => None
      end
  | _ => None
  end.

(** The same, when the property holds a string. *)
Definition stringProperty (st : Store) (v : Value) (name : string) : option string :=
  match propertyOf st v name with
  | Some (VString s) => Some s
  | _ => None
  end.

(** The property of an edge that holds the identifier of the entity on the
    given side. *)
Definition endOfEdge (side : RelationFieldEdgeSide) : string :=
  match side with
  | FROM_SIDE => "_from"
  | TO_SIDE => "_to"
  end.

(** An edge object with string identifiers on both ends. *)
Definition isEdge (st : Store) (edge : Value) : bool :=
  match stringProperty st edge "_from", stringProperty st edge "_to" with
  | Some _, Some _ => true
  | _, _ => false
  end.

(** An entity object with a string identifier. *)
Definition hasStringId (st : Store) (entity : Value) : bool :=
  match stringProperty st entity "id" with
  | Some _ => true
  | None => false
  end.

Definition hasId (st : Store) (id : string) (entity : Value) : bool :=
  match stringProperty st entity "id" with
  | Some i => String.eqb i id
  | None => false
  end.

(** The entities reached from the entity [sourceId] over the edges: for
    each edge that leaves it, in the order of the edges, the first entity
    that has the identifier on the far end, if there is one. *)
Definition reachedTargets (st : Store) (sourceFieldSide : RelationFieldEdgeSide)
    (sourceId : string) (edges targets : list Value) : list Value :=
  List.flat_map
    (fun edge =>
       match stringProperty st edge (endOfEdge sourceFieldSide),
             stringProperty st edge (endOfEdge (invertRelationFieldEdgeSide sourceFieldSide)) with
       | Some near, Some far =>
           if String.eqb near sourceId then
             match List.find (hasId st far) targets with
             | Some target => [target]
             | None => []
             end
           else []
       | _, _ => []
       end)
    edges.

(** Does the edge leave the entity [sourceId] on the given side? *)
Definition leaves (st : Store) (side : RelationFieldEdgeSide) (sourceId : string)
    (edge : Value) : bool :=
  match stringProperty st edge (endOfEdge side) with
  | Some near => String.eqb near sourceId
  | None => false
  end.

(** The entity at the far end of an edge, [undefined] if there is none. *)
Definition farEnd (st : Store) (side : RelationFieldEdgeSide) (targets : list Value)
    (edge : Value) : Value :=
  match stringProperty st edge (endOfEdge (invertRelationFieldEdgeSide side)) with
  | Some far =>
      match List.find (hasId st far) targets with
      | Some target => target
      | None => VUndefined
      end
  | None => VUndefined
  end.

End Graph.

(* ===================================================================== *)
(** * The EntityFromId processor and what Object.assign merges *)
(* ===================================================================== *)

Module Processors.
Import QueryTree JS Semantics Generator Graph.

Section WithExternals.
Context `{Externals}.

(** The EntityFromId processor.  The class of the node is not among the
    node classes of [QueryNode]; the processor is given by the node's two
    fields.  [fresh] is the identity the [new VariableQueryNode(...)]
    gets. *)
Definition processEntityFromId (objectType : GraphQLObjectType) (idNode : QueryNode)
    (fresh : nat) (context : QueryContext) : Gen JSExpr :=
  let itemVariable := mkVar (decapitalize (typeName objectType)) fresh in
  processNode
    (FirstOfListQueryNode
       (newTransformList (EntitiesQueryNode objectType) itemVariable
          (BinaryOperationQueryNode (RootEntityIDQueryNode (VariableQueryNode itemVariable))
             EQUAL idNode)))
    context.

End WithExternals.

(** Is the string identifier of the entity strictly equal to the value? *)
Definition idEquals (st : Store) (wanted : Value) (entity : Value) : bool :=
  match stringProperty st entity "id" with
  | Some i =>
      match strictEq (VString i) wanted with
      | Some b => b
      | None => false
      end
  | None => false
  end.

(** What [Object.assign] makes of a target's properties, given the sources:
    the properties of every source that is an object are assigned in turn;
    [null], [undefined] and numbers and booleans contribute nothing. *)
Definition mergedProperties (objects : list (list (string * Value))) (sources : list Value)
    (target : list (string * Value)) : list (string * Value) :=
  List.fold_left
    (fun acc source =>
       match source with
       | VRef address =>
           match objects !! address with
           | Some object => assignProperties acc object
           | None => acc
           end
       | _ => acc
       end)
    sources target.

(** A source [Object.assign] can take here: a stored object other than the
    target, or a value without properties. *)
Definition isSource (objects : list (list (string * Value))) (target : nat) (source : Value)
  : bool :=
  match source with
  | VRef address =>
      negb (Nat.eqb address target)
      && match objects !! address with Some _ => true | None => false end
  | VUndefined | VNull | VBool _ | VNumber _ => true
  | VString _ | VList _ => false
  end.

End Processors.

(* ===================================================================== *)
(** * The processors of the mutations (js-generator.ts) *)
(* ===================================================================== *)

Module Mutations.
Import QueryTree JS Semantics Generator Graph.

(** The code of the processors for DeleteEntities, AddEdges, RemoveEdges and
    SetEdge.  Their templates assign to a collection, push several values at
    once and use a [Set], which [JSExpr] has no forms for; there is one
    constructor per template, holding the pieces the processor splices in. *)
Inductive JSMutation : Type :=
  | MDeleteEntities (listVar idsVar entityVar : JSVariable) (collection : string)
      (list : JSExpr)
      (* (function() { const listVar = list
                       const idsVar = new Set(listVar.map(entityVar => (entityVar.id)));
                       coll = coll.filter(entityVar => (!idsVar.has(entityVar.id)));
                       return listVar; })() *)
  | MAddEdges (collection : string) (edges : list (JSExpr * JSExpr))
      (* (function() { coll.push({ _from: a, _to: b }, ...); })() *)
  | MRemoveEdges (collection : string) (edgeVar : JSVariable) (criteria : list JSExpr)
      (* (function() { coll = coll.filter(edgeVar => (!(c1 && c2))); })() *)
  | MSetEdge (collection : string) (edgeVar : JSVariable) (criteria : list JSExpr)
      (newFrom newTo : JSExpr).
      (* (function() { coll = coll.filter(edgeVar => (!(c1 && c2)));
                       coll.push({ _from: a, _to: b }); })() *)

(** [compact]: what is left of a list once the [undefined] entries are
    taken out. *)
Definition compact {A : Type} (l : list (option A)) : list A :=
  List.flat_map (fun x => match x with Some a => [a] | None => [] end) l.

Section WithExternals.
Context `{Externals}.

(** The DeleteEntities processor, by the fields of the node. *)
Definition processDeleteEntities (objectType : GraphQLObjectType) (listNode : QueryNode)
    (currentEntityVariable : VarId) (context : QueryContext) : Gen JSMutation :=
  newContext <- introduceVariable context currentEntityVariable ;;
  entityVar <- getJSVariable newContext currentEntityVariable ;;
  listVar <- newJSVariable "objectsToDelete" ;;
  let coll := getCollectionNameForRootEntity objectType in
  idsVar <- newJSVariable "ids" ;;
  list <- processNode listNode context ;;
  ret (MDeleteEntities listVar idsVar entityVar coll list).

(** The identifiers of the edges to add, edge by edge. *)
Fixpoint processEdges (context : QueryContext) (edges : list (QueryNode * QueryNode))
    : Gen (list (JSExpr * JSExpr)) :=
  match edges with
  | [] => ret []
  | (fromIDNode, toIDNode) :: rest =>
      fromID <- processNode fromIDNode context ;;
      toID <- processNode toIDNode context ;;
      restCodes <- processEdges context rest ;;
      ret ((fromID, toID) :: restCodes)
  end.

(** The AddEdges processor; an edge is given by its [fromIDNode] and
    [toIDNode]. *)
Definition processAddEdges (edgeType : EdgeType) (edges : list (QueryNode * QueryNode))
    (context : QueryContext) : Gen JSMutation :=
  let coll := getCollectionNameForEdge edgeType in
  edgeCodes <- processEdges context edges ;;
  ret (MAddEdges coll edgeCodes).

(** The identifiers of an edge filter for one end, when it names any: the
    joined fragment the processor tests is an object, so that a list of
    identifiers counts as given even when it is empty. *)
Definition processOptionalItems (context : QueryContext) (idNodes : option (list QueryNode))
    : Gen (option (list JSExpr)) :=
  match idNodes with
  | Some nodes => ids <- processItems context nodes ;; ret (Some ids)
  | None => ret None
  end.

(** The identifier of an existing edge on one end, when it is given. *)
Definition processOptional (context : QueryContext) (idNode : option QueryNode)
    : Gen (option JSExpr) :=
  match idNode with
  | Some node => id <- processNode node context ;; ret (Some id)
  | None => ret None
  end.

(** [edge.end == id] *)
Definition endEquals (edgeVar : JSVariable) (edgeEnd : string) (id : JSExpr) : JSExpr :=
  EBinary OpLooseEq (EMember (EVar edgeVar) edgeEnd) id.

(** [[ids].includes(edge.end)] *)
Definition endIncluded (edgeVar : JSVariable) (edgeEnd : string) (ids : list JSExpr)
    : JSExpr :=
  EIncludes (EArray ids) (EMember (EVar edgeVar) edgeEnd).

(** The RemoveEdges processor; the edge filter is given by its
    [fromIDNodes] and [toIDNodes]. *)
Definition processRemoveEdges (edgeType : EdgeType)
    (fromIDNodes toIDNodes : option (list QueryNode)) (context : QueryContext)
    : Gen JSMutation :=
  let coll := getCollectionNameForEdge edgeType in
  edgeVar <- newJSVariable "edge" ;;
  fromIDs <- processOptionalItems context fromIDNodes ;;
  toIDs <- processOptionalItems context toIDNodes ;;
  let edgeRemovalCriteria :=
    compact [option_map (endIncluded edgeVar "_from") fromIDs;
             option_map (endIncluded edgeVar "_to") toIDs] in
  ret (MRemoveEdges coll edgeVar edgeRemovalCriteria).

(** The SetEdge processor; the existing edge is given by its [fromIDNode]
    and [toIDNode], either of which may be missing, the new edge by both. *)
Definition processSetEdge (edgeType : EdgeType) (existingFrom existingTo : option QueryNode)
    (newFrom newTo : QueryNode) (context : QueryContext) : Gen JSMutation :=
  let coll := getCollectionNameForEdge edgeType in
  edgeVar <- newJSVariable "edge" ;;
  existingFromID <- processOptional context existingFrom ;;
  existingToID <- processOptional context existingTo ;;
  let edgeRemovalCriteria :=
    compact [option_map (endEquals edgeVar "_from") existingFromID;
             option_map (endEquals edgeVar "_to") existingToID] in
  fromID <- processNode newFrom context ;;
  toID <- processNode newTo context ;;
  ret (MSetEdge coll edgeVar edgeRemovalCriteria fromID toID).

End WithExternals.

(** [!(c1 && c2 && ...)], the criteria joined by [&&]; with no criterion the
    text is [!()], which is not an expression. *)
Definition edgeShouldStay (criteria : list JSExpr) : option JSExpr :=
  match criteria with
  | [] => None
  | c :: cs => Some (ENot (List.fold_left (EBinary OpAnd) cs c))
  end.

(** [{ _from: a, _to: b }] *)
Definition edgeLiteral (ends : JSExpr * JSExpr) : JSExpr :=
  EObject [(KCode "_from", fst ends); (KCode "_to", snd ends)].

(** Reading a collection to call a method of it; a collection that does not
    exist is [undefined]. *)
Definition readCollection (collection : string) : Eval (list Value) :=
  fun st =>
    match collections st !! collection with
    | Some items => Ok (items, st)
    | None => Throw TypeError
    end.

(** [coll = items] *)
Definition writeCollection (collection : string) (items : list Value) : Eval unit :=
  fun st => Ok (tt, mkStore (heap st) (<[collection := items]> (collections st)) (nextID st)).

(** [coll.push(v1, v2, ...)], the values already evaluated. *)
Definition pushAll (collection : string) (values : list Value) : Eval unit :=
  fun st =>
    Ok (tt, mkStore (heap st)
              (<[collection := default [] (collections st !! collection) ++ values]>
                 (collections st))
              (nextID st)).

Section Evaluation.
Context `{Runtime}.

(** [coll = coll.filter(x => (keep))] *)
Definition filterCollection (collection : string) (x : JSVariable) (keep : JSExpr)
    (env : Env) : Eval unit :=
  entities <- readCollection collection ;;
  kept <- filterM (fun entity => eval keep (bindVar x entity env)) entities ;;
  writeCollection collection kept.

(** The identifiers named for one end evaluate to the values, leaving the
    store as it is, if any are named. *)
Definition allEvaluateTo (env : Env) (st : Store) (codes : option (list JSExpr))
    (values : option (list Value)) : Prop :=
  match codes, values with
  | Some cs, Some vs => evalAll env cs st = Ok (vs, st)
  | None, None => True
  | _, _ => False
  end.

(** The identifier given for one end evaluates to the string, leaving the
    store as it is, if one is given. *)
Definition evaluatesToString (env : Env) (st : Store) (code : option JSExpr)
    (value : option string) : Prop :=
  match code, value with
  | Some c, Some s => eval c env st = Ok (VString s, st)
  | None, None => True
  | _, _ => False
  end.

(** What the code of a mutation does and evaluates to. *)
Definition evalMutation (m : JSMutation) (env : Env) : Eval Value :=
  match m with
  | MDeleteEntities listVar idsVar entityVar collection list =>
      v <- eval list env ;;
      items <- asList v ;;
      ids <- mapM (fun entity => getMember entity ID_FIELD_NAME) items ;;
      entities <- readCollection collection ;;
      kept <- filterM (fun entity =>
                         id <- getMember entity ID_FIELD_NAME ;;
                         found <- liftResult (listIncludes id ids) ;;
                         ret (VBool (negb found))) entities ;;
      _ <- writeCollection collection kept ;;
      ret v
  | MAddEdges collection edges =>
      _ <- readCollection collection ;;
      values <- evalAll env (List.map edgeLiteral edges) ;;
      _ <- pushAll collection values ;;
      ret VUndefined
  | MRemoveEdges collection edgeVar criteria =>
      match edgeShouldStay criteria with
      | None => fail SyntaxError
      | Some keep =>
          _ <- filterCollection collection edgeVar keep env ;;
          ret VUndefined
      end
  | MSetEdge collection edgeVar criteria newFrom newTo =>
      match edgeShouldStay criteria with
      | None => fail SyntaxError
      | Some keep =>
          _ <- filterCollection collection edgeVar keep env ;;
          _ <- readCollection collection ;;
          edge <- eval (edgeLiteral (newFrom, newTo)) env ;;
          _ <- pushAll collection [edge] ;;
          ret VUndefined
      end
  end.

End Evaluation.

(** The object [{ _from: a, _to: b }] evaluates to. *)
Definition edgeObject (ends : Value * Value) : list (string * Value) :=
  [("_from", fst ends); ("_to", snd ends)].

Definition isString (s : string) (v : Value) : bool :=
  match v with
  | VString t => String.eqb t s
  | _ => false
  end.

(** Is the identifier on one end of the edge among the values, when the
    filter names any for that end? *)
Definition endIsAmong (st : Store) (edgeEnd : string) (ids : option (list Value))
    (edge : Value) : bool :=
  match ids with
  | None => true
  | Some values =>
      match stringProperty st edge edgeEnd with
      | Some s => existsb (isString s) values
      | None => false
      end
  end.

(** Is the identifier on one end of the edge the given one, when one is
    given for that end? *)
Definition endIs (st : Store) (edgeEnd : string) (id : option string) (edge : Value) : bool :=
  match id with
  | None => true
  | Some i =>
      match stringProperty st edge edgeEnd with
      | Some s => String.eqb s i
      | None => false
      end
  end.

(** The value of the [id] property of a stored entity. *)
Definition idValue (st : Store) (entity : Value) : Value :=
  match stringProperty st entity "id" with
  | Some id => VString id
  | None => VUndefined
  end.

(** Is the identifier of the entity that of one of the items? *)
Definition idAmong (st : Store) (items : list Value) (entity : Value) : bool :=
  match stringProperty st entity "id" with
  | Some id => existsb (hasId st id) items
  | None => false
  end.

End Mutations.

(* ===================================================================== *)
(** * The fields a selection set selects (resolveSelections) *)
(* ===================================================================== *)

Module Selections.
Local Open Scope nat_scope.

(** What a walk over a selection set throws: an [Error] with its message
    (or what graphql-js throws while it reads the arguments of a
    directive), or, in the model only, that the fuel was used up. *)
Inductive WalkError : Type :=
  | OutOfFuel
  | Thrown (message : string).

(** [DirectiveNode]; the arguments are graphql-js data the functions hand
    on unread. *)
Record DirectiveNode (ArgumentNodes : Type) : Type := mkDirective {
  directiveName : string;                (* name.value *)
  directiveArguments : ArgumentNodes
}.
Arguments mkDirective {ArgumentNodes}.
Arguments directiveName {ArgumentNodes}.
Arguments directiveArguments {ArgumentNodes}.

(** What the functions import from graphql-js. *)
Class GraphQLJS (ArgumentNodes VariableValues : Type) : Type := {
  (** [GraphQLSkipDirective.name] and [GraphQLIncludeDirective.name] *)
  GraphQLSkipDirective : string;
  GraphQLIncludeDirective : string;
  (** The [if] member of what [getArgumentValues(def, node, variableValues)]
      returns for the directive definition of the given name: [Some b] for
      the boolean [b], [None] for anything else; or what it throws. *)
  getArgumentValues :
    string → DirectiveNode ArgumentNodes → VariableValues → Result string (option bool)
}.

Section WithGraphQL.

(** The parts of a field node other than its directives and the variables
    of the request are handed on unread as well. *)
Context {ArgumentNodes FieldNode VariableValues : Type}.
Context `{GraphQLJS ArgumentNodes VariableValues}.

(** [SelectionNode]: a [FieldNode], an [InlineFragmentNode] or a
    [FragmentSpreadNode]. *)
Inductive Selection : Type :=
  | Field (directives : option (list (DirectiveNode ArgumentNodes))) (field : FieldNode)
  | InlineFragment (directives : option (list (DirectiveNode ArgumentNodes)))
      (selectionSet : list Selection)
  | FragmentSpread (directives : option (list (DirectiveNode ArgumentNodes)))
      (name : string).

Definition directivesOf (selection : Selection)
    : option (list (DirectiveNode ArgumentNodes)) :=
  match selection with
  | Field directives _ => directives
  | InlineFragment directives _ => directives
  | FragmentSpread directives _ => directives
  end.

(** [shouldIncludeNode] *)
Definition shouldIncludeNode (directives : list (DirectiveNode ArgumentNodes))
    (variableValues : VariableValues) : Result string bool :=
  let afterSkip : Result string bool :=
    match List.find (fun d => String.eqb (directiveName d) GraphQLSkipDirective) directives with
    | Some skipNode =>
        match getArgumentValues GraphQLSkipDirective skipNode variableValues with
        | Throw e => Throw e
        | Ok skipIf =>
            match skipIf with
            | Some true => Ok false      (* skipIf === true *)
            | _ => Ok true
            end
        end
    | None => Ok true
    end in
  match afterSkip with
  | Throw e => Throw e
  | Ok false => Ok false
  | Ok true =>
      match List.find (fun d => String.eqb (directiveName d) GraphQLIncludeDirective)
              directives with
      | Some includeNode =>
          match getArgumentValues GraphQLIncludeDirective includeNode variableValues with
          | Throw e => Throw e
          | Ok includeIf =>
              match includeIf with
              | Some false => Ok false   (* includeIf === false *)
              | _ => Ok true
              end
          end
      | None => Ok true
      end
  end.

(** The parameter [context] of [resolveSelections]; a fragment is given by
    the selections of its selection set. *)
Record ResolveContext : Type := mkResolveContext {
  variableValues : VariableValues;
  fragments : gmap string (list Selection)
}.

(** What the closure [walk] shares between its calls: the set
    [visitedFragmentNames] and the array [nodes]. *)
Record WalkState : Type := mkWalkState {
  visitedFragmentNames : gset string;
  nodes : list Selection
}.

Definition Walk (A : Type) : Type := StateErr WalkError WalkState A.

(** [for (const x of items) { body }] *)
Definition forEach {A : Type} (body : A → Walk unit) : list A → Walk unit :=
  fix loop (items : list A) : Walk unit :=
    match items with
    | [] => ret tt
    | x :: rest => _ <- body x ;; loop rest
    end.

(** One turn of the loop of [walk]; [walk] is what the turn calls for the
    selection set of a fragment that is spread. *)
Fixpoint walkSelection (context : ResolveContext) (walk : list Selection → Walk unit)
    (selection : Selection) {struct selection} : Walk unit :=
  fun s =>
    match shouldIncludeNode (default [] (directivesOf selection)) (variableValues context) with
    | Throw e => Throw (Thrown e)
    | Ok false => Ok (tt, s)                                         (* continue *)
    | Ok true =>
        match selection with
        | Field _ _ =>
            Ok (tt, mkWalkState (visitedFragmentNames s) (nodes s ++ [selection]))
        | InlineFragment _ selectionSet =>
            forEach (walkSelection context walk) selectionSet s
        | FragmentSpread _ fragmentName =>
            if decide (fragmentName ∈ visitedFragmentNames s) then Ok (tt, s)   (* continue *)
            else
              let s' := mkWalkState ({[fragmentName]} ∪ visitedFragmentNames s) (nodes s) in
              match fragments context !! fragmentName with
              | None =>
                  Throw (Thrown ("Fragment " +:+ fragmentName
                                 +:+ " was queried but not defined"))
              | Some fragment => walk fragment s'
              end
        end
    end.

(** [walk], with the depth to which fragments may be spread inside one
    another as fuel. *)
Fixpoint walk (fuel : nat) (context : ResolveContext) (selections : list Selection)
    : Walk unit :=
  match fuel with
  | O => throw OutOfFuel
  | S fuel' => forEach (walkSelection context (walk fuel' context)) selections
  end.

(** [resolveSelections] *)
Definition resolveSelections (fuel : nat) (selectionSet : list Selection)
    (context : ResolveContext) : Result WalkError (list Selection) :=
  match walk fuel context selectionSet (mkWalkState ∅ []) with
  | Ok (_, s) => Ok (nodes s)
  | Throw e => Throw e
  end.

(** A field node that [shouldIncludeNode] lets through. *)
Definition isIncludedField (context : ResolveContext) (selection : Selection) : Prop :=
  match selection with
  | Field directives _ =>
      shouldIncludeNode (default [] directives) (variableValues context) = Ok true
  | _ => False
  end.

(** The number of fragments that are defined and have not been visited. *)
Definition remaining (context : ResolveContext) (s : WalkState) : nat :=
  size (dom (fragments context) ∖ visitedFragmentNames s).

(** What a walk leaves of the state it starts from: the visited names and
    the nodes found so far stay, and what is added to the nodes are
    included fields. *)
Definition extends (context : ResolveContext) (s s' : WalkState) : Prop :=
  visitedFragmentNames s ⊆ visitedFragmentNames s'
  ∧ ∃ more, nodes s' = nodes s ++ more ∧ Forall (isIncludedField context) more.

(** Two ways to go on agree, and end well, from the states that have fewer
    than [n] defined fragments left to visit. *)
Definition agreeBelow {A : Type} (context : ResolveContext) (n : nat)
    (m1 m2 : A → Walk unit) : Prop :=
  ∀ (a : A) (s : WalkState), remaining context s < n →
    m1 a s = m2 a s
    ∧ m1 a s ≠ Throw OutOfFuel
    ∧ ∀ u s', m1 a s = Ok (u, s') → extends context s s'.

End WithGraphQL.

Arguments Selection : clear implicits.
Arguments ResolveContext : clear implicits.
Arguments WalkState : clear implicits.

End Selections.

(* ===================================================================== *)
(** * Data paths of the sidecar validator (sidecar-schema.ts) *)
(* ===================================================================== *)

Module SidecarPaths.
Local Open Scope nat_scope.

(** A string, character by character. *)
Definition Text : Type := list ascii.

(** A word character of a regex: a letter, a digit or an underscore. *)
Definition isWordChar (c : ascii) : bool :=
  let n := nat_of_ascii c in
  (48 <=? n) && (n <=? 57) || (65 <=? n) && (n <=? 90)
  || (97 <=? n) && (n <=? 122) || (n =? 95).

(** The longest prefix of characters of a class: what a greedy [c*] takes. *)
Fixpoint longest (class : ascii → bool) (s : Text) : Text :=
  match s with
  | c :: rest => if class c then c :: longest class rest else []
  | [] => []
  end.

(** [s.replace(regex, replacer)] for a global [regex] that matches no empty
    string: the matches are taken from left to right, each where the one
    before ended.  [matchAt s] tells whether the regex matches where [s]
    starts, and then what the replacer returns and how many characters the
    match takes; [skip] counts the characters of a match still to pass. *)
Fixpoint replaceAll (matchAt : Text → option (Text * nat)) (skip : nat) (s : Text) : Text :=
  match s with
  | [] => []
  | c :: rest =>
      match skip with
      | S skip' => replaceAll matchAt skip' rest
      | O =>
          match matchAt s with
          | Some (replacement, taken) => replacement ++ replaceAll matchAt (pred taken) rest
          | None => c :: replaceAll matchAt 0 rest
          end
      end
  end.

(** The first regex: a dot and, as the group [name], one or more word
    characters; a match becomes a slash and the name. *)
Definition matchDotName (s : Text) : option (Text * nat) :=
  match s with
  | "."%char :: rest =>
      match longest isWordChar rest with
      | [] => None
      | name => Some ("/"%char :: name, S (length name))
      end
  | _ => None
  end.

(** The second regex: an opening bracket and a quote, as the group [name]
    any characters other than a quote, then a quote and a closing bracket; a
    match becomes a slash and the name. *)
Definition matchQuotedName (s : Text) : option (Text * nat) :=
  match s with
  | "["%char :: "'"%char :: rest =>
      let name := longest (fun c => negb (Ascii.eqb c "'"%char)) rest in
      match drop (length name) rest with
      | "'"%char :: "]"%char :: _ => Some ("/"%char :: name, 4 + length name)
      | _ => None
      end
  | _ => None
  end.

(** What the replacer makes of a group that is repeated: the group holds
    the last character it matched, and [undefined] if it matched none. *)
Definition lastOrUndefined (body : Text) : Text :=
  match last body with
  | Some c => [c]
  | None => String.list_ascii_of_string "undefined"
  end.

(** The third regex: an opening bracket, any number of times the group
    [name], which is one character other than a closing bracket, and a
    closing bracket; a match becomes a slash and the group. *)
Definition matchBracket (s : Text) : option (Text * nat) :=
  match s with
  | "["%char :: rest =>
      let body := longest (fun c => negb (Ascii.eqb c "]"%char)) rest in
      match drop (length body) rest with
      | "]"%char :: _ => Some ("/"%char :: lastOrUndefined body, 2 + length body)
      | _ => None
      end
  | _ => None
  end.

(** [reformatPath] *)
Definition reformatPath (path : Text) : Text :=
  replaceAll matchBracket 0
    (replaceAll matchQuotedName 0
       (replaceAll matchDotName 0 path)).

(** The steps of a data path as the validator writes them: [.name],
    [['name']] and [[index]]. *)
Inductive Step : Type :=
  | Dot (name : Text)
  | Quoted (name : Text)
  | Index (digits : Text).

Definition isDigit (c : ascii) : bool :=
  let n := nat_of_ascii c in (48 <=? n) && (n <=? 57).

(** A name after a dot is a word; a quoted name has no quote, dot or opening
    bracket in it; an index is written in digits. *)
Definition wellFormed (step : Step) : bool :=
  match step with
  | Dot name => negb (bool_decide (name = [])) && forallb isWordChar name
  | Quoted name =>
      forallb (fun c => negb (Ascii.eqb c "'"%char) && negb (Ascii.eqb c "."%char)
                        && negb (Ascii.eqb c "["%char)) name
  | Index digits => forallb isDigit digits
  end.

Definition render (step : Step) : Text :=
  match step with
  | Dot name => "."%char :: name
  | Quoted name => "["%char :: "'"%char :: name ++ ["'"%char; "]"%char]
  | Index digits => "["%char :: digits ++ ["]"%char]
  end.

(** What [reformatPath] makes of a step. *)
Definition reformatted (step : Step) : Text :=
  match step with
  | Dot name => "/"%char :: name
  | Quoted name => "/"%char :: name
  | Index digits => "/"%char :: lastOrUndefined digits
  end.

(** The step as a JSON pointer has it. *)
Definition pointer (step : Step) : Text :=
  match step with
  | Dot name => "/"%char :: name
  | Quoted name => "/"%char :: name
  | Index digits => "/"%char :: digits
  end.

(** A step after the first and after the second replacement. *)
Definition afterDots (step : Step) : Text :=
  match step with
  | Dot name => "/"%char :: name
  | _ => render step
  end.

Definition afterQuotes (step : Step) : Text :=
  match step with
  | Dot name | Quoted name => "/"%char :: name
  | Index _ => render step
  end.

(** Is the index written with one digit? *)
Definition hasShortIndex (step : Step) : bool :=
  match step with
  | Index digits => length digits =? 1
  | _ => true
  end.

(** Does the index have a digit at all? *)
Definition hasIndexDigit (step : Step) : bool :=
  match step with
  | Index digits => negb (length digits =? 0)
  | _ => true
  end.

End SidecarPaths.

(* ===================================================================== *)
(** * More sample data *)
(* ===================================================================== *)

Module GraphSamples.
Import ErrorPass QueryTree Authorization JS Semantics Generator Samples Graph Selections.
Import SidecarPaths.

(** A list of all [Hero] entities, each mapped to an authorization error. *)
Definition innerErrorTree : JSVal :=
  transformListNode (variableNode "item") (entitiesNode "Hero")
    (newRuntimeError "Not authorized") (JObject (OtherQueryNode "ConstBoolQueryNode")
                                          [("value", JPrim (PBool true))]).

(** Two heroes, two missions, and who is on which mission. *)
Definition graphStore : Store :=
  mkStore
    [[("id", VString "h1"); ("name", VString "Flash")];
     [("id", VString "h2"); ("name", VString "Atom")];
     [("id", VString "m1"); ("title", VString "Rescue"); ("accessGroup", VString "agent")];
     [("id", VString "m2"); ("title", VString "Recon"); ("accessGroup", VString "chief")];
     [("_from", VString "h1"); ("_to", VString "m1")];
     [("_from", VString "h2"); ("_to", VString "m1")];
     [("_from", VString "h1"); ("_to", VString "m2")]]
    {[ "heros" := [VRef 0; VRef 1];
       "missions" := [VRef 2; VRef 3];
       "heros_missions" := [VRef 4; VRef 5; VRef 6] ]}
    100.

(** The first hero of the collection. *)
Definition firstHero : QueryNode := FirstOfListQueryNode (EntitiesQueryNode Hero).

Definition literalId (id : string) : QueryNode := LiteralQueryNode (JString id).

(** Is the item in the access group [agent]? *)
Definition isForAgents (item : Value) : bool :=
  match stringProperty graphStore item "accessGroup" with
  | Some group => String.eqb group "agent"
  | None => false
  end.

(** Directives whose [if] argument is a literal, fields by their names, and
    no variables. *)
Global Instance sampleGraphQLJS : GraphQLJS (option bool) unit := {|
  GraphQLSkipDirective := "skip";
  GraphQLIncludeDirective := "include";
  getArgumentValues := fun _ directive _ => Ok (directiveArguments directive)
|}.

(** Two fragments that spread each other. *)
Definition sampleResolveContext : ResolveContext (option bool) string unit :=
  mkResolveContext tt
    {[ "A" := [Field None "a"; FragmentSpread None "B"];
       "B" := [Field None "b"; FragmentSpread None "A"] ]}.

Definition sampleSelectionSet : list (Selection (option bool) string) :=
  [Field None "x";
   FragmentSpread None "A";
   Field (Some [mkDirective "skip" (Some true)]) "hidden";
   InlineFragment (Some [mkDirective "include" (Some true)]) [Field None "y"]].

(** The data path [.permissionProfiles['my-profile'].permissions[0].roles[12]]. *)
Definition sampleDataPath : list Step :=
  [Dot (String.list_ascii_of_string "permissionProfiles");
   Quoted (String.list_ascii_of_string "my-profile");
   Dot (String.list_ascii_of_string "permissions");
   Index (String.list_ascii_of_string "0");
   Dot (String.list_ascii_of_string "roles");
   Index (String.list_ascii_of_string "12")].

End GraphSamples.

(* ===================================================================== *)
(** * Facts about the error-propagation pass *)
(* ===================================================================== *)

Module ErrorPassFacts.
Import ErrorPass.

Section JSVal_induction.
Variable P : JSVal → Prop.
Hypothesis Hprim : ∀ p, P (JPrim p).
Hypothesis Harr : ∀ items, P (JArray items).
Hypothesis Hobj : ∀ c fields,
  Forall (λ kv, slotAll P (snd kv)) fields → P (JObject c fields).

Lemma JSVal_nested_ind : ∀ v, P v.
Proof using Hprim Harr Hobj.
  fix IH 1. intros [p|items|c fields].
  - apply Hprim.
  - apply Harr.
  - apply Hobj. induction fields as [|[k w] fs IHfs]; constructor; [|exact IHfs].
    pose proof (IH w) as Hw. simpl. destruct w as [p|items|c' f']; simpl; try exact Hw.
    clear Hw. induction items as [|x xs IHxs]; constructor; [apply IH | exact IHxs].
Qed.
End JSVal_induction.

Lemma visitObject_unfold c fields key s :
  visitObject (JObject c fields) key s =
  match enter (JObject c fields) key s with
  | None => (JObject c fields, s)
  | Some s1 =>
      let '(fields', s2) := visitFields fields s1 in
      leave (JObject c fields') s2
  end.
Proof. reflexivity. Qed.

Lemma enter_object c fields key s :
  enter (JObject c fields) key s =
  if instanceofQueryNode c then
    Some (mkState
            (if instanceofRuntimeError c then errorList s ++ [JObject c fields] else errorList s)
            (mkFrame c (frameIsOutput (stack s) key) :: stack s))
  else None.
Proof.
  unfold enter, frameIsOutput. destruct (instanceofQueryNode c); simpl; [|done].
  by destruct (stack s).
Qed.

Lemma visitObject_skip v key s :
  isQueryNode v = false → visitObject v key s = (v, s).
Proof.
  destruct v as [p|items|c fields]; intros Hc; [done|done|].
  cbn [isQueryNode] in Hc. by rewrite visitObject_unfold, enter_object, Hc.
Qed.

Lemma errorsOf_skip v : isQueryNode v = false → errorsOf v = [].
Proof. destruct v as [p|items|c fields]; simpl; try done. by intros ->. Qed.

Lemma errorsOf_object c fields :
  errorsOf (JObject c fields) =
  if instanceofQueryNode c then
    (if instanceofRuntimeError c then [JObject c fields] else []) ++ errorsOfFields fields
  else [].
Proof.
  cbn [errorsOf]. by destruct (instanceofQueryNode c).
Qed.

(** *** The stack is restored by every visit *)

Lemma visitItems_stack items :
  Forall restoresStack items → ∀ k s, stack (snd (visitItems items k s)) = stack s.
Proof.
  induction 1 as [|x xs Hx _ IH]; intros k s; cbn [visitItems]; [done|].
  specialize (Hx k s). destruct (visitObject x k s) as [x' s'].
  specialize (IH k s'). destruct (visitItems xs k s') as [xs' s'']. simpl in *. congruence.
Qed.

Lemma visitObjectOrArray_stack w :
  slotAll restoresStack w → ∀ k s, stack (snd (visitObjectOrArray w k s)) = stack s.
Proof.
  destruct w as [p|items|c f]; cbn [slotAll visitObjectOrArray]; intros H k s; [done| |apply H].
  pose proof (visitItems_stack items H (Some k) s) as Hs.
  by destruct (visitItems items (Some k) s).
Qed.

Lemma visitFields_stack fields :
  Forall (λ kv, slotAll restoresStack (snd kv)) fields →
  ∀ s, stack (snd (visitFields fields s)) = stack s.
Proof.
  induction 1 as [|[k w] fs Hw _ IH]; intros s; cbn [visitFields]; [done|].
  pose proof (visitObjectOrArray_stack w Hw k s) as Hs.
  destruct (visitObjectOrArray w k s) as [w' s'].
  specialize (IH s'). destruct (visitFields fs s') as [fs' s'']. simpl in *. congruence.
Qed.

Lemma leave_stack node s frame rest :
  stack s = frame :: rest → stack (snd (leave node s)) = rest.
Proof. unfold leave. intros ->. by destruct (_ && _). Qed.

Lemma visitObject_stack v : restoresStack v.
Proof.
  induction v as [p|items|c fields IH] using JSVal_nested_ind; intros key s; try done.
  rewrite visitObject_unfold, enter_object.
  destruct (instanceofQueryNode c); [|done].
  match goal with |- context [visitFields fields ?s1] =>
    pose proof (visitFields_stack fields IH s1) as Hs;
    destruct (visitFields fields s1) as [fields' s2] end.
  simpl in Hs. eapply leave_stack. exact Hs.
Qed.

(** *** Visits at non-output positions *)

Lemma visitItems_nonoutput items :
  Forall untouchedBelow items →
  ∀ k el frame rest,
    isOutputNode frame && outputNodes.isOutputNode (clazz frame) k = false →
    visitItems items k (mkState el (frame :: rest)) =
    (items, mkState (el ++ errorsOfItems items) (frame :: rest)).
Proof.
  induction 1 as [|x xs Hx _ IH]; intros k el frame rest Hout;
    cbn [visitItems errorsOfItems].
  - by rewrite app_nil_r.
  - rewrite (Hx k el frame rest Hout), (IH k _ frame rest Hout). by rewrite app_assoc.
Qed.

Lemma visitFields_nonoutput fields c :
  Forall (λ kv, slotAll untouchedBelow (snd kv)) fields →
  ∀ el rest,
    visitFields fields (mkState el (mkFrame c false :: rest)) =
    (fields, mkState (el ++ errorsOfFields fields) (mkFrame c false :: rest)).
Proof.
  induction 1 as [|[k w] fs Hw _ IH]; intros el rest;
    cbn [visitFields visitObjectOrArray errorsOfFields errorsOfSlot].
  - by rewrite app_nil_r.
  - destruct w as [p|items|c' f']; cbn [slotAll snd] in Hw;
      cbn [visitObjectOrArray errorsOfSlot].
    + by rewrite IH.
    + rewrite (visitItems_nonoutput items Hw (Some k) el (mkFrame c false) rest eq_refl).
      rewrite IH. by rewrite app_assoc.
    + rewrite (Hw (Some k) el (mkFrame c false) rest eq_refl).
      rewrite IH. by rewrite app_assoc.
Qed.

Lemma visitObject_nonoutput v : untouchedBelow v.
Proof.
  induction v as [p|items|c fields IH] using JSVal_nested_ind;
    intros key el frame rest Hout; try (by rewrite app_nil_r).
  rewrite visitObject_unfold, enter_object, errorsOf_object.
  destruct (instanceofQueryNode c); [|by rewrite app_nil_r].
  cbn [frameIsOutput stack errorList]. rewrite Hout.
  rewrite (visitFields_nonoutput fields c IH). unfold leave. cbn.
  destruct (instanceofRuntimeError c); [|done]. by rewrite <- app_assoc.
Qed.


(** *** Visits at output positions *)

Lemma visitFields_restores fields s : stack (snd (visitFields fields s)) = stack s.
Proof.
  apply visitFields_stack, Forall_forall. intros [k w] _. cbn [snd].
  destruct w as [p|items|c f]; cbn [slotAll]; try apply visitObject_stack.
  apply Forall_forall. intros x _. apply visitObject_stack.
Qed.

Lemma visitObject_output_clears c fields key s :
  instanceofQueryNode c = true →
  frameIsOutput (stack s) key = true →
  snd (visitObject (JObject c fields) key s) = mkState [] (stack s).
Proof.
  intros Hq Hout. rewrite visitObject_unfold, enter_object, Hq, Hout.
  match goal with |- context [visitFields fields ?s1] =>
    pose proof (visitFields_restores fields s1) as Hs;
    destruct (visitFields fields s1) as [fields' s2] end.
  cbn [stack snd] in Hs. unfold leave. rewrite Hs. cbn [isOutputNode andb].
  destruct s2 as [el st]. cbn [errorList stack] in *. by destruct el.
Qed.

(** The pending list after the children of an output-position node. *)
Lemma visitItems_pending c k items : ∀ el rest,
  errorList (snd (visitItems items (Some k) (mkState el (mkFrame c true :: rest)))) =
  pendingAfterItems c k items el
  ∧ stack (snd (visitItems items (Some k) (mkState el (mkFrame c true :: rest)))) =
    mkFrame c true :: rest.
Proof.
  induction items as [|x xs IH]; intros el rest; cbn [visitItems pendingAfterItems]; [done|].
  assert (visitObject x (Some k) (mkState el (mkFrame c true :: rest)) =
          (fst (visitObject x (Some k) (mkState el (mkFrame c true :: rest))),
           mkState (pendingAfterChild c k x el) (mkFrame c true :: rest))) as ->.
  { unfold pendingAfterChild. destruct (isQueryNode x) eqn:Hq; cbn [andb].
    - destruct (outputNodes.isOutputNode c (Some k)) eqn:Ho.
      + destruct x as [p|l|c' f']; try done.
        pose proof (visitObject_output_clears c' f' (Some k)
                      (mkState el (mkFrame c true :: rest)) Hq) as Hc.
        cbn [frameIsOutput stack isOutputNode clazz andb] in Hc. specialize (Hc Ho).
        destruct (visitObject _ _ _) as [x' s']. cbn [fst snd] in *. by subst.
      + by rewrite visitObject_nonoutput.
    - rewrite visitObject_skip, errorsOf_skip, app_nil_r; done. }
  specialize (IH (pendingAfterChild c k x el) rest).
  by destruct (visitItems xs _ _).
Qed.

Lemma visitFields_pending c fields : ∀ el rest,
  errorList (snd (visitFields fields (mkState el (mkFrame c true :: rest)))) =
  pendingAfterFields c fields el.
Proof.
  induction fields as [|[k w] fs IH]; intros el rest;
    cbn [visitFields pendingAfterFields]; [done|].
  assert (snd (visitObjectOrArray w k (mkState el (mkFrame c true :: rest))) =
          mkState (pendingAfterSlot c k w el) (mkFrame c true :: rest)) as Hw.
  { destruct w as [p|items|c' f']; cbn [visitObjectOrArray pendingAfterSlot]; [done| |].
    - destruct (visitItems_pending c k items el rest) as [H1 H2].
      destruct (visitItems items _ _) as [items' [el' st']]. cbn in *. by subst.
    - pose proof (visitItems_pending c k [JObject c' f'] el rest) as [H1 H2].
      cbn [visitItems pendingAfterItems] in H1, H2.
      destruct (visitObject _ _ _) as [x' [el' st']]. cbn in *. by subst. }
  destruct (visitObjectOrArray w k _) as [w' s']. cbn [snd] in Hw. subst s'.
  specialize (IH (pendingAfterSlot c k w el) rest).
  by destruct (visitFields fs _).
Qed.

(** An output-position node that is left while the pass has errors pending
    is replaced by them. *)
Lemma visitObject_collapse c fields key s e rest :
  instanceofQueryNode c = true →
  frameIsOutput (stack s) key = true →
  pendingAfterFields c fields
    (if instanceofRuntimeError c then errorList s ++ [JObject c fields] else errorList s)
    = e :: rest →
  visitObject (JObject c fields) key s = (collapse (e :: rest), mkState [] (stack s)).
Proof.
  intros Hq Hout Hcol. rewrite visitObject_unfold, enter_object, Hq, Hout.
  match goal with |- context [visitFields fields ?s1] =>
    pose proof (visitFields_restores fields s1) as Hs;
    pose proof (visitFields_pending c fields (errorList s1) (stack s)) as Hp;
    destruct (visitFields fields s1) as [fields' s2] eqn:Hv end.
  cbn [errorList stack] in Hp. rewrite Hv in Hp. cbn [snd stack] in Hs, Hp.
  rewrite Hcol in Hp.
  unfold leave. rewrite Hs, Hp. done.
Qed.

(** C1 (amended).  A subtree visited at a non-output position (its parent's
    frame is not an output frame, or the slot is not an output slot of the
    parent's class) is returned unchanged, whatever it contains: a non-output
    position never triggers substitution.  Its RuntimeError nodes are appended,
    in depth-first order, to the pass's list of pending errors, and the stack
    is as before. *)
Theorem nonoutput_position_never_substitutes :
  ∀ (node : JSVal) (key : option string) (pending : list JSVal)
    (parentFrame : StackFrame) (rest : list StackFrame),
    isOutputNode parentFrame && outputNodes.isOutputNode (clazz parentFrame) key = false →
    visitObject node key (mkState pending (parentFrame :: rest)) =
    (node, mkState (pending ++ errorsOf node) (parentFrame :: rest)).
Proof. intros node. apply visitObject_nonoutput. Qed.

Lemma nonoutput_position_never_substitutes_witness :
  visitObject (newRuntimeError "Not authorized") (Some "filterNode")
    (mkState [] [mkFrame TransformListQueryNode true]) =
  (newRuntimeError "Not authorized",
   mkState [newRuntimeError "Not authorized"] [mkFrame TransformListQueryNode true]).
Proof.
  exact (nonoutput_position_never_substitutes (newRuntimeError "Not authorized")
           (Some "filterNode") [] (mkFrame TransformListQueryNode true) [] eq_refl).
Defined.

(** C1 as stated fails: the only RuntimeError of [filterErrorTree] is the
    filter predicate of the root TransformList, a non-output slot, and yet the
    pass replaces the TransformList, which is at an output position, by that
    error. *)
Lemma filter_error_replaces_enclosing_output_node :
  errorsOnlyThroughNonOutputSlots filterErrorTree = true
  ∧ moveErrorsToOutputNodes filterErrorTree = newRuntimeError "Not authorized"
  ∧ moveErrorsToOutputNodes filterErrorTree ≠ filterErrorTree.
Proof. split; [reflexivity|]. split; [reflexivity|]. vm_compute. discriminate. Qed.

(** Two errors under non-output slots of the root, with no output slot in
    between, are collapsed into one. *)
Lemma errors_without_an_output_sibling_collapse :
  moveErrorsToOutputNodes twoErrorsTree = newRuntimeError "first, second".
Proof. reflexivity. Qed.

(** C2 (the code departs from it).  The root of [siblingErrorsTree], an
    output boundary, has two RuntimeError descendants, [a] in its list
    operand and [b] in its filter predicate, neither at an output position.
    The pass does not replace the root by one error with the message
    [a, b]: when it leaves the inner node, an output slot visited between
    the two, it puts [a] there and forgets it, and the root is replaced by
    [b] alone.  With the error [a] only ([listErrorTree]) the root is not
    replaced at all: the error is put in the place of the inner node, a
    sibling of the operand it comes from. *)
Theorem sibling_errors_are_not_collapsed_together :
  errorsOf siblingErrorsTree = [newRuntimeError "a"; newRuntimeError "b"]
  ∧ errorsOnlyThroughNonOutputSlots siblingErrorsTree = true
  ∧ moveErrorsToOutputNodes siblingErrorsTree = newRuntimeError "b"
  ∧ moveErrorsToOutputNodes siblingErrorsTree ≠ newRuntimeError "a, b"
  ∧ errorsOf listErrorTree = [newRuntimeError "a"]
  ∧ moveErrorsToOutputNodes listErrorTree =
    transformListNode (variableNode "item") (newRuntimeError "a") (newRuntimeError "a")
      (JObject (OtherQueryNode "ConstBoolQueryNode") [("value", JPrim (PBool true))])
  ∧ moveErrorsToOutputNodes listErrorTree ≠ newRuntimeError "a".
Proof.
  repeat split; try reflexivity; vm_compute; discriminate.
Qed.

End ErrorPassFacts.

(* ===================================================================== *)
(** * Facts about the generated code *)
(* ===================================================================== *)

Module GeneratorFacts.
Import QueryTree JS Semantics Generator Reference Samples.

Section SemanticsFacts.
Context `{Runtime}.

Lemma eval_EFilter e x body env :
  eval (EFilter e x body) env =
  (v <- eval e env ;; items <- asList v ;;
   kept <- filterM (fun item => eval body (bindVar x item env)) items ;;
   ret (VList kept)).
Proof. reflexivity. Qed.

Lemma eval_EMap e x body env :
  eval (EMap e x body) env =
  (v <- eval e env ;; items <- asList v ;;
   mapped <- mapM (fun item => eval body (bindVar x item env)) items ;;
   ret (VList mapped)).
Proof. reflexivity. Qed.

Lemma eval_ESliceSort e x clauses env :
  eval (ESliceSort e x clauses) env =
  (v <- eval e env ;; items <- asList v ;;
   keys <- mapM (fun item => evalKeys (bindVar x item env) clauses) items ;;
   ret (VList (sortByKeys (List.map snd clauses) (List.combine items keys)))).
Proof. reflexivity. Qed.

Lemma eval_ESlice e count env :
  eval (ESlice e count) env =
  (v <- eval e env ;;
   match v with
   | VList items => ret (VList (slice0 count items))
   | VString text =>
       ret (VString (String.string_of_list_ascii
                       (slice0 count (String.list_ascii_of_string text))))
   | _ => fail TypeError
   end).
Proof. reflexivity. Qed.

Lemma lookupVar_bindVar x v env : lookupVar (bindVar x v env) x = Some v.
Proof. unfold bindVar. cbn. by rewrite Nat.eqb_refl. Qed.

Lemma filterM_accept_all (f : Value → Eval Value) items st :
  (∀ item st', ∃ v, f item st' = Ok (v, st') ∧ truthy v = true) →
  filterM f items st = Ok (items, st).
Proof.
  intros Hf. induction items as [|v vs IH]; [done|].
  cbn [filterM]. unfold bind, ret in *. destruct (Hf v st) as (b & -> & ->).
  by rewrite IH.
Qed.

Lemma mapM_pure {A} (f : Value → Eval A) (g : Value → A) items st :
  (∀ item st', f item st' = Ok (g item, st')) →
  mapM f items st = Ok (List.map g items, st).
Proof.
  intros Hf. induction items as [|v vs IH]; [done|].
  cbn [mapM]. unfold bind, ret in *. by rewrite Hf, IH.
Qed.

Lemma filterM_true x env items st :
  filterM (fun item => eval (EBool true) (bindVar x item env)) items st = Ok (items, st).
Proof. apply filterM_accept_all. intros item st'. by exists (VBool true). Qed.

Lemma mapM_var x env items st :
  mapM (fun item => eval (EVar x) (bindVar x item env)) items st = Ok (items, st).
Proof.
  rewrite (mapM_pure _ (fun v => v)); [by rewrite List.map_id|].
  intros item st'. cbn [eval]. by rewrite lookupVar_bindVar.
Qed.

Lemma mapM_nokeys x env items st :
  mapM (fun item => evalKeys (bindVar x item env) []) items st =
  Ok (List.map (fun _ => []) items, st).
Proof. by apply mapM_pure. Qed.

Lemma stableSort_ties {A} (cmp : A → A → Z) l :
  (∀ x y, cmp x y <= 0) → stableSort cmp l = l.
Proof.
  intros Hc. induction l as [|x l IH]; [done|].
  unfold stableSort in *. cbn [fold_right]. rewrite IH.
  destruct l as [|y l']; [done|]. cbn [insertSorted].
  destruct (Z.leb_spec (cmp x y) 0); [done|]. specialize (Hc x y). lia.
Qed.

Lemma sortByKeys_nokeys items :
  sortByKeys [] (List.combine items (List.map (fun _ => []) items)) = items.
Proof.
  unfold sortByKeys. rewrite stableSort_ties; [|by intros [? ?] [? ?]].
  induction items as [|v vs IH]; [done|]. cbn. by rewrite IH.
Qed.

End SemanticsFacts.

Section SortFacts.
Context `{Runtime}.
Context {A : Type} (cmp : A → A → Z).

Lemma insertSorted_perm x l : insertSorted cmp x l ≡ₚ x :: l.
Proof.
  induction l as [|y l IH]; [done|]. cbn [insertSorted].
  destruct (cmp x y <=? 0); [done|]. rewrite IH. apply Permutation_swap.
Qed.

Lemma stableSort_perm l : stableSort cmp l ≡ₚ l.
Proof.
  induction l as [|x l IH]; [done|]. unfold stableSort in *. cbn [fold_right].
  by rewrite insertSorted_perm, IH.
Qed.

Hypothesis ties_equiv : ∀ a x y, cmp a x = 0 → cmp a y = 0 → cmp x y = 0.

Lemma insertSorted_ties a x l :
  tiesWith cmp a (insertSorted cmp x l) = tiesWith cmp a (x :: l).
Proof using ties_equiv.
  induction l as [|y l IH]; [done|]. cbn [insertSorted].
  destruct (Z.leb_spec (cmp x y) 0) as [Hle|Hgt]; [done|].
  unfold tiesWith in *. cbn [List.filter] in *. rewrite IH.
  destruct (Z.eqb_spec (cmp a x) 0) as [Hx|Hx];
    destruct (Z.eqb_spec (cmp a y) 0) as [Hy|Hy]; try done.
  pose proof (ties_equiv a x y Hx Hy). lia.
Qed.

Lemma stableSort_stable a l : tiesWith cmp a (stableSort cmp l) = tiesWith cmp a l.
Proof using ties_equiv.
  induction l as [|x l IH]; [done|]. unfold stableSort in *. cbn [fold_right].
  rewrite insertSorted_ties. unfold tiesWith in *. cbn [List.filter]. by rewrite IH.
Qed.

Hypothesis cmp_total : ∀ x y, 0 < cmp x y → cmp y x <= 0.

Lemma insertSorted_sorted x l :
  Sorted (fun u v => cmp u v <= 0) l →
  Sorted (fun u v => cmp u v <= 0) (insertSorted cmp x l).
Proof using cmp_total.
  induction 1 as [|y l Hl IH Hhd]; cbn [insertSorted]; [by repeat constructor|].
  destruct (Z.leb_spec (cmp x y) 0) as [Hle|Hgt].
  - constructor; [by constructor|by constructor].
  - constructor; [done|].
    destruct l as [|z l']; cbn [insertSorted]; [constructor; by apply cmp_total|].
    inversion Hhd; subst.
    destruct (cmp x z <=? 0); constructor; [by apply cmp_total|done].
Qed.

Lemma stableSort_sorted l : Sorted (fun u v => cmp u v <= 0) (stableSort cmp l).
Proof using cmp_total.
  induction l as [|x l IH]; [constructor|]. unfold stableSort in *. cbn [fold_right].
  by apply insertSorted_sorted.
Qed.

End SortFacts.

Section KeyFacts.
Context `{Runtime}.
Lemma compareKeys_priority desc ds x a y b :
  compareKeys (desc :: ds) (x :: a) (y :: b) =
  if supportCompare x y =? 0 then compareKeys ds a b
  else if desc then - supportCompare x y else supportCompare x y.
Proof. reflexivity. Qed.
End KeyFacts.

Section TransformListFacts.
Context `{Externals} `{Runtime}.

Lemma processNode_TransformList listNode itemVariable filterNode orderBy maxCount innerNode context :
  processNode (TransformListQueryNode listNode itemVariable filterNode orderBy maxCount innerNode) context =
  (itemContext <- introduceVariable context itemVariable ;;
   itemVar <- getJSVariable itemContext itemVariable ;;
   comparator <- match orderBy with
                 | [] => ret None
                 | _ => args <- processClauses itemContext orderBy ;; ret (Some args)
                 end ;;
   list <- processNode listNode context ;;
   filtered <-
     (if match filterNode with ConstBoolQueryNode true => false | _ => true end
      then (pred <- processNode filterNode itemContext ;; ret (EFilter list itemVar pred))
      else ret list) ;;
   let sorted := match comparator with Some args => ESliceSort filtered itemVar args | None => filtered end in
   let capped := match maxCount with Some n => ESlice sorted n | None => sorted end in
   (if negb (isVariable innerNode itemVariable)
    then (inner <- processNode innerNode itemContext ;; ret (EMap capped itemVar inner))
    else ret capped)).
Proof. reflexivity. Qed.

Lemma evaluatesAs_filter e x body env st m st1 :
  evaluatesAs e env st m st1 →
  evaluatesAs (EFilter e x body) env st
    (l <- m ;; filterM (fun item => eval body (bindVar x item env)) l) st1.
Proof.
  unfold evaluatesAs. intros He. rewrite eval_EFilter. unfold bind, ret in *.
  rewrite He. by destruct (m st1) as [[l st2]|].
Qed.

Lemma evaluatesAs_nofilter e x env st m st1 :
  evaluatesAs e env st m st1 →
  evaluatesAs e env st
    (l <- m ;; filterM (fun item => eval (EBool true) (bindVar x item env)) l) st1.
Proof.
  unfold evaluatesAs. intros He. rewrite He. unfold bind, ret.
  destruct (m st1) as [[l st2]|]; [|done]. by rewrite filterM_true.
Qed.

Lemma evaluatesAs_sort e x clauses env st m st1 :
  evaluatesAs e env st m st1 →
  evaluatesAs (ESliceSort e x clauses) env st
    (l <- m ;;
     keys <- mapM (fun item => evalKeys (bindVar x item env) clauses) l ;;
     ret (sortByKeys (List.map snd clauses) (List.combine l keys))) st1.
Proof.
  unfold evaluatesAs. intros He. rewrite eval_ESliceSort. unfold bind, ret in *.
  rewrite He. destruct (m st1) as [[l st2]|]; [|done]. cbn.
  by destruct (mapM _ l st2) as [[keys st3]|].
Qed.

Lemma evaluatesAs_nosort e x env st m st1 :
  evaluatesAs e env st m st1 →
  evaluatesAs e env st
    (l <- m ;;
     keys <- mapM (fun item => evalKeys (bindVar x item env) []) l ;;
     ret (sortByKeys [] (List.combine l keys))) st1.
Proof.
  unfold evaluatesAs. intros He. rewrite He. unfold bind, ret.
  destruct (m st1) as [[l st2]|]; [|done]. rewrite mapM_nokeys.
  by rewrite sortByKeys_nokeys.
Qed.

Lemma evaluatesAs_slice e count env st m st1 :
  evaluatesAs e env st m st1 →
  evaluatesAs (ESlice e count) env st (l <- m ;; ret (slice0 count l)) st1.
Proof.
  unfold evaluatesAs. intros He. rewrite eval_ESlice. unfold bind, ret in *.
  rewrite He. by destruct (m st1) as [[l st2]|].
Qed.

Lemma evaluatesAs_map e x body env st m st1 :
  evaluatesAs e env st m st1 →
  evaluatesAs (EMap e x body) env st
    (l <- m ;; mapM (fun item => eval body (bindVar x item env)) l) st1.
Proof.
  unfold evaluatesAs. intros He. rewrite eval_EMap. unfold bind, ret in *.
  rewrite He. by destruct (m st1) as [[l st2]|].
Qed.

Lemma evaluatesAs_nomap e x env st m st1 :
  evaluatesAs e env st m st1 →
  evaluatesAs e env st
    (l <- m ;; mapM (fun item => eval (EVar x) (bindVar x item env)) l) st1.
Proof.
  unfold evaluatesAs. intros He. rewrite He. unfold bind, ret.
  destruct (m st1) as [[l st2]|]; [|done]. by rewrite mapM_var.
Qed.

(** C3.  A TransformList node whose parts compile compiles itself, and on
    every input list its code computes [transformList]: the filter, then
    the sort by the keys of the ordering clauses, then the cut to the first
    [maxCount] results when a cap is given, then the mapping through the
    result subtree, in this order.  With the default filter (the constant
    true), no ordering clause, no cap or the identity mapping (the item
    variable itself) the generator emits no code for the stage, and the
    result is still that of [transformList]: the stage is a no-op.  In the
    sort an earlier clause decides unless its keys tie, and items that tie
    on all clauses keep their order; the sorted list is a rearrangement of
    the list, and it is in order whenever the comparison is total. *)
Theorem transformList_stages :
  ∀ (listNode : QueryNode) (itemVariable : VarId) (filterNode : QueryNode)
    (orderBy : list (OrderClause QueryNode)) (maxCount : option Z) (innerNode : QueryNode)
    (context : QueryContext) (gs gsB gsC gsD gs' : GenState)
    (clauses : list (JSExpr * bool)) (listCode filterCode innerCode : JSExpr)
    (env : Env) (st st1 : Store) (items : list Value),
    let itemVar := mkJSVar (label itemVariable) (nextJSVar gs) false in
    let itemContext := mkContext (<[uid itemVariable := itemVar]> (variableMap context)) in
    variableMap context !! uid itemVariable = None →
    processClauses itemContext orderBy (mkGenState (S (nextJSVar gs)) (preExecQueries gs))
      = Ok (clauses, gsB) →
    processNode listNode context gsB = Ok (listCode, gsC) →
    processNode filterNode itemContext gsC = Ok (filterCode, gsD) →
    processNode innerNode itemContext gsD = Ok (innerCode, gs') →
    eval listCode env st = Ok (VList items, st1) →
    (∃ code : JSExpr,
       processNode
         (TransformListQueryNode listNode itemVariable filterNode orderBy maxCount innerNode)
         context gs = Ok (code, gs')
       ∧ eval code env st =
         transformList itemVar filterCode clauses maxCount innerCode env items st1)
    ∧ (∀ (desc : bool) (ds : list bool) (x y : Value) (a b : list Value),
         compareKeys (desc :: ds) (x :: a) (y :: b) =
         if supportCompare x y =? 0 then compareKeys ds a b
         else if desc then - supportCompare x y else supportCompare x y)
    ∧ (∀ (cmp : Value * list Value → Value * list Value → Z),
         (∀ a x y, cmp a x = 0 → cmp a y = 0 → cmp x y = 0) →
         ∀ a l, tiesWith cmp a (stableSort cmp l) = tiesWith cmp a l)
    ∧ (∀ (cmp : Value * list Value → Value * list Value → Z) l,
         stableSort cmp l ≡ₚ l
         ∧ ((∀ x y, 0 < cmp x y → cmp y x <= 0) →
            Sorted (fun u v => cmp u v <= 0) (stableSort cmp l))).
Proof.
  intros listNode itemVariable filterNode orderBy maxCount innerNode context
    gs gsB gsC gsD gs' clauses listCode filterCode innerCode env st st1 items
    itemVar itemContext Hfresh Hclauses Hlist Hfilter Hinner Heval.
  (* the stages, as the generator assembles them *)
  set (filtered :=
         if match filterNode with ConstBoolQueryNode true => false | _ => true end
         then EFilter listCode itemVar filterCode else listCode).
  set (sorted := match orderBy with [] => filtered | _ => ESliceSort filtered itemVar clauses end).
  set (capped := match maxCount with Some n => ESlice sorted n | None => sorted end).
  set (code := if negb (isVariable innerNode itemVariable)
               then EMap capped itemVar innerCode else capped).
  split; [|split; [reflexivity|split]];
    [|intros cmp Hties a l; by apply stableSort_stable
     |intros cmp l; split; [apply stableSort_perm|intros Htotal; by apply stableSort_sorted]].
  exists code. split.
  - rewrite processNode_TransformList.
    unfold bind at 1. unfold introduceVariable, bind at 1, newJSVariable.
    unfold newNestedContextWithNewVariable. rewrite Hfresh. unfold ret at 1.
    unfold bind at 1, getJSVariable. cbn [variableMap]. rewrite lookup_insert_eq.
    unfold ret at 1. fold itemVar itemContext.
    unfold bind at 1.
    assert (match orderBy with
            | [] => ret None
            | _ => args <- processClauses itemContext orderBy ;; ret (Some args)
            end (mkGenState (S (nextJSVar gs)) (preExecQueries gs))
            = Ok (match orderBy with [] => None | _ => Some clauses end, gsB)) as ->.
    { destruct orderBy; [by cbn in Hclauses; inversion Hclauses|].
      unfold bind. by rewrite Hclauses. }
    unfold bind at 1. rewrite Hlist.
    unfold bind at 1.
    assert ((if match filterNode with ConstBoolQueryNode true => false | _ => true end
             then (pred <- processNode filterNode itemContext ;;
                   ret (EFilter listCode itemVar pred))
             else ret listCode) gsC = Ok (filtered, gsD)) as ->.
    { subst filtered. destruct filterNode as [| | |[|]| | | | | | | | | | | | | | | | | | | | |];
        try (unfold bind; rewrite Hfilter; done).
      cbn in Hfilter. by inversion Hfilter. }
    cbn zeta.
    assert (match match orderBy with [] => None | _ => Some clauses end with
            | Some args => ESliceSort filtered itemVar args
            | None => filtered
            end = sorted) as -> by (by destruct orderBy).
    fold capped. subst code.
    destruct (isVariable innerNode itemVariable) eqn:Hvar; cbn [negb].
    + destruct innerNode; try discriminate Hvar. cbn in Hvar.
      apply Nat.eqb_eq in Hvar. cbn [processNode] in Hinner. unfold getVariable in Hinner.
      subst itemContext. cbn [variableMap] in Hinner. rewrite Hvar, lookup_insert_eq in Hinner.
      by inversion Hinner.
    + unfold bind. by rewrite Hinner.
  - assert (evaluatesAs listCode env st (ret items) st1) as Hs0 by exact Heval.
    assert (evaluatesAs filtered env st
              (l <- ret items ;;
               filterM (fun item => eval filterCode (bindVar itemVar item env)) l) st1) as Hs1.
    { subst filtered.
      destruct filterNode as [| | |[|]| | | | | | | | | | | | | | | | | | | | |];
        try (by apply evaluatesAs_filter).
      cbn in Hfilter. inversion Hfilter. by apply evaluatesAs_nofilter. }
    assert (evaluatesAs sorted env st
              (l <- (l <- ret items ;;
                     filterM (fun item => eval filterCode (bindVar itemVar item env)) l) ;;
               keys <- mapM (fun item => evalKeys (bindVar itemVar item env) clauses) l ;;
               ret (sortByKeys (List.map snd clauses) (List.combine l keys))) st1) as Hs2.
    { subst sorted. destruct orderBy; [|by apply evaluatesAs_sort].
      cbn in Hclauses. inversion Hclauses. by apply evaluatesAs_nosort. }
    clear Hs0 Hs1.
    unfold transformList. subst code capped.
    destruct (isVariable innerNode itemVariable) eqn:Hvar; cbn [negb].
    + destruct innerNode; try discriminate Hvar. cbn in Hvar.
      apply Nat.eqb_eq in Hvar. cbn [processNode] in Hinner. unfold getVariable in Hinner.
      subst itemContext. cbn [variableMap] in Hinner. rewrite Hvar, lookup_insert_eq in Hinner.
      inversion Hinner; subst.
      destruct maxCount as [n|].
      * pose proof (evaluatesAs_nomap _ itemVar _ _ _ _ (evaluatesAs_slice _ n _ _ _ _ Hs2)) as Hs4.
        unfold evaluatesAs in Hs4. rewrite Hs4. unfold bind, ret.
        destruct (filterM _ items st1) as [[kept st2]|]; [|done].
        by destruct (mapM _ kept st2) as [[keys st3]|].
      * pose proof (evaluatesAs_nomap _ itemVar _ _ _ _ Hs2) as Hs4.
        unfold evaluatesAs in Hs4. rewrite Hs4. unfold bind, ret.
        destruct (filterM _ items st1) as [[kept st2]|]; [|done].
        by destruct (mapM _ kept st2) as [[keys st3]|].
    + destruct maxCount as [n|].
      * pose proof (evaluatesAs_map _ itemVar innerCode _ _ _ _ (evaluatesAs_slice _ n _ _ _ _ Hs2)) as Hs4.
        unfold evaluatesAs in Hs4. rewrite Hs4. unfold bind, ret.
        destruct (filterM _ items st1) as [[kept st2]|]; [|done].
        by destruct (mapM _ kept st2) as [[keys st3]|].
      * pose proof (evaluatesAs_map _ itemVar innerCode _ _ _ _ Hs2) as Hs4.
        unfold evaluatesAs in Hs4. rewrite Hs4. unfold bind, ret.
        destruct (filterM _ items st1) as [[kept st2]|]; [|done].
        by destruct (mapM _ kept st2) as [[keys st3]|].
Qed.
End TransformListFacts.


(** On the sample store [sampleTransformList] yields the names of the two
    oldest heroes over 30, oldest first. *)
Lemma transformList_stages_witness :
  ∃ code : JSExpr,
    processNode sampleTransformList emptyContext (mkGenState 0 []) = Ok (code, mkGenState 7 [])
    ∧ eval code [] sampleStore = Ok (VList [VString "Atom"; VString "Cyborg"], sampleStore).
Proof.
  edestruct (transformList_stages
               (EntitiesQueryNode HeroType) hero
               (BinaryOperationQueryNode (heroField "age") GREATER_THAN (ConstIntQueryNode 30))
               [mkOrderClause (heroField "age") DESCENDING;
                mkOrderClause (heroField "name") ASCENDING]
               (Some 2) (heroField "name") emptyContext (mkGenState 0 []))
    as [(code & Hcode & Heval) _].
  - reflexivity.
  - cbv. reflexivity.
  - reflexivity.
  - cbv. reflexivity.
  - cbv. reflexivity.
  - instantiate (3 := sampleStore). instantiate (3 := []). cbv. reflexivity.
  - exists code. split.
    + exact Hcode.
    + rewrite Heval. vm_compute. reflexivity.
Defined.

Section FieldFacts.
Context `{Externals} `{Runtime}.

Lemma processNode_Field objectNode field objectType context :
  processNode (FieldQueryNode objectNode field objectType) context =
  (object <- processNode objectNode context ;;
   objectVar <- newJSVariable "object" ;;
   ret (EApplyLambda objectVar
          (EConditional
             (EBinary OpAnd (typeofIsObject objectVar) (isNotNull objectVar))
             (EIndex (EVar objectVar) (EBound (JString (fieldName field)))) ENull)
          object)).
Proof. reflexivity. Qed.

Lemma eval_EApplyLambda x body arg env :
  eval (EApplyLambda x body arg) env = (v <- eval arg env ;; eval body (bindVar x v env)).
Proof. reflexivity. Qed.

Lemma eval_EConditional c a b env :
  eval (EConditional c a b) env =
  (v <- eval c env ;; if truthy v then eval a env else eval b env).
Proof. reflexivity. Qed.

(** The guard of the field access: is the operand an object, and not
    [null]? *)
Lemma eval_object_guard x v env st :
  eval (EBinary OpAnd (typeofIsObject x) (isNotNull x)) (bindVar x v env) st =
  Ok (VBool match v with VList _ | VRef _ => true | _ => false end, st).
Proof.
  unfold typeofIsObject, isNotNull. cbn [eval]. rewrite lookupVar_bindVar.
  unfold bind, ret, liftResult. by destruct v.
Qed.

Lemma eval_field_access x name object env st v st1 :
  eval object env st = Ok (v, st1) →
  eval (EApplyLambda x
          (EConditional (EBinary OpAnd (typeofIsObject x) (isNotNull x))
             (EIndex (EVar x) (EBound (JString name))) ENull)
          object) env st =
  match v with
  | VList _ | VRef _ => getIndex v (VString name) st1
  | _ => Ok (VNull, st1)
  end.
Proof.
  intros Hv. rewrite eval_EApplyLambda. unfold bind at 1. rewrite Hv.
  rewrite eval_EConditional. unfold bind at 1. rewrite eval_object_guard.
  destruct v; cbn [truthy]; try reflexivity.
  - cbn [eval]. rewrite lookupVar_bindVar. reflexivity.
  - cbn [eval]. rewrite lookupVar_bindVar. reflexivity.
Qed.

(** C7.  The code generated for a Field node, whose operand compiles and
    evaluates to a value, evaluates to [null] whenever that value is [null],
    [undefined] or a scalar (boolean, number, string) and raises nothing; when
    the value is an object it reads the named property of that object. *)
Theorem field_access_is_permissive :
  ∀ (objectNode : QueryNode) (field : GraphQLField) (objectType : GraphQLObjectType)
    (context : QueryContext) (gs gs1 : GenState) (object : JSExpr)
    (env : Env) (st st1 : Store) (v : Value),
    processNode objectNode context gs = Ok (object, gs1) →
    eval object env st = Ok (v, st1) →
    ∃ code : JSExpr,
      processNode (FieldQueryNode objectNode field objectType) context gs =
        Ok (code, mkGenState (S (nextJSVar gs1)) (preExecQueries gs1))
      ∧ (isNullOrScalar v = true → eval code env st = Ok (VNull, st1))
      ∧ (∀ (address : nat) (properties : list (string * Value)),
           v = VRef address →
           heap st1 !! address = Some properties →
           eval code env st = liftResult (readProperty (fieldName field) properties) st1).
Proof.
  intros objectNode field objectType context gs gs1 object env st st1 v Hcompile Heval.
  eexists. split; [|split].
  - rewrite processNode_Field. unfold bind, newJSVariable, ret. rewrite Hcompile. reflexivity.
  - intros Hscalar. rewrite (eval_field_access _ _ _ _ _ _ _ Heval).
    by destruct v.
  - intros address properties -> Hheap. rewrite (eval_field_access _ _ _ _ _ _ _ Heval).
    cbn [getIndex toStr getMember]. unfold bind, readObject. by rewrite Hheap.
Qed.
End FieldFacts.


Lemma field_access_is_permissive_witness :
  ∃ code : JSExpr,
    processNode (FieldQueryNode (LiteralQueryNode (JNumber 7)) (mkField "name") HeroType)
      emptyContext (mkGenState 0 []) = Ok (code, mkGenState 1 [])
    ∧ eval code [] sampleStore = Ok (VNull, sampleStore).
Proof.
  destruct (field_access_is_permissive (LiteralQueryNode (JNumber 7)) (mkField "name") HeroType
              emptyContext (mkGenState 0 []) (mkGenState 0 []) (EBound (JNumber 7))
              [] sampleStore sampleStore (VNumber 7) eq_refl eq_refl)
    as (code & Hcode & Hscalar & _).
  exists code. split; [exact Hcode | exact (Hscalar eq_refl)].
Defined.

Section BinaryOperationFacts.
Context `{Externals} `{Runtime}.

Lemma processNode_BinaryOperation lhsNode operator rhsNode context :
  processNode (BinaryOperationQueryNode lhsNode operator rhsNode) context =
  (lhs <- processNode lhsNode context ;;
   rhs <- processNode rhsNode context ;;
   lhsVar <- newJSVariable "lhs" ;;
   rhsVar <- newJSVariable "rhs" ;;
   match getJSOperator operator with
   | Some op => ret (EBinary op lhs rhs)
   | None =>
       match operator with
       | LESS_THAN => ret (compareWith OpLt lhs rhs)
       | LESS_THAN_OR_EQUAL => ret (compareWith OpLe lhs rhs)
       | GREATER_THAN => ret (compareWith OpGt lhs rhs)
       | GREATER_THAN_OR_EQUAL => ret (compareWith OpGe lhs rhs)
       | CONTAINS => ret (EIncludes (listOrStringOf lhsVar lhs) (listOrStringOf rhsVar rhs))
       | IN => ret (EIncludes (listOrStringOf rhsVar rhs) (listOrStringOf lhsVar lhs))
       | STARTS_WITH => ret (EStartsWith (EStringOf lhs) rhs)
       | ENDS_WITH => ret (EEndsWith (EStringOf lhs) rhs)
       | APPEND => ret (EBinary OpAdd (EStringOf lhs) (EStringOf rhs))
       | PREPEND => ret (EBinary OpAdd (EStringOf rhs) (EStringOf lhs))
       | _ => throw "Unsupported binary operator: undefined"
       end
   end).
Proof. reflexivity. Qed.








End BinaryOperationFacts.




Section TypeCheckFacts.
Context `{Externals} `{Runtime}.

Lemma processNode_TypeCheck valueNode type context :
  processNode (TypeCheckQueryNode valueNode type) context =
  (value <- processNode valueNode context ;;
   valueVar <- newJSVariable "value" ;;
   match type with
   | SCALAR => ret (EApplyLambda valueVar (ERaw (scalarCheckTemplate valueVar)) value)
   | LIST => ret (EIsArray value)
   | OBJECT =>
       ret (EApplyLambda valueVar
              (EBinary OpAnd
                 (EBinary OpAnd (typeofIsObject valueVar) (isNotNull valueVar))
                 (ENot (EIsArray (EVar valueVar))))
              value)
   | NULL => ret (EBinary OpLooseEq value ENull)
   end).
Proof. reflexivity. Qed.

(** The SCALAR template ends inside a string literal: the quote after
    [number] is missing. *)
Lemma scalarCheckTemplate_unterminated valueVar :
  unterminatedString false (scalarCheckTemplate valueVar) = true.
Proof. reflexivity. Qed.

Lemma type_check_kinds valueNode type context gs gs1 value env st v st1 :
  processNode valueNode context gs = Ok (value, gs1) →
  eval value env st = Ok (v, st1) →
  ∃ code,
    processNode (TypeCheckQueryNode valueNode type) context gs =
      Ok (code, mkGenState (S (nextJSVar gs1)) (preExecQueries gs1))
    ∧ eval code env st =
      match type with
      | SCALAR => Throw SyntaxError
      | LIST => Ok (VBool match kindOf v with LIST => true | _ => false end, st1)
      | OBJECT => Ok (VBool match kindOf v with OBJECT => true | _ => false end, st1)
      | NULL => Ok (VBool match kindOf v with NULL => true | _ => false end, st1)
      end.
Proof.
  intros Hcompile Heval.
  assert (processNode (TypeCheckQueryNode valueNode type) context gs =
          (valueVar <- newJSVariable "value" ;;
           match type with
           | SCALAR => ret (EApplyLambda valueVar (ERaw (scalarCheckTemplate valueVar)) value)
           | LIST => ret (EIsArray value)
           | OBJECT =>
               ret (EApplyLambda valueVar
                      (EBinary OpAnd
                         (EBinary OpAnd (typeofIsObject valueVar) (isNotNull valueVar))
                         (ENot (EIsArray (EVar valueVar))))
                      value)
           | NULL => ret (EBinary OpLooseEq value ENull)
           end) gs1) as Hc.
  { rewrite processNode_TypeCheck. unfold bind at 1. by rewrite Hcompile. }
  destruct type; (eexists; split; [rewrite Hc; reflexivity|]).
  - (* OBJECT *)
    cbn [eval]. unfold bind at 1. rewrite Heval. unfold bind at 1.
    unfold typeofIsObject, isNotNull. cbn [eval]. rewrite !lookupVar_bindVar.
    unfold bind, ret, liftResult. by destruct v.
  - (* LIST *)
    cbn [eval]. unfold bind, ret. rewrite Heval. by destruct v.
  - (* SCALAR *)
    cbn [eval]. unfold bind. by rewrite Heval.
  - (* NULL *)
    cbn [eval]. unfold bind, ret, liftResult. rewrite Heval. by destruct v.
Qed.

End TypeCheckFacts.


(** C9 (the code departs from it).  The SCALAR check compiled for the number
    1, a scalar, does not evaluate to true: the template it is generated from
    lacks the quote that closes ['number], the text ends inside a string
    literal, and the engine rejects it. *)
Theorem scalar_type_check_is_malformed :
  compileAndEval (TypeCheckQueryNode (LiteralQueryNode (JNumber 1)) SCALAR) sampleStore
  = Ok (Throw SyntaxError).
Proof. vm_compute. reflexivity. Qed.

Lemma ownProperty_setProperty name k v object :
  ownProperty name (setProperty k v object) =
  if String.eqb k name then Some v else ownProperty name object.
Proof.
  unfold ownProperty. induction object as [|[k' w] rest IH]; cbn.
  - by destruct (String.eqb k name).
  - destruct (String.eqb_spec k' k) as [->|Hne]; cbn.
    + by destruct (String.eqb k name).
    + destruct (String.eqb_spec k' name) as [->|Hne']; cbn.
      * destruct (String.eqb_spec k name) as [->|]; done.
      * exact IH.
Qed.

Lemma ownProperty_assignProperties name source : ∀ target,
  ownProperty name (assignProperties target source) =
  match lastValue name source with
  | Some v => Some v
  | None => ownProperty name target
  end.
Proof.
  unfold assignProperties.
  induction source as [|[k v] rest IH]; intros target; cbn [fold_left lastValue]; [done|].
  rewrite IH. cbn [fst snd]. destruct (lastValue name rest); [done|].
  rewrite ownProperty_setProperty. by destruct (String.eqb k name).
Qed.

Lemma setProperty_keys k v object name :
  name ∈ List.map fst (setProperty k v object) → name = k ∨ name ∈ List.map fst object.
Proof.
  induction object as [|[k' w] rest IH]; cbn.
  - intros Hin%list_elem_of_singleton. by left.
  - destruct (String.eqb_spec k' k) as [->|Hne]; cbn.
    + intros Hin. by right.
    + intros [->|Hin]%elem_of_cons.
      * right. apply elem_of_cons. by left.
      * destruct (IH Hin) as [->|Hin']; [by left|]. right. apply elem_of_cons. by right.
Qed.

Lemma setProperty_keys_NoDup k v object :
  NoDup (List.map fst object) → NoDup (List.map fst (setProperty k v object)).
Proof.
  induction object as [|[k' w] rest IH]; cbn; intros Hnd.
  - apply NoDup_singleton.
  - apply NoDup_cons in Hnd as [Hnotin Hnd].
    destruct (String.eqb_spec k' k) as [->|Hne]; cbn.
    + by apply NoDup_cons.
    + apply NoDup_cons. split; [|by apply IH].
      intros [->|Hin]%setProperty_keys; done.
Qed.

Lemma assignProperties_keys_NoDup source : ∀ target,
  NoDup (List.map fst target) → NoDup (List.map fst (assignProperties target source)).
Proof.
  unfold assignProperties. induction source as [|[k v] rest IH]; intros target Hnd; [done|].
  cbn [fold_left]. apply IH. by apply setProperty_keys_NoDup.
Qed.

Lemma lastValue_notin name l : name ∉ List.map fst l → lastValue name l = None.
Proof.
  induction l as [|[k v] rest IH]; [done|]. cbn. intros Hnotin.
  apply not_elem_of_cons in Hnotin as [Hne Hnotin].
  rewrite IH by done. by destruct (String.eqb_spec k name) as [->|].
Qed.

Lemma lastValue_NoDup name l :
  NoDup (List.map fst l) → lastValue name l = ownProperty name l.
Proof.
  unfold ownProperty. induction l as [|[k v] rest IH]; [done|]. cbn.
  intros Hnd. apply NoDup_cons in Hnd as [Hnotin Hnd].
  destruct (String.eqb_spec k name) as [->|Hne].
  - by rewrite lastValue_notin.
  - rewrite IH by done. by destruct (List.find _ rest).
Qed.

(** What [Object.assign(record, {...values})] leaves in a property. *)
Lemma merge_is_shallow name record values :
  ownProperty name (assignProperties record (assignProperties [] values)) =
  match lastValue name values with
  | Some v => Some v
  | None => ownProperty name record
  end.
Proof.
  rewrite ownProperty_assignProperties, lastValue_NoDup.
  - rewrite ownProperty_assignProperties. by destruct (lastValue name values).
  - apply assignProperties_keys_NoDup. apply NoDup_nil_2.
Qed.

Section UpdateEntitiesFacts.
Context `{Externals} `{Runtime}.

Lemma processNode_UpdateEntities objectType listNode updates currentEntityVariable context :
  processNode (UpdateEntitiesQueryNode objectType listNode updates currentEntityVariable) context =
  (newContext <- introduceVariable context currentEntityVariable ;;
   entityVar <- getJSVariable newContext currentEntityVariable ;;
   updateObject <-
     match updates with
     | [] => ret (EObject [])
     | _ => props <- processProperties newContext updates ;; ret (EObject props)
     end ;;
   list <- processNode listNode context ;;
   ret (EMap list entityVar
          (EExecutingFunction
             [SExpr (EObjectAssign (EVar entityVar) [updateObject]);
              SReturn (EMember (EVar entityVar) ID_FIELD_NAME)]))).
Proof. reflexivity. Qed.

Lemma eval_EObject properties env :
  eval (EObject properties) env =
  if keysAreNames properties
  then props <- evalProperties env properties ;; allocate (assignProperties [] props)
  else fail SyntaxError.
Proof. reflexivity. Qed.

Lemma mapM_ext {A} (f g : Value → Eval A) items st :
  (∀ item st', f item st' = g item st') → mapM f items st = mapM g items st.
Proof.
  intros Hfg. revert st. induction items as [|item items' IH]; intros st; [done|].
  cbn [mapM]. unfold bind. rewrite Hfg. destruct (g item st) as [[w st']|]; [|done].
  by rewrite IH.
Qed.

(** The keys the generator gives the properties of an object literal. *)
Lemma processProperties_keys context (updates : list (PropertySpecification QueryNode)) :
  ∀ gs props gs',
  processProperties context updates gs = Ok (props, gs') →
  List.map fst props = List.map (λ p, safeJSONKey (propertyName p)) updates.
Proof.
  induction updates as [|p updates IH]; intros gs props gs' Hprops;
    cbn [processProperties] in Hprops.
  - unfold ret in Hprops. by inversion Hprops.
  - unfold bind in Hprops.
    destruct (processNode (valueNode p) context gs) as [[v gs1]|]; [|done].
    destruct (processProperties context updates gs1) as [[rest gs2]|] eqn:Hrest; [|done].
    unfold ret in Hprops. inversion Hprops; subst. cbn [List.map fst]. f_equal.
    by eapply IH.
Qed.

(** Properties with safe names are keyed by their names, as string
    literals. *)
Lemma safe_names_are_string_keys (updates : list (PropertySpecification QueryNode)) :
  ∀ props : list (PropKey * JSExpr),
  Forall (λ p, isSafeIdentifier (propertyName p) = true) updates →
  List.map fst props = List.map (λ p, safeJSONKey (propertyName p)) updates →
  props = List.map (λ ne, (KString (fst ne), snd ne))
            (List.combine (List.map propertyName updates) (List.map snd props)).
Proof.
  induction updates as [|p updates IH]; intros [|[k e] props] Hsafe Hkeys;
    cbn in Hkeys |- *; try done.
  inversion Hsafe as [|? ? Hp Hrest]; subst. inversion Hkeys as [[Hk Hks]].
  unfold safeJSONKey. rewrite Hp. f_equal. by apply IH.
Qed.

(** A property with an unsafe name is keyed by a bound value. *)
Lemma unsafe_name_is_a_bound_key (updates : list (PropertySpecification QueryNode)) :
  ∀ props : list (PropKey * JSExpr),
  Exists (λ p, isSafeIdentifier (propertyName p) = false) updates →
  List.map fst props = List.map (λ p, safeJSONKey (propertyName p)) updates →
  keysAreNames props = false.
Proof.
  induction updates as [|p updates IH]; intros [|[k e] props] Hunsafe Hkeys;
    cbn in Hkeys; try done; try by inversion Hunsafe.
  inversion Hkeys as [[Hk Hks]]. unfold keysAreNames. cbn [forallb fst].
  inversion Hunsafe as [? ? Hp|? ? Hrest]; subst.
  - unfold safeJSONKey. by rewrite Hp.
  - fold (keysAreNames props). rewrite (IH props Hrest Hks). apply andb_false_r.
Qed.

Lemma evalProperties_string_keys env named :
  keysAreNames (List.map (λ ne, (KString (fst ne), snd ne)) named) = true
  ∧ ∀ st, evalProperties env (List.map (λ ne, (KString (fst ne), snd ne)) named) st =
          evalNamed env named st.
Proof.
  split.
  - unfold keysAreNames. induction named as [|[name e] named IH]; [done|]. exact IH.
  - induction named as [|[name e] named IH]; intros st; [done|].
    cbn [List.map evalProperties evalNamed fst snd keyName]. unfold bind.
    destruct (eval e env st) as [[v st1]|]; [|done]. by rewrite IH.
Qed.

(** The body of the update lambda computes [updateEntity], when the update
    properties are keyed by their names. *)
Lemma eval_updateFunction entityVar named env entity st :
  eval (EExecutingFunction
          [SExpr (EObjectAssign (EVar entityVar)
                    [EObject (List.map (λ ne, (KString (fst ne), snd ne)) named)]);
           SReturn (EMember (EVar entityVar) ID_FIELD_NAME)])
       (bindVar entityVar entity env) st =
  updateEntity entityVar named env entity st.
Proof.
  destruct (evalProperties_string_keys (bindVar entityVar entity env) named)
    as [Hkeys Hvalues].
  unfold updateEntity. cbn [eval exec]. rewrite !lookupVar_bindVar. rewrite Hkeys.
  fold (evalProperties (bindVar entityVar entity env)).
  unfold bind, ret, fail, throw. rewrite Hvalues.
  destruct (evalNamed (bindVar entityVar entity env) named st) as [[values st1]|e];
    [|by destruct entity].
  destruct (allocate (assignProperties [] values) st1) as [[patch st2]|e] eqn:Halloc;
    [|by unfold allocate in Halloc].
  destruct entity; try done.
  cbn [objectAssign]. unfold bind, ret.
  unfold allocate in Halloc. inversion Halloc; subst patch st2. clear Halloc.
  destruct (readObject (length (heap st1)) _) as [[from st3]|]; [|reflexivity].
  destruct (readObject address st3) as [[onto st4]|]; [|reflexivity].
  unfold writeObject. rewrite lookupVar_bindVar. unfold ID_FIELD_NAME.
  by destruct (getMember (VRef address) "id" _) as [[v st5]|].
Qed.

(** What holds of C10 when every update property has a safe name.  The code
    generated for the UpdateEntities node, whose update properties and list
    compile, maps [updateEntity] over the matched list: the result has one
    element per matched entity, in the list's order.  On a stored record
    [updateEntity] replaces the record by the merge of the evaluated update
    properties onto it and yields the [id] of the merged record, not the
    record.  The merge is shallow: a property the update names gets the
    value last given for it, as it is; every other property is as before. *)
Lemma update_entities_with_safe_names_merge :
  ∀ (objectType : GraphQLObjectType) (listNode : QueryNode)
    (updates : list (PropertySpecification QueryNode)) (currentEntityVariable : VarId)
    (context : QueryContext) (gs gsB gs' : GenState)
    (props : list (PropKey * JSExpr)) (listCode : JSExpr)
    (env : Env) (st st1 : Store) (items : list Value),
    let entityVar := mkJSVar (label currentEntityVariable) (nextJSVar gs) false in
    let newContext :=
      mkContext (<[uid currentEntityVariable := entityVar]> (variableMap context)) in
    let named := List.combine (List.map propertyName updates) (List.map snd props) in
    Forall (λ p, isSafeIdentifier (propertyName p) = true) updates →
    variableMap context !! uid currentEntityVariable = None →
    processProperties newContext updates
      (mkGenState (S (nextJSVar gs)) (preExecQueries gs)) = Ok (props, gsB) →
    processNode listNode context gsB = Ok (listCode, gs') →
    eval listCode env st = Ok (VList items, st1) →
    (∃ code : JSExpr,
       processNode
         (UpdateEntitiesQueryNode objectType listNode updates currentEntityVariable)
         context gs = Ok (code, gs')
       ∧ eval code env st =
         (ids <- mapM (updateEntity entityVar named env) items ;; ret (VList ids)) st1)
    ∧ (∀ (address : nat) (record values : list (string * Value)) (stA stB : Store),
         evalNamed (bindVar entityVar (VRef address) env) named stA = Ok (values, stB) →
         heap stB !! address = Some record →
         let merged := assignProperties record (assignProperties [] values) in
         updateEntity entityVar named env (VRef address) stA =
         liftResult (readProperty ID_FIELD_NAME merged)
           (mkStore (<[address := merged]> (heap stB ++ [assignProperties [] values]))
              (collections stB) (nextID stB)))
    ∧ (∀ (name : string) (record values : list (string * Value)),
         ownProperty name (assignProperties record (assignProperties [] values)) =
         match lastValue name values with
         | Some v => Some v
         | None => ownProperty name record
         end).
Proof.
  intros objectType listNode updates currentEntityVariable context gs gsB gs' props
    listCode env st st1 items entityVar newContext named Hsafe Hfresh Hprops Hlist Heval.
  pose proof (safe_names_are_string_keys updates props Hsafe
                (processProperties_keys _ _ _ _ _ Hprops)) as Hkeyed.
  fold named in Hkeyed.
  split; [|split].
  - exists (EMap listCode entityVar
              (EExecutingFunction
                 [SExpr (EObjectAssign (EVar entityVar) [EObject props]);
                  SReturn (EMember (EVar entityVar) ID_FIELD_NAME)])).
    split.
    + rewrite processNode_UpdateEntities.
      unfold bind at 1. unfold introduceVariable, bind at 1, newJSVariable.
      unfold newNestedContextWithNewVariable. rewrite Hfresh. unfold ret at 1.
      unfold bind at 1, getJSVariable. cbn [variableMap]. rewrite lookup_insert_eq.
      unfold ret at 1. fold entityVar newContext.
      unfold bind at 1.
      assert (match updates with
              | [] => ret (EObject [])
              | _ => props <- processProperties newContext updates ;; ret (EObject props)
              end (mkGenState (S (nextJSVar gs)) (preExecQueries gs))
              = Ok (EObject props, gsB)) as ->.
      { destruct updates; [by cbn in Hprops; inversion Hprops|].
        unfold bind. by rewrite Hprops. }
      unfold bind. by rewrite Hlist.
    + rewrite eval_EMap. unfold bind at 1. rewrite Heval.
      unfold bind at 1. cbn [asList]. unfold ret at 1.
      unfold bind. rewrite (mapM_ext _ (updateEntity entityVar named env)); [done|].
      intros item st'. rewrite Hkeyed. apply eval_updateFunction.
  - intros address record values stA stB Hvalues Hrecord merged.
    unfold updateEntity. unfold bind at 1. rewrite Hvalues.
    unfold bind at 1, allocate. cbn [objectAssign].
    unfold bind, ret, readObject, writeObject. cbn [heap collections nextID].
    rewrite list_lookup_middle by done. cbn [heap].
    rewrite (lookup_app_l_Some _ _ _ _ Hrecord).
    cbn [getMember heap collections nextID]. unfold bind, readObject. cbn [heap].
    rewrite list_lookup_insert_eq; [done|].
    rewrite length_app. apply lookup_lt_Some in Hrecord. lia.
  - intros name record values. apply merge_is_shallow.
Qed.

(** With an update property whose name is not a safe identifier the object
    literal of the update is keyed by a bound value, and the code fails with
    a SyntaxError as soon as there is an entity to update. *)
Lemma update_entities_with_unsafe_name_fail :
  ∀ (objectType : GraphQLObjectType) (listNode : QueryNode)
    (updates : list (PropertySpecification QueryNode)) (currentEntityVariable : VarId)
    (context : QueryContext) (gs gsB gs' : GenState)
    (props : list (PropKey * JSExpr)) (listCode : JSExpr)
    (env : Env) (st st1 : Store) (item : Value) (items : list Value),
    let entityVar := mkJSVar (label currentEntityVariable) (nextJSVar gs) false in
    let newContext :=
      mkContext (<[uid currentEntityVariable := entityVar]> (variableMap context)) in
    Exists (λ p, isSafeIdentifier (propertyName p) = false) updates →
    variableMap context !! uid currentEntityVariable = None →
    processProperties newContext updates
      (mkGenState (S (nextJSVar gs)) (preExecQueries gs)) = Ok (props, gsB) →
    processNode listNode context gsB = Ok (listCode, gs') →
    eval listCode env st = Ok (VList (item :: items), st1) →
    ∃ code : JSExpr,
      processNode
        (UpdateEntitiesQueryNode objectType listNode updates currentEntityVariable)
        context gs = Ok (code, gs')
      ∧ eval code env st = Throw SyntaxError.
Proof.
  intros objectType listNode updates currentEntityVariable context gs gsB gs' props
    listCode env st st1 item items entityVar newContext Hunsafe Hfresh Hprops Hlist Heval.
  pose proof (unsafe_name_is_a_bound_key updates props Hunsafe
                (processProperties_keys _ _ _ _ _ Hprops)) as Hkeys.
  exists (EMap listCode entityVar
            (EExecutingFunction
               [SExpr (EObjectAssign (EVar entityVar) [EObject props]);
                SReturn (EMember (EVar entityVar) ID_FIELD_NAME)])).
  split.
  - rewrite processNode_UpdateEntities.
    unfold bind at 1. unfold introduceVariable, bind at 1, newJSVariable.
    unfold newNestedContextWithNewVariable. rewrite Hfresh. unfold ret at 1.
    unfold bind at 1, getJSVariable. cbn [variableMap]. rewrite lookup_insert_eq.
    unfold ret at 1. fold entityVar newContext.
    unfold bind at 1.
    assert (match updates with
            | [] => ret (EObject [])
            | _ => props <- processProperties newContext updates ;; ret (EObject props)
            end (mkGenState (S (nextJSVar gs)) (preExecQueries gs))
            = Ok (EObject props, gsB)) as ->.
    { destruct updates; [by inversion Hunsafe|].
      unfold bind. by rewrite Hprops. }
    unfold bind. by rewrite Hlist.
  - rewrite eval_EMap. unfold bind at 1. rewrite Heval.
    unfold bind at 1. cbn [asList]. unfold ret at 1.
    unfold bind at 1. cbn [mapM]. unfold bind at 1.
    cbn [eval exec]. rewrite !lookupVar_bindVar. rewrite Hkeys. reflexivity.
Qed.

End UpdateEntitiesFacts.


Lemma update_entities_with_safe_names_merge_example :
  ∃ code : JSExpr,
    processNode sampleUpdate emptyContext (mkGenState 0 []) = Ok (code, mkGenState 4 [])
    ∧ ∃ st' : Store,
        eval code [] sampleStore = Ok (VList [VString "h1"; VString "h2"; VString "h3"], st')
        ∧ heap st' !! 0%nat =
          Some [("id", VString "h1"); ("name", VString "Flash"); ("age", VNumber 32);
                ("title", VString "Dr.")].
Proof.
  edestruct (update_entities_with_safe_names_merge HeroType (EntitiesQueryNode HeroType)
               [mkProperty "age"
                  (BinaryOperationQueryNode (heroField "age") ADD (ConstIntQueryNode 1));
                mkProperty "title" (LiteralQueryNode (JString "Dr."))]
               hero emptyContext (mkGenState 0 []))
    as [(code & Hcode & Heval) _].
  - repeat constructor.
  - reflexivity.
  - cbv. reflexivity.
  - reflexivity.
  - instantiate (3 := sampleStore). instantiate (3 := []). cbv. reflexivity.
  - exists code. split; [exact Hcode|].
    eexists. split; [rewrite Heval; vm_compute; reflexivity|reflexivity].
Qed.

(** C10 (the code departs from it).  An update that gives every hero the
    property [my-prop], a name that is not a safe identifier, does not
    evaluate to the heroes' ids and merges nothing: the generator puts the
    name into the object literal as a bound value without brackets, which is
    no key, and the engine rejects the code. *)
Theorem update_with_unsafe_property_name_is_malformed :
  isSafeIdentifier "my-prop" = false
  ∧ collections sampleStore !! "heros" = Some [VRef 0%nat; VRef 1%nat; VRef 2%nat]
  ∧ compileAndEval sampleUnsafeUpdate sampleStore = Ok (Throw SyntaxError).
Proof. split; [reflexivity|]. split; [reflexivity|]. vm_compute. reflexivity. Qed.

Section ContextFacts.
Context `{Externals}.

Lemma processNode_WithPreExecution preExecQueries resultNode context :
  processNode (WithPreExecutionQueryNode preExecQueries resultNode) context =
  (currentContext <- addPreExecuteQueries preExecQueries context ;;
   processNode resultNode currentContext).
Proof. reflexivity. Qed.

Lemma addPreExecuteQueries_step parm parms context gs :
  addPreExecuteQueries (parm :: parms) context gs =
  (newContext <- addPreExecuteQuery context (query parm) (resultVariable parm)
                   (resultValidator parm) ;;
   addPreExecuteQueries parms newContext) gs.
Proof.
  cbn [addPreExecuteQueries]. unfold addPreExecuteQuery, bind, ret.
  destruct (resultVariable parm) as [rv|].
  - unfold newJSQueryResultVariable, newNestedContextWithNewVariable, bind, ret, throw.
    destruct (variableMap context !! uid rv); [done|]. cbn [fst snd].
    by destruct (createJSCompoundQuery _ _ _ _ _) as [[jsQuery gs2]|].
  - cbn [fst snd].
    by destruct (createJSCompoundQuery _ _ _ _ _) as [[jsQuery gs2]|].
Qed.

Lemma addPreExecuteQueries_app before rest : ∀ context gs,
  addPreExecuteQueries (before ++ rest) context gs =
  (currentContext <- addPreExecuteQueries before context ;;
   addPreExecuteQueries rest currentContext) gs.
Proof.
  induction before as [|parm before IH]; intros context gs; [reflexivity|].
  rewrite <- app_comm_cons. unfold bind in *. rewrite !addPreExecuteQueries_step.
  unfold bind.
  destruct (addPreExecuteQuery _ _ _ _ gs) as [[newContext gs1]|]; [|reflexivity].
  apply IH.
Qed.

Lemma newPreExecContext_lookup this key jsVariable :
  variableMap (newPreExecContext this) !! key = Some jsVariable
  ↔ variableMap this !! key = Some jsVariable ∧ isQueryResultVariable jsVariable = true.
Proof. unfold newPreExecContext. cbn [variableMap]. apply map_lookup_filter_Some. Qed.

Lemma newPreExecContext_ordinary this key jsVariable :
  variableMap this !! key = Some jsVariable →
  isQueryResultVariable jsVariable = false →
  variableMap (newPreExecContext this) !! key = None.
Proof.
  intros Hlookup Hordinary.
  destruct (variableMap (newPreExecContext this) !! key) as [jv|] eqn:Hpre; [|done].
  apply newPreExecContext_lookup in Hpre as [Hjv Hresult]. congruence.
Qed.

Lemma addPreExecuteQuery_keeps this preExecQuery resultVariable resultValidator gs
    newContext gs' key jsVariable :
  addPreExecuteQuery this preExecQuery resultVariable resultValidator gs = Ok (newContext, gs') →
  variableMap this !! key = Some jsVariable →
  variableMap newContext !! key = Some jsVariable.
Proof.
  unfold addPreExecuteQuery, bind, ret. intros Hadd Hkey.
  destruct resultVariable as [rv|].
  - unfold newJSQueryResultVariable, newNestedContextWithNewVariable in Hadd.
    destruct (variableMap this !! uid rv) eqn:Hrv; [done|]. unfold ret in Hadd.
    cbn [fst snd] in Hadd.
    destruct (createJSCompoundQuery _ _ _ _ _) as [[jsQuery gs2]|]; [|done].
    inversion Hadd; subst. cbn [variableMap].
    rewrite lookup_insert_ne; [done|]. congruence.
  - cbn [fst snd] in Hadd.
    destruct (createJSCompoundQuery _ _ _ _ _) as [[jsQuery gs2]|]; [|done].
    by inversion Hadd; subst.
Qed.

Lemma addPreExecuteQueries_keeps parms : ∀ context gs newContext gs' key jsVariable,
  addPreExecuteQueries parms context gs = Ok (newContext, gs') →
  variableMap context !! key = Some jsVariable →
  variableMap newContext !! key = Some jsVariable.
Proof.
  induction parms as [|parm parms IH]; intros context gs newContext gs' key jsVariable.
  - cbn. unfold ret. by inversion 1; subst.
  - rewrite addPreExecuteQueries_step. unfold bind. intros Hadd Hkey.
    destruct (addPreExecuteQuery _ _ _ _ gs) as [[context1 gs1]|] eqn:Hstep; [|done].
    eapply IH; [exact Hadd|]. eapply addPreExecuteQuery_keeps; eauto.
Qed.

Lemma addPreExecuteQuery_ordinary_reference this variable jsVariable resultVariable
    resultValidator gs :
  variableMap this !! uid variable = Some jsVariable →
  isQueryResultVariable jsVariable = false →
  (∀ rv, resultVariable = Some rv → variableMap this !! uid rv = None) →
  addPreExecuteQuery this (VariableQueryNode variable) resultVariable resultValidator gs =
  Throw ("Variable " +:+ describeVariable variable +:+ " is used but not introduced").
Proof.
  intros Hlookup Hordinary Hfresh.
  unfold addPreExecuteQuery, bind, ret.
  assert (∀ rv gs0,
            createJSCompoundQuery (VariableQueryNode variable) rv resultValidator
              (newPreExecContext this) gs0 =
            Throw ("Variable " +:+ describeVariable variable
                   +:+ " is used but not introduced")) as Hthrow.
  { intros rv gs0. unfold createJSCompoundQuery, bind. cbn [processNode].
    unfold getVariable.
    by rewrite (newPreExecContext_ordinary _ _ _ Hlookup Hordinary). }
  destruct resultVariable as [rv|].
  - unfold newJSQueryResultVariable, newNestedContextWithNewVariable.
    rewrite (Hfresh rv eq_refl). unfold ret. cbn [fst snd]. by rewrite Hthrow.
  - cbn [fst snd]. by rewrite Hthrow.
Qed.

Section ScopeFacts.
Variable v : nat.

Lemma throws_throw {A} (e : string) : throws (throw (A := A) e).
Proof. intros gs. by exists e. Qed.

Lemma throws_bind_l {A B} (m : Gen A) (k : A → Gen B) : throws m → throws (bind m k).
Proof. intros Hm gs. destruct (Hm gs) as [e He]. exists e. unfold bind. by rewrite He. Qed.

Lemma throws_bind_with {A B} (P : A → Prop) (m : Gen A) (k : A → Gen B) :
  (∀ gs a gs', m gs = Ok (a, gs') → P a) → (∀ a, P a → throws (k a)) → throws (bind m k).
Proof.
  intros Hm Hk gs. unfold bind. destruct (m gs) as [[a gs']|e] eqn:Hrun; [|by exists e].
  apply Hk. by eapply Hm.
Qed.

Lemma throws_bind_r {A B} (m : Gen A) (k : A → Gen B) :
  (∀ a, throws (k a)) → throws (bind m k).
Proof. intros Hk. apply (throws_bind_with (fun _ => True)); [done|]. intros a _. apply Hk. Qed.


Lemma newPreExecContext_unbound context : unbound v context → unbound v (newPreExecContext context).
Proof.
  unfold unbound. intros Hu.
  destruct (variableMap (newPreExecContext context) !! v) as [jv|] eqn:Hpre; [|done].
  apply newPreExecContext_lookup in Hpre as [Hjv _]. congruence.
Qed.

Lemma newNestedContextWithNewVariable_unbound context x jsVariable gs newContext gs' :
  newNestedContextWithNewVariable context x jsVariable gs = Ok (newContext, gs') →
  Nat.eqb (uid x) v = false → unbound v context → unbound v newContext.
Proof.
  unfold newNestedContextWithNewVariable, unbound. intros Hrun Hx%Nat.eqb_neq Hu.
  destruct (variableMap context !! uid x); [done|]. inversion Hrun; subst.
  cbn [variableMap]. by rewrite lookup_insert_ne.
Qed.

Lemma introduceVariable_unbound context x gs newContext gs' :
  introduceVariable context x gs = Ok (newContext, gs') →
  Nat.eqb (uid x) v = false → unbound v context → unbound v newContext.
Proof.
  unfold introduceVariable, bind, newJSVariable. intros Hrun.
  by eapply newNestedContextWithNewVariable_unbound.
Qed.

Lemma addPreExecuteQuery_unbound context preExecQuery resultVariable resultValidator
    gs newContext gs' :
  addPreExecuteQuery context preExecQuery resultVariable resultValidator gs
    = Ok (newContext, gs') →
  match resultVariable with Some rv => Nat.eqb (uid rv) v | None => false end = false →
  unbound v context → unbound v newContext.
Proof.
  unfold addPreExecuteQuery, bind, ret. intros Hrun Hrv Hu.
  destruct resultVariable as [rv|].
  - unfold newJSQueryResultVariable in Hrun.
    destruct (newNestedContextWithNewVariable context rv _ _) as [[ctx gs1]|] eqn:Hnested;
      [|done].
    cbn [fst snd] in Hrun.
    destruct (createJSCompoundQuery _ _ _ _ _) as [[jsQuery gs2]|]; [|done].
    inversion Hrun; subst. by eapply newNestedContextWithNewVariable_unbound.
  - cbn [fst snd] in Hrun.
    destruct (createJSCompoundQuery _ _ _ _ _) as [[jsQuery gs2]|]; [|done].
    by inversion Hrun; subst.
Qed.

Lemma throws_addPreExecuteQuery context preExecQuery resultVariable resultValidator :
  throws (processNode preExecQuery (newPreExecContext context)) →
  throws (addPreExecuteQuery context preExecQuery resultVariable resultValidator).
Proof.
  intros Hq. unfold addPreExecuteQuery. apply throws_bind_r. intros [resultVar newContext].
  apply throws_bind_l. intros gs. unfold createJSCompoundQuery, bind.
  destruct (Hq (mkGenState (nextJSVar gs) [])) as [e ->]. by exists e.
Qed.


Lemma addPreExecuteQueries_unbound parms : ∀ context gs newContext gs',
  addPreExecuteQueries parms context gs = Ok (newContext, gs') →
  noResultIs v parms → unbound v context → unbound v newContext.
Proof.
  induction parms as [|parm parms IH]; intros context gs newContext gs' Hrun Hno Hu.
  - cbn in Hrun. unfold ret in Hrun. by inversion Hrun; subst.
  - rewrite addPreExecuteQueries_step in Hrun. unfold bind in Hrun.
    destruct (addPreExecuteQuery _ _ _ _ gs) as [[context1 gs1]|] eqn:Hstep; [|done].
    inversion Hno as [|? ? Hparm Hrest]; subst.
    eapply IH; [exact Hrun|exact Hrest|].
    by eapply addPreExecuteQuery_unbound.
Qed.

Lemma throws_addPreExecuteQueries parms : ∀ context,
  noResultIs v parms → unbound v context →
  Exists (fun parm => ∀ context, unbound v context →
                        throws (processNode (query parm) context)) parms →
  throws (addPreExecuteQueries parms context).
Proof.
  induction parms as [|parm parms IH]; intros context Hno Hu Hex; [by inversion Hex|].
  inversion Hno as [|? ? Hparm Hrest]; subst.
  assert (throws (newContext <- addPreExecuteQuery context (query parm) (resultVariable parm)
                                  (resultValidator parm) ;;
                  addPreExecuteQueries parms newContext)) as Hthrows.
  { inversion Hex as [? ? Hhere|? ? Hlater]; subst.
    - apply throws_bind_l, throws_addPreExecuteQuery, Hhere.
      by apply newPreExecContext_unbound.
    - apply (throws_bind_with (unbound v)).
      + intros gs newContext gs' Hrun. by eapply addPreExecuteQuery_unbound.
      + intros newContext Hnew. by apply IH. }
  intros gs. rewrite addPreExecuteQueries_step. apply Hthrows.
Qed.

Lemma throws_processItems context ns :
  Exists (fun n => throws (processNode n context)) ns → throws (processItems context ns).
Proof.
  induction 1 as [n ns Hn|n ns _ IH]; cbn [processItems].
  - by apply throws_bind_l.
  - apply throws_bind_r. intros e. by apply throws_bind_l.
Qed.

Lemma throws_processProperties context ps :
  Exists (fun p => throws (processNode (valueNode p) context)) ps →
  throws (processProperties context ps).
Proof.
  induction 1 as [p ps Hp|p ps _ IH]; cbn [processProperties].
  - by apply throws_bind_l.
  - apply throws_bind_r. intros e. by apply throws_bind_l.
Qed.

Lemma throws_processClauses context cs :
  Exists (fun c => throws (processNode (clauseValueNode c) context)) cs →
  throws (processClauses context cs).
Proof.
  induction 1 as [c cs Hc|c cs _ IH]; cbn [processClauses].
  - by apply throws_bind_l.
  - apply throws_bind_r. intros e. by apply throws_bind_l.
Qed.

Ltac split_binds :=
  repeat match goal with
         | Hb : _ || _ = false |- _ => apply orb_false_iff in Hb as [? ?]
         end.

Ltac find_throw IH :=
  first
    [ apply IH; assumption
    | apply throws_bind_l; apply IH; assumption
    | apply throws_bind_r; intros ?; find_throw IH ].

Lemma processNode_unbound : ∀ node context,
  mentions v node = true → binds v node = false → unbound v context →
  throws (processNode node context).
Proof.
  fix IH 1. intros node context.
  destruct node as
    [value| |message|value|value|properties|itemNodes|listNodes|variable
    |variableNode variableValueNode resultNode|preExecQueries resultNode
    |objectNode field objectType|objectNode
    |listNode itemVariable filterNode orderBy maxCount innerNode
    |listNode|objectNodes|listNode|lhs operator rhs|valueNode operator
    |condition expr1 expr2|valueNode type|objectType|edgeType sourceEntityNode sourceFieldSide
    |objectType objectNode|objectType listNode updates currentEntityVariable];
    cbn [mentions binds]; intros Hm Hb Hu; try discriminate Hm.
  - (* Object *)
    assert (Exists (fun p => throws (processNode (valueNode p) context)) properties) as Hex.
    { clear -IH Hm Hb Hu. induction properties as [|p ps IHps]; [discriminate|].
      cbn [existsb] in Hm, Hb. apply orb_false_iff in Hb as [Hb1 Hb2].
      apply orb_true_iff in Hm as [Hm|Hm].
      - apply Exists_cons_hd. by apply IH.
      - apply Exists_cons_tl. by apply IHps. }
    cbn [processNode]. destruct properties as [|p ps]; [by inversion Hex|].
    apply throws_bind_l. by apply (throws_processProperties context (p :: ps)).
  - (* List *)
    assert (Exists (fun n => throws (processNode n context)) itemNodes) as Hex.
    { clear -IH Hm Hb Hu. induction itemNodes as [|p ps IHps]; [discriminate|].
      cbn [existsb] in Hm, Hb. apply orb_false_iff in Hb as [Hb1 Hb2].
      apply orb_true_iff in Hm as [Hm|Hm].
      - apply Exists_cons_hd. by apply IH.
      - apply Exists_cons_tl. by apply IHps. }
    cbn [processNode]. destruct itemNodes as [|p ps]; [by inversion Hex|].
    apply throws_bind_l. by apply (throws_processItems context (p :: ps)).
  - (* ConcatLists *)
    assert (Exists (fun n => throws (processNode n context)) listNodes) as Hex.
    { clear -IH Hm Hb Hu. induction listNodes as [|p ps IHps]; [discriminate|].
      cbn [existsb] in Hm, Hb. apply orb_false_iff in Hb as [Hb1 Hb2].
      apply orb_true_iff in Hm as [Hm|Hm].
      - apply Exists_cons_hd. by apply IH.
      - apply Exists_cons_tl. by apply IHps. }
    cbn [processNode]. apply throws_bind_l. by apply (throws_processItems context listNodes).
  - (* Variable *)
    apply Nat.eqb_eq in Hm. cbn [processNode]. unfold getVariable, unbound in *.
    rewrite Hm, Hu. apply throws_throw.
  - (* VariableAssignment *)
    split_binds. cbn [processNode].
    apply (throws_bind_with (unbound v)).
    { intros gs newContext gs' Hrun. by eapply introduceVariable_unbound. }
    intros newContext Hnew. apply throws_bind_r. intros tmpVar.
    apply orb_true_iff in Hm as [Hm|Hm]; find_throw IH.
  - (* WithPreExecution *)
    apply orb_false_iff in Hb as [Hb1 Hb2].
    assert (noResultIs v preExecQueries) as Hno.
    { clear -Hb1. induction preExecQueries as [|p ps IHps]; [constructor|].
      cbn [existsb] in Hb1. apply orb_false_iff in Hb1 as [Hp Hps].
      apply orb_false_iff in Hp as [Hp _]. constructor; [exact Hp|by apply IHps]. }
    rewrite processNode_WithPreExecution.
    apply orb_true_iff in Hm as [Hm|Hm].
    + apply throws_bind_l, throws_addPreExecuteQueries; [exact Hno|exact Hu|].
      clear -IH Hm Hb1. induction preExecQueries as [|p ps IHps]; [discriminate|].
      cbn [existsb] in Hm, Hb1. apply orb_false_iff in Hb1 as [Hp Hps].
      apply orb_false_iff in Hp as [_ Hp].
      apply orb_true_iff in Hm as [Hm|Hm].
      * apply Exists_cons_hd. intros ctx Hctx. by apply IH.
      * apply Exists_cons_tl. by apply IHps.
    + apply (throws_bind_with (unbound v)).
      { intros gs newContext gs' Hrun. by eapply addPreExecuteQueries_unbound. }
      intros newContext Hnew. by apply IH.
  - (* Field *) cbn [processNode]. find_throw IH.
  - (* RootEntityID *) cbn [processNode]. find_throw IH.
  - (* TransformList *)
    apply orb_false_iff in Hb as [Hb Hbi]. apply orb_false_iff in Hb as [Hb Hbo].
    apply orb_false_iff in Hb as [Hb Hbf]. apply orb_false_iff in Hb as [Hbx Hbl].
    rewrite processNode_TransformList.
    apply (throws_bind_with (unbound v)).
    { intros gs newContext gs' Hrun. by eapply introduceVariable_unbound. }
    intros itemContext Hitem. apply throws_bind_r. intros itemVar.
    apply orb_true_iff in Hm as [Hm|Hm]; [apply orb_true_iff in Hm as [Hm|Hm];
                                          [apply orb_true_iff in Hm as [Hm|Hm]|]|].
    + (* the list *)
      apply throws_bind_r. intros comparator. apply throws_bind_l. by apply IH.
    + (* the filter *)
      apply throws_bind_r. intros comparator. apply throws_bind_r. intros list.
      apply throws_bind_l.
      assert (throws (pred <- processNode filterNode itemContext ;;
                      ret (EFilter list itemVar pred))) as Hfiltered
        by (apply throws_bind_l; by apply IH).
      destruct filterNode as [| | |[|]| | | | | | | | | | | | | | | | | | | | |];
        first [exact Hfiltered | discriminate Hm].
    + (* an ordering clause *)
      apply throws_bind_l.
      assert (Exists (fun c => throws (processNode (clauseValueNode c) itemContext)) orderBy)
        as Hex.
      { clear -IH Hm Hbo Hitem. induction orderBy as [|p ps IHps]; [discriminate|].
        cbn [existsb] in Hm, Hbo. apply orb_false_iff in Hbo as [Hb1 Hb2].
        apply orb_true_iff in Hm as [Hm|Hm].
        - apply Exists_cons_hd. by apply IH.
        - apply Exists_cons_tl. by apply IHps. }
      destruct orderBy as [|c cs]; [by inversion Hex|].
      apply throws_bind_l. by apply throws_processClauses.
    + (* the inner node *)
      apply throws_bind_r. intros comparator. apply throws_bind_r. intros list.
      apply throws_bind_r. intros filtered. cbn zeta.
      assert (isVariable innerNode itemVariable = false) as ->.
      { destruct innerNode; try reflexivity. cbn in Hm |- *.
        apply Nat.eqb_eq in Hm. rewrite Hm. by rewrite Nat.eqb_sym. }
      cbn [negb]. apply throws_bind_l. by apply IH.
  - (* Count *) cbn [processNode]. find_throw IH.
  - (* MergeObjects *)
    assert (Exists (fun n => throws (processNode n context)) objectNodes) as Hex.
    { clear -IH Hm Hb Hu. induction objectNodes as [|p ps IHps]; [discriminate|].
      cbn [existsb] in Hm, Hb. apply orb_false_iff in Hb as [Hb1 Hb2].
      apply orb_true_iff in Hm as [Hm|Hm].
      - apply Exists_cons_hd. by apply IH.
      - apply Exists_cons_tl. by apply IHps. }
    cbn [processNode]. apply throws_bind_l. by apply (throws_processItems context objectNodes).
  - (* FirstOfList *) cbn [processNode]. find_throw IH.
  - (* BinaryOperation *)
    split_binds. cbn [processNode]. apply orb_true_iff in Hm as [Hm|Hm]; find_throw IH.
  - (* UnaryOperation *)
    cbn [processNode]. destruct operator; find_throw IH.
  - (* Conditional *)
    split_binds. cbn [processNode].
    apply orb_true_iff in Hm as [Hm|Hm]; [apply orb_true_iff in Hm as [Hm|Hm]|];
      find_throw IH.
  - (* TypeCheck *) cbn [processNode]. find_throw IH.
  - (* FollowEdge *) cbn [processNode]. cbn zeta. find_throw IH.
  - (* CreateEntity *) cbn [processNode]. find_throw IH.
  - (* UpdateEntities *)
    apply orb_false_iff in Hb as [Hb Hbu]. apply orb_false_iff in Hb as [Hbx Hbl].
    rewrite processNode_UpdateEntities.
    apply (throws_bind_with (unbound v)).
    { intros gs newContext gs' Hrun. by eapply introduceVariable_unbound. }
    intros newContext Hnew. apply throws_bind_r. intros entityVar.
    apply orb_true_iff in Hm as [Hm|Hm].
    + apply throws_bind_r. intros updateObject. apply throws_bind_l. by apply IH.
    + apply throws_bind_l.
      assert (Exists (fun p => throws (processNode (valueNode p) newContext)) updates) as Hex.
      { clear -IH Hm Hbu Hnew. induction updates as [|p ps IHps]; [discriminate|].
        cbn [existsb] in Hm, Hbu. apply orb_false_iff in Hbu as [Hb1 Hb2].
        apply orb_true_iff in Hm as [Hm|Hm].
        - apply Exists_cons_hd. by apply IH.
        - apply Exists_cons_tl. by apply IHps. }
      destruct updates as [|p ps]; [by inversion Hex|].
      apply throws_bind_l. by apply throws_processProperties.
Qed.

End ScopeFacts.

(** C8.  Each pre-execution query of a WithPreExecution node is compiled by
    [addPreExecuteQuery] in the scope [newPreExecContext] of the context the
    steps before it produced, with a [preExecQueries] array of its own.  The
    variable map of that scope holds exactly the bindings of the enclosing
    context that are query-result variables, that is, the results of steps
    declared before; no ordinary variable is in it.  A pre-execution query
    that is a reference to an ordinary variable of the enclosing scope
    therefore fails to compile with "used but not introduced", at whatever
    position the step stands, once the steps before it have compiled; and a
    pre-execution query that refers to such a variable anywhere inside,
    without introducing it again, never compiles. *)
Theorem pre_execution_scope_is_isolated :
  (∀ (this : QueryContext) (parm : PreExecQueryParms QueryNode)
     (parms : list (PreExecQueryParms QueryNode)) (gs : GenState),
     addPreExecuteQueries (parm :: parms) this gs =
     (newContext <- addPreExecuteQuery this (query parm) (resultVariable parm)
                      (resultValidator parm) ;;
      addPreExecuteQueries parms newContext) gs)
  ∧ (∀ (this : QueryContext) (variableNode : VarId) (jsVariable : JSVariable),
       variableMap (newPreExecContext this) !! uid variableNode = Some jsVariable
       ↔ variableMap this !! uid variableNode = Some jsVariable
         ∧ isQueryResultVariable jsVariable = true)
  ∧ (∀ (context context' : QueryContext) (variable : VarId) (jsVariable : JSVariable)
       (before after : list (PreExecQueryParms QueryNode))
       (parm : PreExecQueryParms QueryNode) (resultNode : QueryNode) (gs gs' : GenState),
       variableMap context !! uid variable = Some jsVariable →
       isQueryResultVariable jsVariable = false →
       addPreExecuteQueries before context gs = Ok (context', gs') →
       query parm = VariableQueryNode variable →
       (∀ rv, resultVariable parm = Some rv → variableMap context' !! uid rv = None) →
       processNode (WithPreExecutionQueryNode (before ++ parm :: after) resultNode)
         context gs =
       Throw ("Variable " +:+ describeVariable variable +:+ " is used but not introduced"))
  ∧ (∀ (context context' : QueryContext) (variable : VarId) (jsVariable : JSVariable)
       (before after : list (PreExecQueryParms QueryNode))
       (parm : PreExecQueryParms QueryNode) (resultNode : QueryNode) (gs gs' : GenState),
       variableMap context !! uid variable = Some jsVariable →
       isQueryResultVariable jsVariable = false →
       addPreExecuteQueries before context gs = Ok (context', gs') →
       mentions (uid variable) (query parm) = true →
       binds (uid variable) (query parm) = false →
       ∃ e : string,
         processNode (WithPreExecutionQueryNode (before ++ parm :: after) resultNode)
           context gs = Throw e).
Proof.
  split; [|split; [|split]].
  - intros this parm parms gs. apply addPreExecuteQueries_step.
  - intros this variableNode jsVariable. apply newPreExecContext_lookup.
  - intros context context' variable jsVariable before after parm resultNode gs gs'
      Hlookup Hordinary Hbefore Hquery Hfresh.
    rewrite processNode_WithPreExecution. unfold bind at 1.
    rewrite addPreExecuteQueries_app. unfold bind at 1. rewrite Hbefore.
    rewrite addPreExecuteQueries_step. unfold bind at 1. rewrite Hquery.
    rewrite (addPreExecuteQuery_ordinary_reference context' variable jsVariable); try done.
    eapply addPreExecuteQueries_keeps; eauto.
  - intros context context' variable jsVariable before after parm resultNode gs gs'
      Hlookup Hordinary Hbefore Hmentions Hbinds.
    rewrite processNode_WithPreExecution. unfold bind at 1.
    rewrite addPreExecuteQueries_app. unfold bind at 1. rewrite Hbefore.
    rewrite addPreExecuteQueries_step. unfold bind at 1.
    assert (variableMap context' !! uid variable = Some jsVariable) as Hkept
      by (eapply addPreExecuteQueries_keeps; eauto).
    destruct (throws_addPreExecuteQuery context' (query parm) (resultVariable parm)
                (resultValidator parm)) with (gs := gs') as [e ->].
    + apply (processNode_unbound (uid variable)); [exact Hmentions|exact Hbinds|].
      exact (newPreExecContext_ordinary _ _ _ Hkept Hordinary).
    + by exists e.
Qed.

End ContextFacts.

Lemma pre_execution_scope_is_isolated_witness :
  processNode
    (WithPreExecutionQueryNode [mkPreExec (VariableQueryNode hero) None None] NullQueryNode)
    (mkContext {[ 0%nat := mkJSVar "hero" 0 false ]}) (mkGenState 1 []) =
  Throw "Variable $hero is used but not introduced"
  ∧ ∃ e : string,
      processNode
        (WithPreExecutionQueryNode [mkPreExec (heroField "name") None None] NullQueryNode)
        (mkContext {[ 0%nat := mkJSVar "hero" 0 false ]}) (mkGenState 1 []) = Throw e.
Proof.
  split.
  - exact (proj1 (proj2 (proj2 pre_execution_scope_is_isolated))
             (mkContext {[ 0%nat := mkJSVar "hero" 0 false ]})
             (mkContext {[ 0%nat := mkJSVar "hero" 0 false ]})
             hero (mkJSVar "hero" 0 false) [] []
             (mkPreExec (VariableQueryNode hero) None None) NullQueryNode
             (mkGenState 1 []) (mkGenState 1 [])
             eq_refl eq_refl eq_refl eq_refl
             (fun rv (Hrv : None = Some rv) =>
                match Hrv in _ = o return match o with Some _ => _ | None => True end with
                | eq_refl => I
                end)).
  - exact (proj2 (proj2 (proj2 pre_execution_scope_is_isolated))
             (mkContext {[ 0%nat := mkJSVar "hero" 0 false ]})
             (mkContext {[ 0%nat := mkJSVar "hero" 0 false ]})
             hero (mkJSVar "hero" 0 false) [] []
             (mkPreExec (heroField "name") None None) NullQueryNode
             (mkGenState 1 []) (mkGenState 1 [])
             eq_refl eq_refl eq_refl eq_refl eq_refl).
Defined.

End GeneratorFacts.

(* ===================================================================== *)
(** * Facts about the authorization transformers *)
(* ===================================================================== *)

Module AuthorizationFacts.
Import QueryTree Authorization.

(** C4 (amended).  For a FollowEdge node whose relation field exists on the
    source side and whose field-level READ verdict is GRANTED, the entity-level
    verdict decides: GRANTED returns the node unchanged; DENIED returns a
    RuntimeError whose message is built from the names of the target type,
    the source type and the field, and nothing else; CONDITIONAL returns,
    when the target type has an accessGroup field, the node as the list of a
    TransformList (no ordering, no cap, identity mapping) whose filter is the
    access condition on the accessGroup field of the item, and throws when
    the target type has no such field. *)
Theorem followEdge_entity_verdict_after_field_check :
  ∀ (AuthContext : Type)
    (getPermissionDescriptor :
       GraphQLObjectType → option GraphQLField → PermissionDescriptor AuthContext)
    (edgeType : EdgeType) (sourceEntityNode : QueryNode)
    (sourceFieldSide : RelationFieldEdgeSide) (authContext : AuthContext) (fresh : nat)
    (sourceField : GraphQLField),
    let node := FollowEdgeQueryNode edgeType sourceEntityNode sourceFieldSide in
    let sourceType := getTypeOfSide edgeType sourceFieldSide in
    let targetType := getTypeOfSide edgeType (invertRelationFieldEdgeSide sourceFieldSide) in
    let itemVar := mkVar "item" fresh in
    let result :=
      transformFollowEdgeQueryNode getPermissionDescriptor edgeType sourceEntityNode
        sourceFieldSide authContext fresh in
    getFieldOfSide edgeType sourceFieldSide = Some sourceField →
    fieldVerdict getPermissionDescriptor edgeType sourceFieldSide authContext = Some GRANTED →
    match entityVerdict getPermissionDescriptor edgeType sourceFieldSide authContext with
    | GRANTED => result = Ok node
    | DENIED =>
        result =
        Ok (RuntimeErrorQueryNode
              ("Not authorized to read " +:+ typeName targetType +:+ " objects by following "
               +:+ typeName sourceType +:+ "." +:+ fieldName sourceField))
    | CONDITIONAL =>
        match lookupField targetType "accessGroup" with
        | Some accessGroupField =>
            result =
            Ok (TransformListQueryNode node itemVar
                  (getAccessCondition (getPermissionDescriptor targetType None) authContext
                     READ
                     (FieldQueryNode (VariableQueryNode itemVar) accessGroupField targetType))
                  [] None (VariableQueryNode itemVar))
        | None =>
            result =
            Throw ("Root entity " +:+ typeName targetType
                   +:+ " has an accessGroup-based permission profile, but no accessGroup field")
        end
    end.
Proof.
  intros AuthContext getPermissionDescriptor edgeType sourceEntityNode sourceFieldSide
    authContext fresh sourceField node sourceType targetType itemVar result Hfield Hverdict.
  subst result. unfold transformFollowEdgeQueryNode, fieldVerdict, entityVerdict in *.
  rewrite Hfield in *. inversion Hverdict as [Haccess]. rewrite Haccess.
  fold targetType.
  destruct (canAccess (getPermissionDescriptor targetType None) authContext READ);
    try reflexivity.
  by destruct (lookupField targetType "accessGroup").
Qed.

Lemma followEdge_entity_verdict_after_field_check_witness :
  transformFollowEdgeQueryNode (sampleDescriptors GRANTED CONDITIONAL) heroMissions
    NullQueryNode FROM_SIDE ["agent"] 7 =
  Ok (TransformListQueryNode (FollowEdgeQueryNode heroMissions NullQueryNode FROM_SIDE)
        (mkVar "item" 7)
        (BinaryOperationQueryNode
           (FieldQueryNode (VariableQueryNode (mkVar "item" 7)) (mkField "accessGroup") Mission)
           IN (allowedGroups ["agent"]))
        [] None (VariableQueryNode (mkVar "item" 7))).
Proof.
  exact (followEdge_entity_verdict_after_field_check (list string)
           (sampleDescriptors GRANTED CONDITIONAL) heroMissions NullQueryNode FROM_SIDE
           ["agent"] 7%nat (mkField "missions") eq_refl eq_refl).
Defined.

(** C4 as stated fails: with an entity-level verdict GRANTED but a
    field-level verdict DENIED the node is not returned unchanged; a
    RuntimeError about the field is. *)
Lemma followEdge_granted_entity_behind_denied_field :
  entityVerdict (sampleDescriptors DENIED GRANTED) heroMissions FROM_SIDE ["agent"] = GRANTED
  ∧ transformFollowEdgeQueryNode (sampleDescriptors DENIED GRANTED) heroMissions
      NullQueryNode FROM_SIDE ["agent"] 7 =
    Ok (RuntimeErrorQueryNode "Not authorized to read Hero.missions")
  ∧ transformFollowEdgeQueryNode (sampleDescriptors DENIED GRANTED) heroMissions
      NullQueryNode FROM_SIDE ["agent"] 7 ≠
    Ok (FollowEdgeQueryNode heroMissions NullQueryNode FROM_SIDE).
Proof. split; [reflexivity|]. split; [reflexivity|]. discriminate. Qed.

End AuthorizationFacts.

(* ===================================================================== *)
(** * Facts about the execution of a guarded creation *)
(* ===================================================================== *)

Module ExecutionFacts.
Import QueryTree Authorization JS Semantics Generator Execution Samples GeneratorFacts.

Section ExecutorFacts.
Context {Database : Type}.
Variable runQuery : JSExpr → Env → Database → Result JSError Value * Database.

Lemma getExecutableQueries_unfold preExecQueries jsQuery resultVar resultValidator :
  getExecutableQueries (mkCompound preExecQueries jsQuery resultVar resultValidator) =
  getAllExecutableQueries preExecQueries ++ [mkExecutable jsQuery resultVar resultValidator].
Proof. reflexivity. Qed.

Lemma executeQueries_app first rest : ∀ results last db,
  executeQueries runQuery (first ++ rest) results last db =
  match executeQueries runQuery first results last db with
  | (Ok (results', last'), db') => executeQueries runQuery rest results' last' db'
  | (Throw e, db') => (Throw e, db')
  end.
Proof.
  induction first as [|q first IH]; intros results last db; [done|].
  cbn [app executeQueries].
  destruct (runQuery (code q) results db) as [[result|e] db']; [|done].
  destruct (validate (validator q) result); [|done].
  apply IH.
Qed.

(** A step whose validator rejects a result that is not truthy ends the
    transaction where it stands. *)
Lemma executeQueries_rejected condCode resultName errorMessage errorName rest
    results last db v db' :
  runQuery condCode results db = (Ok v, db') →
  truthy v = false →
  executeQueries runQuery
    (mkExecutable condCode resultName
       (Some (ErrorIfNotTruthyResultValidator errorMessage errorName)) :: rest)
    results last db =
  (Throw (ValidationFailed errorName errorMessage), db').
Proof.
  intros Hrun Hfalsy. cbn [executeQueries code validator]. rewrite Hrun.
  unfold validate. by rewrite Hfalsy.
Qed.

End ExecutorFacts.

Section CreateEntityFacts.
Context `{Externals}.

Lemma processNode_CreateEntity objectType objectNode context :
  processNode (CreateEntityQueryNode objectType objectNode) context =
  (objVar <- newJSVariable "obj" ;;
   idVar <- newJSVariable "id" ;;
   object <- processNode objectNode context ;;
   ret (EExecutingFunction
          [SConst objVar object;
           SConst idVar EGenerateID;
           SSetMember objVar ID_FIELD_NAME (EVar idVar);
           SPush (getCollectionNameForRootEntity objectType) (EVar objVar);
           SReturn (EVar idVar)])).
Proof. reflexivity. Qed.

Lemma newPreExecContext_empty : newPreExecContext emptyContext = emptyContext.
Proof. unfold newPreExecContext, emptyContext. cbn [variableMap]. by rewrite map_filter_empty. Qed.

Lemma appending_ret {A} (a : A) : appending (ret a).
Proof. intros gs a' gs' Hm. inversion Hm; subst. exists []. by rewrite app_nil_r. Qed.

Lemma appending_throw {A} (e : string) : appending (throw (A := A) e).
Proof. by intros gs a gs' Hm. Qed.

Lemma appending_bind {A B} (m : Gen A) (k : A → Gen B) :
  appending m → (∀ a, appending (k a)) → appending (bind m k).
Proof.
  intros Hm Hk gs b gs' Hrun. unfold bind in Hrun.
  destruct (m gs) as [[a gs1]|] eqn:Hstep; [|done].
  destruct (Hm _ _ _ Hstep) as [more1 Hmore1].
  destruct (Hk _ _ _ _ Hrun) as [more2 Hmore2].
  exists (more1 ++ more2). by rewrite Hmore2, Hmore1, app_assoc.
Qed.

Lemma appending_newJSVariable label : appending (newJSVariable label).
Proof.
  intros gs a gs' Hm. inversion Hm; subst. exists []. by rewrite app_nil_r.
Qed.

Lemma appending_newJSQueryResultVariable label : appending (newJSQueryResultVariable label).
Proof.
  intros gs a gs' Hm. inversion Hm; subst. exists []. by rewrite app_nil_r.
Qed.

Lemma appending_newNestedContextWithNewVariable this variableNode jsVariable :
  appending (newNestedContextWithNewVariable this variableNode jsVariable).
Proof.
  unfold newNestedContextWithNewVariable.
  destruct (variableMap this !! uid variableNode); [apply appending_throw|apply appending_ret].
Qed.

Lemma appending_introduceVariable this variableNode :
  appending (introduceVariable this variableNode).
Proof.
  apply appending_bind; [apply appending_newJSVariable|].
  intros variable. apply appending_newNestedContextWithNewVariable.
Qed.

Lemma appending_getVariable this variableNode : appending (getVariable this variableNode).
Proof.
  unfold getVariable.
  destruct (variableMap this !! uid variableNode); [apply appending_ret|apply appending_throw].
Qed.

Lemma appending_getJSVariable this variableNode : appending (getJSVariable this variableNode).
Proof.
  unfold getJSVariable.
  destruct (variableMap this !! uid variableNode); [apply appending_ret|apply appending_throw].
Qed.

Lemma appending_addPreExecuteQuery this preExecQuery resultVariable resultValidator :
  appending (addPreExecuteQuery this preExecQuery resultVariable resultValidator).
Proof.
  unfold addPreExecuteQuery. apply appending_bind.
  { destruct resultVariable as [rv|]; [|apply appending_ret].
    apply appending_bind; [apply appending_newJSQueryResultVariable|]. intros resultVar.
    apply appending_bind; [apply appending_newNestedContextWithNewVariable|]. intros newContext.
    apply appending_ret. }
  intros [resultVar newContext]. apply appending_bind.
  { intros gs jsQuery gs' Hm.
    destruct (createJSCompoundQuery _ _ _ _ _) as [[q gs1]|]; [|done].
    inversion Hm; subst. exists []. by rewrite app_nil_r. }
  intros jsQuery. apply appending_bind; [|intros _; apply appending_ret].
  intros gs [] gs' Hm. inversion Hm; subst. by exists [jsQuery].
Qed.

Lemma appending_addPreExecuteQueries parms :
  ∀ context, appending (addPreExecuteQueries parms context).
Proof.
  induction parms as [|parm parms IH]; intros context; [apply appending_ret|].
  intros gs a gs' Hm. rewrite addPreExecuteQueries_step in Hm. revert gs a gs' Hm.
  apply appending_bind; [apply appending_addPreExecuteQuery|]. intros newContext. apply IH.
Qed.

Lemma appending_processItems context ns :
  Forall (λ n, ∀ context, appending (processNode n context)) ns →
  appending (processItems context ns).
Proof.
  induction 1 as [|n ns Hn _ IH]; [apply appending_ret|].
  cbn [processItems]. apply appending_bind; [apply Hn|]. intros e.
  apply appending_bind; [apply IH|]. intros rest. apply appending_ret.
Qed.

Lemma appending_processProperties context ps :
  Forall (λ p, ∀ context, appending (processNode (valueNode p) context)) ps →
  appending (processProperties context ps).
Proof.
  induction 1 as [|p ps Hp _ IH]; [apply appending_ret|].
  cbn [processProperties]. apply appending_bind; [apply Hp|]. intros v.
  apply appending_bind; [apply IH|]. intros rest. apply appending_ret.
Qed.

Lemma appending_processClauses context cs :
  Forall (λ c, ∀ context, appending (processNode (clauseValueNode c) context)) cs →
  appending (processClauses context cs).
Proof.
  induction 1 as [|c cs Hc _ IH]; [apply appending_ret|].
  cbn [processClauses]. apply appending_bind; [apply Hc|]. intros key.
  apply appending_bind; [apply IH|]. intros rest. apply appending_ret.
Qed.

Ltac appending_step IH :=
  first
    [ apply appending_ret
    | apply appending_throw
    | apply IH
    | apply appending_newJSVariable
    | apply appending_introduceVariable
    | apply appending_getVariable
    | apply appending_getJSVariable
    | apply appending_bind; [|intros ?] ].

Lemma processNode_appending : ∀ node context, appending (processNode node context).
Proof.
  fix IH 1. intros node context.
  destruct node as
    [value| |message|value|value|properties|itemNodes|listNodes|variable
    |variableNode variableValueNode resultNode|preExecQueries resultNode
    |objectNode field objectType|objectNode
    |listNode itemVariable filterNode orderBy maxCount innerNode
    |listNode|objectNodes|listNode|lhs operator rhs|valueNode operator
    |condition expr1 expr2|valueNode type|objectType|edgeType sourceEntityNode sourceFieldSide
    |objectType objectNode|objectType listNode updates currentEntityVariable].
  - apply appending_ret.
  - apply appending_ret.
  - apply appending_ret.
  - apply appending_ret.
  - apply appending_ret.
  - cbn [processNode]. destruct properties as [|p ps]; [apply appending_ret|].
    apply appending_bind; [|intros ?; apply appending_ret].
    apply (appending_processProperties context (p :: ps)).
    generalize (p :: ps). intros l.
    induction l as [|q l IHl]; constructor; [intros c; apply IH|exact IHl].
  - cbn [processNode]. destruct itemNodes as [|n ns]; [apply appending_ret|].
    apply appending_bind; [|intros ?; apply appending_ret].
    apply (appending_processItems context (n :: ns)).
    generalize (n :: ns). intros l.
    induction l as [|q l IHl]; constructor; [intros c; apply IH|exact IHl].
  - cbn [processNode].
    apply appending_bind; [|intros ?; apply appending_ret].
    apply (appending_processItems context listNodes).
    induction listNodes as [|q l IHl]; constructor; [intros c; apply IH|exact IHl].
  - apply appending_getVariable.
  - cbn [processNode]. repeat appending_step IH.
  - rewrite processNode_WithPreExecution.
    apply appending_bind; [apply appending_addPreExecuteQueries|]. intros c. apply IH.
  - cbn [processNode]. repeat appending_step IH.
  - cbn [processNode]. repeat appending_step IH.
  - rewrite processNode_TransformList.
    apply appending_bind; [apply appending_introduceVariable|]. intros itemContext.
    apply appending_bind; [apply appending_getJSVariable|]. intros itemVar.
    apply appending_bind.
    { destruct orderBy as [|c cs]; [apply appending_ret|].
      apply appending_bind; [|intros ?; apply appending_ret].
      apply appending_processClauses. generalize (c :: cs). intros l.
      induction l as [|q l IHl]; constructor; [intros c'; apply IH|exact IHl]. }
    intros comparator. apply appending_bind; [apply IH|]. intros list.
    apply appending_bind.
    { assert (appending (pred <- processNode filterNode itemContext ;;
                         ret (EFilter list itemVar pred))) as Hfiltered
        by (apply appending_bind; [apply IH|intros ?; apply appending_ret]).
      destruct filterNode as [| | |[|]| | | | | | | | | | | | | | | | | | | | |];
        first [exact Hfiltered | apply appending_ret]. }
    intros filtered. cbn zeta.
    destruct (negb (isVariable innerNode itemVariable)); [|apply appending_ret].
    apply appending_bind; [apply IH|intros ?; apply appending_ret].
  - cbn [processNode]. repeat appending_step IH.
  - cbn [processNode].
    apply appending_bind; [|intros ?; apply appending_ret].
    apply (appending_processItems context objectNodes).
    induction objectNodes as [|q l IHl]; constructor; [intros c; apply IH|exact IHl].
  - cbn [processNode]. repeat appending_step IH.
  - cbn [processNode]. repeat appending_step IH.
    cbn zeta. destruct (getJSOperator operator); [apply appending_ret|].
    destruct operator; first [apply appending_ret|apply appending_throw].
  - cbn [processNode]. destruct operator; repeat appending_step IH.
  - cbn [processNode]. repeat appending_step IH.
  - cbn [processNode]. repeat appending_step IH. destruct type; apply appending_ret.
  - apply appending_ret.
  - cbn [processNode]. cbn zeta. repeat appending_step IH.
  - cbn [processNode]. repeat appending_step IH.
  - cbn [processNode].
    apply appending_bind; [apply appending_introduceVariable|]. intros newContext.
    apply appending_bind; [apply appending_getJSVariable|]. intros entityVar.
    apply appending_bind.
    { destruct updates as [|p ps]; [apply appending_ret|].
      apply appending_bind; [|intros ?; apply appending_ret].
      apply (appending_processProperties newContext (p :: ps)).
      generalize (p :: ps). intros l.
      induction l as [|q l IHl]; constructor; [intros c; apply IH|exact IHl]. }
    intros updateObject. cbn zeta. repeat appending_step IH.
Qed.



(** C5.  On a CreateEntity node with a CONDITIONAL verdict the transformer
    returns a WithPreExecution node whose result node is that CreateEntity
    and whose list of pre-execution steps has exactly one step: its query is
    the access condition on the object, it binds no result variable, and its
    validator is the error-if-not-truthy validator.  Whenever the operation
    compiles, the compiled condition with that validator is its first
    pre-execution query.  Run by the executor, the operation fails with the
    validator's error as soon as the condition evaluates to a value that is
    not truthy, and the database is the one the evaluation of the condition
    left: the code of the CreateEntity is never run, whatever the evaluation
    of queries does. *)
Theorem conditional_create_is_guarded :
  ∀ (AuthContext : Type)
    (getPermissionDescriptor :
       GraphQLObjectType → option GraphQLField → PermissionDescriptor AuthContext)
    (AUTHORIZATION_ERROR_NAME : string)
    (objectType : GraphQLObjectType) (objectNode : QueryNode) (authContext : AuthContext)
    (compiled : JSCompoundQuery),
    let descriptor := getPermissionDescriptor objectType None in
    let condition := getAccessCondition descriptor authContext WRITE objectNode in
    let errorMessage :=
      "Not authorized to " +:+ getExplanationForCondition descriptor authContext WRITE SET in
    let validator := ErrorIfNotTruthyResultValidator errorMessage AUTHORIZATION_ERROR_NAME in
    let transformed :=
      transformCreateEntityQueryNode getPermissionDescriptor AUTHORIZATION_ERROR_NAME
        objectType objectNode authContext in
    canAccess descriptor authContext WRITE = CONDITIONAL →
    getJSQuery transformed = Ok compiled →
    transformed =
      WithPreExecutionQueryNode [mkPreExec condition None (Some validator)]
        (CreateEntityQueryNode objectType objectNode)
    ∧ ∃ (condCode : JSExpr) (gsC : GenState) (more : list JSCompoundQuery),
        processNode condition emptyContext (mkGenState 1 []) = Ok (condCode, gsC)
        ∧ compoundPreExecQueries compiled =
          mkCompound (preExecQueries gsC) condCode None (Some validator) :: more
        ∧ ∀ (Database : Type)
            (runQuery : JSExpr → Env → Database → Result JSError Value * Database)
            (db db1 db2 : Database) (results : Env) (last v : Value),
            executeQueries runQuery (getAllExecutableQueries (preExecQueries gsC))
              [] VUndefined db = (Ok (results, last), db1) →
            runQuery condCode results db1 = (Ok v, db2) →
            truthy v = false →
            execute runQuery compiled db =
            (Throw (ValidationFailed AUTHORIZATION_ERROR_NAME errorMessage), db2).
Proof.
  intros AuthContext getPermissionDescriptor AUTHORIZATION_ERROR_NAME objectType objectNode
    authContext compiled descriptor condition errorMessage validator transformed
    Haccess Hcompiled.
  assert (transformed =
          WithPreExecutionQueryNode [mkPreExec condition None (Some validator)]
            (CreateEntityQueryNode objectType objectNode)) as Htransformed.
  { subst transformed. unfold transformCreateEntityQueryNode. fold descriptor.
    by rewrite Haccess. }
  split; [exact Htransformed|].
  rewrite Htransformed in Hcompiled. unfold getJSQuery in Hcompiled.
  unfold bind at 1, newJSQueryResultVariable in Hcompiled.
  cbn [nextJSVar Generator.preExecQueries] in Hcompiled.
  unfold createJSCompoundQuery, bind at 1 in Hcompiled.
  rewrite processNode_WithPreExecution in Hcompiled. unfold bind at 1 in Hcompiled.
  cbn [addPreExecuteQueries resultVariable query resultValidator] in Hcompiled.
  unfold bind at 1 in Hcompiled. unfold ret at 1 in Hcompiled.
  unfold bind at 1 in Hcompiled. cbn [fst snd nextJSVar] in Hcompiled.
  unfold createJSCompoundQuery, bind at 1 in Hcompiled.
  rewrite newPreExecContext_empty in Hcompiled.
  destruct (processNode condition emptyContext (mkGenState 1 [])) as [[condCode gsC]|]
    eqn:Hcond; [|done].
  exists condCode, gsC.
  unfold bind at 1 in Hcompiled. unfold ret at 1 in Hcompiled.
  cbn [nextJSVar Generator.preExecQueries app] in Hcompiled.
  rewrite processNode_CreateEntity in Hcompiled.
  unfold bind, newJSVariable, ret in Hcompiled.
  cbn [nextJSVar Generator.preExecQueries] in Hcompiled.
  fold validator in Hcompiled.
  set (step := mkCompound (preExecQueries gsC) condCode None (Some validator)) in *.
  destruct (processNode objectNode emptyContext _) as [[objectCode gsO]|] eqn:Hobject; [|done].
  destruct (processNode_appending _ _ _ _ _ Hobject) as [more Hmore].
  cbn [Generator.preExecQueries app] in Hmore.
  exists more. inversion Hcompiled as [Hshape]. cbn [compoundPreExecQueries].
  split; [reflexivity|]. split; [exact Hmore|].
  intros Database runQuery db db1 db2 results last v Hprefix Hrun Hfalsy.
  unfold execute. rewrite Hmore. rewrite getExecutableQueries_unfold.
  cbn [getAllExecutableQueries]. subst step. rewrite getExecutableQueries_unfold.
  rewrite <- !app_assoc. rewrite executeQueries_app, Hprefix.
  cbn [app]. subst validator.
  by rewrite (executeQueries_rejected _ _ _ _ _ _ _ _ _ _ _ Hrun Hfalsy).
Qed.

End CreateEntityFacts.

Lemma conditional_create_is_guarded_witness :
  ∃ (compiled : JSCompoundQuery),
    getJSQuery
      (transformCreateEntityQueryNode (sampleDescriptors GRANTED CONDITIONAL)
         "AuthorizationError" HeroType
         (ObjectQueryNode [mkProperty "accessGroup" (LiteralQueryNode (JString "secret"))])
         ["agent"]) = Ok compiled
    ∧ execute (fun e env st => match eval e env st with
                               | Ok (v, st') => (Ok v, st')
                               | Throw err => (Throw err, st)
                               end)
        compiled sampleStore =
      (Throw (ValidationFailed "AuthorizationError"
                "Not authorized to create objects with this access group"),
       mkStore (heap sampleStore ++ [[("accessGroup", VString "secret")]])
         (collections sampleStore) (nextID sampleStore)).
Proof.
  eexists. split; [cbv; reflexivity|].
  edestruct (conditional_create_is_guarded (list string)
               (sampleDescriptors GRANTED CONDITIONAL) "AuthorizationError" HeroType
               (ObjectQueryNode [mkProperty "accessGroup" (LiteralQueryNode (JString "secret"))])
               ["agent"])
    as (_ & condCode & gsC & more & Hcond & Hshape & Hexecute).
  - reflexivity.
  - cbv. reflexivity.
  - cbv in Hcond. inversion Hcond; subst. eapply Hexecute.
    + reflexivity.
    + vm_compute. reflexivity.
    + reflexivity.
Defined.

End ExecutionFacts.

(* ===================================================================== *)
(** * Facts about where the error pass leaves the errors *)
(* ===================================================================== *)

Module ErrorPlacementFacts.
Import ErrorPass ErrorPlacement ErrorPassFacts.

Lemma errorsOnlyAtOutput_object out c fields :
  errorsOnlyAtOutput out (JObject c fields) =
  if instanceofQueryNode c then
    (out || negb (instanceofRuntimeError c)) && errorsOnlyAtOutputFields out c fields
  else true.
Proof.
  cbn [errorsOnlyAtOutput]. destruct (instanceofQueryNode c); [|done]. f_equal.
  induction fields as [|[k w] fs IH]; [done|]. cbn [errorsOnlyAtOutputFields]. rewrite <- IH.
  f_equal. destruct w as [p|items|c' f']; cbn [errorsOnlyAtOutputSlot]; try done.
  induction items as [|x xs IHx]; [done|]. cbn [errorsOnlyAtOutputItems]. by rewrite IHx.
Qed.

Lemma errorAtOutput_object out c fields :
  errorAtOutput out (JObject c fields) =
  if instanceofQueryNode c then
    (out && instanceofRuntimeError c) || errorAtOutputFields out c fields
  else false.
Proof.
  cbn [errorAtOutput]. destruct (instanceofQueryNode c); [|done]. f_equal.
  induction fields as [|[k w] fs IH]; [done|]. cbn [errorAtOutputFields]. rewrite <- IH.
  f_equal. destruct w as [p|items|c' f']; cbn [errorAtOutputSlot]; try done.
  induction items as [|x xs IHx]; [done|]. cbn [errorAtOutputItems]. by rewrite IHx.
Qed.

(** ** Trees without errors off the output positions are left as they are *)

(** Nothing at all is met below a non-output position. *)
Lemma errorsOnlyAtOutputItems_false items :
  Forall (λ v, errorsOnlyAtOutput false v = true → errorsOf v = []) items →
  errorsOnlyAtOutputItems false items = true → errorsOfItems items = [].
Proof.
  induction 1 as [|x xs Hx _ IH]; [done|]. cbn [errorsOnlyAtOutputItems errorsOfItems].
  intros [Hhere Hrest]%andb_true_iff. by rewrite (Hx Hhere), (IH Hrest).
Qed.

Lemma errorsOnlyAtOutputFields_false c fields :
  Forall (λ kv, slotAll (λ v, errorsOnlyAtOutput false v = true → errorsOf v = []) (snd kv))
    fields →
  errorsOnlyAtOutputFields false c fields = true → errorsOfFields fields = [].
Proof.
  induction 1 as [|[k w] fs Hw _ IH]; [done|]. cbn [errorsOnlyAtOutputFields errorsOfFields andb].
  intros [Hhere Hrest]%andb_true_iff. rewrite (IH Hrest), app_nil_r.
  destruct w as [p|items|c' f']; cbn [errorsOfSlot errorsOnlyAtOutputSlot slotAll snd] in *;
    [done| |by apply Hw].
  by apply errorsOnlyAtOutputItems_false.
Qed.

Lemma errorsOnlyAtOutput_false_errorsOf v :
  errorsOnlyAtOutput false v = true → errorsOf v = [].
Proof.
  induction v as [p|items|c fields IH] using JSVal_nested_ind; try done.
  rewrite errorsOnlyAtOutput_object, errorsOf_object.
  destruct (instanceofQueryNode c); [|done]. cbn [orb].
  intros [Hc Hfields]%andb_true_iff. apply negb_true_iff in Hc. rewrite Hc. cbn [app].
  by apply (errorsOnlyAtOutputFields_false c).
Qed.


Lemma frameIsOutput_cons frame rest key :
  frameIsOutput (frame :: rest) key =
  isOutputNode frame && outputNodes.isOutputNode (clazz frame) key.
Proof. reflexivity. Qed.

Lemma visitItems_fixed c out k items st :
  Forall fixedAt items →
  errorsOnlyAtOutputItems (out && outputNodes.isOutputNode c (Some k)) items = true →
  visitItems items (Some k) (mkState [] (mkFrame c out :: st)) =
  (items, mkState [] (mkFrame c out :: st)).
Proof.
  induction 1 as [|x xs Hx _ IH]; cbn [errorsOnlyAtOutputItems visitItems]; [done|].
  intros [Hhere Hrest]%andb_true_iff.
  rewrite (Hx (Some k) (mkFrame c out :: st)) by done. by rewrite IH.
Qed.

Lemma visitFields_fixed c out fields st :
  Forall (λ kv, slotAll fixedAt (snd kv)) fields →
  errorsOnlyAtOutputFields out c fields = true →
  visitFields fields (mkState [] (mkFrame c out :: st)) =
  (fields, mkState [] (mkFrame c out :: st)).
Proof.
  induction 1 as [|[k w] fs Hw _ IH]; cbn [errorsOnlyAtOutputFields visitFields]; [done|].
  intros [Hhere Hrest]%andb_true_iff.
  assert (visitObjectOrArray w k (mkState [] (mkFrame c out :: st)) =
          (w, mkState [] (mkFrame c out :: st))) as ->.
  { destruct w as [p|items|c' f'];
      cbn [visitObjectOrArray slotAll snd errorsOnlyAtOutputSlot] in *; [done| |].
    - by rewrite (visitItems_fixed c out k items st).
    - by apply Hw. }
  by rewrite IH.
Qed.

(** An error node has no output slot, so nothing below it is at an output
    position. *)
Lemma errorsOnlyAtOutputFields_error out c fields :
  instanceofRuntimeError c = true →
  errorsOnlyAtOutputFields out c fields = true → errorsOfFields fields = [].
Proof.
  intros Hc. destruct c; try discriminate Hc.
  induction fields as [|[k w] fs IH]; [done|]. cbn [errorsOnlyAtOutputFields errorsOfFields].
  intros [Hw Hfs]%andb_true_iff. rewrite (IH Hfs), app_nil_r.
  replace (out && outputNodes.isOutputNode RuntimeErrorQueryNode (Some k)) with false in Hw
    by (by destruct out).
  destruct w as [p|items|c' f']; cbn [errorsOnlyAtOutputSlot errorsOfSlot] in *; [done| |].
  - apply errorsOnlyAtOutputItems_false; [|done].
    apply Forall_forall. intros x _. apply errorsOnlyAtOutput_false_errorsOf.
  - by apply errorsOnlyAtOutput_false_errorsOf.
Qed.

Lemma visitFields_error c fields el st :
  instanceofRuntimeError c = true →
  visitFields fields (mkState el (mkFrame c true :: st)) =
  (fields, mkState (el ++ errorsOfFields fields) (mkFrame c true :: st)).
Proof.
  intros Hc. destruct c; try discriminate Hc. revert el.
  induction fields as [|[k w] fs IH]; intros el; cbn [visitFields errorsOfFields].
  - by rewrite app_nil_r.
  - assert (visitObjectOrArray w k (mkState el (mkFrame RuntimeErrorQueryNode true :: st)) =
            (w, mkState (el ++ errorsOfSlot w) (mkFrame RuntimeErrorQueryNode true :: st)))
      as ->.
    { destruct w as [p|items|c' f']; cbn [visitObjectOrArray errorsOfSlot].
      - by rewrite app_nil_r.
      - rewrite visitItems_nonoutput; [done| |done].
        apply Forall_forall. intros x _. apply visitObject_nonoutput.
      - by rewrite visitObject_nonoutput. }
    rewrite IH. by rewrite app_assoc.
Qed.

Lemma visitObject_fixed v : fixedAt v.
Proof.
  induction v as [p|items|c fields IH] using JSVal_nested_ind; intros key st; try done.
  rewrite errorsOnlyAtOutput_object, visitObject_unfold, enter_object.
  destruct (instanceofQueryNode c) eqn:Hq; [|done].
  intros [Hhere Hfields]%andb_true_iff. cbn [errorList stack].
  destruct (instanceofRuntimeError c) eqn:Herr.
  - rewrite orb_false_r in Hhere. rewrite Hhere in *.
    rewrite visitFields_error by done.
    rewrite (errorsOnlyAtOutputFields_error _ _ _ Herr Hfields).
    unfold leave. cbn. done.
  - rewrite (visitFields_fixed c _ fields st IH Hfields). unfold leave. cbn.
    by rewrite andb_false_r.
Qed.

(** X1.  A tree in which every RuntimeError node the traversal meets sits at
    an output position (a tree without errors in particular) is returned by
    the error pass exactly as it is. *)
Theorem errors_at_output_positions_stay :
  ∀ tree : JSVal,
    errorsOnlyAtOutput true tree = true → moveErrorsToOutputNodes tree = tree.
Proof.
  intros tree Hplaced. unfold moveErrorsToOutputNodes.
  by rewrite (visitObject_fixed tree None [] Hplaced).
Qed.

(** ** Errors that are met end up at an output position *)

Lemma errorsOfItems_errors items :
  Forall (λ v, Forall (λ e, isRuntimeError e = true) (errorsOf v)) items →
  Forall (λ e, isRuntimeError e = true) (errorsOfItems items).
Proof.
  induction 1 as [|x xs Hx _ IH]; [constructor|]. cbn [errorsOfItems].
  by apply Forall_app.
Qed.

Lemma errorsOf_errors v : Forall (λ e, isRuntimeError e = true) (errorsOf v).
Proof.
  induction v as [p|items|c fields IH] using JSVal_nested_ind; try constructor.
  rewrite errorsOf_object. destruct (instanceofQueryNode c) eqn:Hq; [|constructor].
  apply Forall_app. split.
  - destruct (instanceofRuntimeError c) eqn:Herr; [|constructor].
    constructor; [|constructor]. cbn. by rewrite Hq, Herr.
  - clear Hq. induction IH as [|[k w] fs Hw _ IHfs]; [constructor|].
    cbn [errorsOfFields]. apply Forall_app. split; [|exact IHfs].
    destruct w as [p|items|c' f']; cbn [errorsOfSlot slotAll snd] in *;
      [constructor| |exact Hw].
    by apply errorsOfItems_errors.
Qed.

Lemma errorsOfSlot_errors w : Forall (λ e, isRuntimeError e = true) (errorsOfSlot w).
Proof.
  destruct w as [p|items|c f]; cbn [errorsOfSlot]; [constructor| |apply errorsOf_errors].
  apply errorsOfItems_errors, Forall_forall. intros x _. apply errorsOf_errors.
Qed.

Lemma pendingAfterChild_errors c k x el :
  Forall (λ e, isRuntimeError e = true) el →
  Forall (λ e, isRuntimeError e = true) (pendingAfterChild c k x el).
Proof.
  intros Hel. unfold pendingAfterChild. destruct (_ && _); [constructor|].
  apply Forall_app. split; [done|apply errorsOf_errors].
Qed.

Lemma pendingAfterItems_errors c k items : ∀ el,
  Forall (λ e, isRuntimeError e = true) el →
  Forall (λ e, isRuntimeError e = true) (pendingAfterItems c k items el).
Proof.
  induction items as [|x xs IH]; intros el Hel; [done|]. cbn [pendingAfterItems].
  by apply IH, pendingAfterChild_errors.
Qed.

Lemma pendingAfterSlot_errors c k w el :
  Forall (λ e, isRuntimeError e = true) el →
  Forall (λ e, isRuntimeError e = true) (pendingAfterSlot c k w el).
Proof.
  destruct w as [p|items|c' f']; cbn [pendingAfterSlot]; [done| |].
  - apply pendingAfterItems_errors.
  - apply pendingAfterChild_errors.
Qed.

Lemma pendingAfterFields_errors c fields : ∀ el,
  Forall (λ e, isRuntimeError e = true) el →
  Forall (λ e, isRuntimeError e = true) (pendingAfterFields c fields el).
Proof.
  induction fields as [|[k w] fs IH]; intros el Hel; [done|]. cbn [pendingAfterFields].
  by apply IH, pendingAfterSlot_errors.
Qed.

(** What an output node is replaced with is an error at its position. *)
Lemma collapse_errorAtOutput e rest :
  Forall (λ e, isRuntimeError e = true) (e :: rest) →
  errorAtOutput true (collapse (e :: rest)) = true.
Proof.
  intros Herrors. destruct rest as [|e' rest']; [|reflexivity].
  cbn [collapse]. inversion Herrors as [|? ? He _]; subst.
  destruct e as [p|items|c fields]; try discriminate He.
  cbn [isRuntimeError] in He. apply andb_true_iff in He as [Hq Herr].
  by rewrite errorAtOutput_object, Hq, Herr.
Qed.


Lemma visitItems_surfaces c k items :
  Forall surfaces items →
  ∀ el st,
    Forall (λ e, isRuntimeError e = true) el →
    el ++ errorsOfItems items ≠ [] →
    pendingAfterItems c k items el = [] →
    errorAtOutputItems (outputNodes.isOutputNode c (Some k))
      (fst (visitItems items (Some k) (mkState el (mkFrame c true :: st)))) = true.
Proof.
  induction 1 as [|x xs Hx _ IH]; intros el st Hel Hsome Hnone.
  - cbn in *. rewrite app_nil_r in Hsome. done.
  - cbn [visitItems pendingAfterItems errorsOfItems] in *.
    pose proof (visitItems_pending c k [x] el st) as [Hp Hs].
    cbn [visitItems pendingAfterItems] in Hp, Hs.
    destruct (visitObject x (Some k) (mkState el (mkFrame c true :: st))) as [x' [el' st']]
      eqn:Hvisit.
    cbn [fst snd errorList stack] in Hp, Hs. subst el' st'.
    specialize (IH (pendingAfterChild c k x el) st (pendingAfterChild_errors c k x el Hel)).
    destruct (visitItems xs (Some k) _) as [xs' s''] eqn:Hrest.
    cbn [fst errorAtOutputItems] in *.
    destruct (decide (pendingAfterChild c k x el ++ errorsOfItems xs = [])) as [Hquiet|Hloud].
    + apply app_eq_nil in Hquiet as [Hchild Hxs]. apply orb_true_iff. left.
      unfold pendingAfterChild in Hchild.
      destruct (isQueryNode x) eqn:Hq; cbn [andb] in Hchild.
      * destruct (outputNodes.isOutputNode c (Some k)) eqn:Ho.
        -- pose proof (Hx (Some k) (mkFrame c true :: st) el Hq) as Hsurf.
           rewrite Hvisit in Hsurf. cbn [fst frameIsOutput isOutputNode clazz andb] in Hsurf.
           apply Hsurf; [exact Ho|exact Hel|].
           intros Hnil. apply Hsome. apply app_eq_nil in Hnil as [-> ->]. by rewrite Hxs.
        -- exfalso. apply Hsome. apply app_eq_nil in Hchild as [-> ->]. by rewrite Hxs.
      * exfalso. apply Hsome. apply app_eq_nil in Hchild as [-> ->]. by rewrite Hxs.
    + apply orb_true_iff. right. by apply IH.
Qed.

Lemma visitFields_surfaces c fields :
  Forall (λ kv, slotAll surfaces (snd kv)) fields →
  ∀ el st,
    Forall (λ e, isRuntimeError e = true) el →
    el ++ errorsOfFields fields ≠ [] →
    pendingAfterFields c fields el = [] →
    errorAtOutputFields true c
      (fst (visitFields fields (mkState el (mkFrame c true :: st)))) = true.
Proof.
  induction 1 as [|[k w] fs Hw _ IH]; intros el st Hel Hsome Hnone.
  - cbn in *. rewrite app_nil_r in Hsome. done.
  - cbn [visitFields pendingAfterFields errorsOfFields] in *.
    assert (snd (visitObjectOrArray w k (mkState el (mkFrame c true :: st))) =
            mkState (pendingAfterSlot c k w el) (mkFrame c true :: st)) as Hstate.
    { pose proof (visitFields_pending c [(k, w)] el st) as Hp.
      pose proof (visitFields_restores [(k, w)] (mkState el (mkFrame c true :: st))) as Hs.
      cbn [visitFields pendingAfterFields] in Hp, Hs.
      destruct (visitObjectOrArray w k _) as [w' [el' st']]. cbn in *. by subst. }
    destruct (visitObjectOrArray w k (mkState el (mkFrame c true :: st))) as [w' s'] eqn:Hvisit.
    cbn [snd] in Hstate. subst s'.
    specialize (IH (pendingAfterSlot c k w el) st (pendingAfterSlot_errors c k w el Hel)).
    destruct (visitFields fs _) as [fs' s''] eqn:Hrest.
    cbn [fst errorAtOutputFields andb] in *.
    destruct (decide (pendingAfterSlot c k w el ++ errorsOfFields fs = [])) as [Hquiet|Hloud].
    + apply app_eq_nil in Hquiet as [Hslot Hfs]. apply orb_true_iff. left.
      assert (el ++ errorsOfSlot w ≠ []) as Hhere.
      { intros Hnil. apply Hsome. apply app_eq_nil in Hnil as [-> Hw0].
        by rewrite Hw0, Hfs. }
      destruct w as [p|items|c' f'];
        cbn [visitObjectOrArray pendingAfterSlot errorsOfSlot slotAll snd] in *.
      * exfalso. apply Hhere. by rewrite Hslot.
      * pose proof (visitItems_surfaces c k items Hw el st Hel Hhere Hslot) as Hitems.
        destruct (visitItems items (Some k) _) as [items' s1].
        inversion Hvisit; subst. exact Hitems.
      * pose proof (visitItems_surfaces c k [JObject c' f']
                      (Forall_cons_2 _ _ _ Hw (Forall_nil_2 _)) el st Hel) as Hitems.
        cbn [visitItems pendingAfterItems errorsOfItems] in Hitems.
        rewrite Hvisit in Hitems. cbn [fst errorAtOutputItems] in Hitems.
        rewrite app_nil_r, orb_false_r in Hitems.
        specialize (Hitems Hhere Hslot). by destruct w'.
    + apply orb_true_iff. right. by apply IH.
Qed.

Lemma visitObject_surfaces v : surfaces v.
Proof.
  induction v as [p|items|c fields IH] using JSVal_nested_ind;
    intros key st el Hq Hout Hel Hsome; try discriminate Hq.
  cbn [isQueryNode] in Hq.
  rewrite errorsOf_object, Hq in Hsome.
  rewrite visitObject_unfold, enter_object, Hq. cbn [stack errorList]. rewrite Hout.
  set (entered := if instanceofRuntimeError c then el ++ [JObject c fields] else el).
  assert (Forall (λ e, isRuntimeError e = true) entered) as Hentered.
  { subst entered. destruct (instanceofRuntimeError c) eqn:Herr; [|exact Hel].
    apply Forall_app. split; [exact Hel|]. constructor; [|constructor].
    cbn. by rewrite Hq, Herr. }
  assert (entered ++ errorsOfFields fields ≠ []) as Hmet.
  { subst entered. destruct (instanceofRuntimeError c); [|exact Hsome].
    intros Hnil. apply app_eq_nil in Hnil as [Hnil _]. by apply app_eq_nil in Hnil as [_ ?]. }
  pose proof (visitFields_surfaces c fields IH entered st Hentered Hmet) as Hfields.
  pose proof (visitFields_pending c fields entered st) as Hp.
  pose proof (visitFields_restores fields (mkState entered (mkFrame c true :: st))) as Hs.
  destruct (visitFields fields (mkState entered (mkFrame c true :: st))) as [fields' [el2 st2]].
  cbn [fst snd errorList stack] in *. subst el2 st2.
  unfold leave. cbn [stack isOutputNode errorList andb].
  pose proof (pendingAfterFields_errors c fields entered Hentered) as Hpending.
  destruct (pendingAfterFields c fields entered) as [|e rest] eqn:Hcollected.
  - cbn [length Nat.eqb negb fst]. rewrite errorAtOutput_object, Hq.
    apply orb_true_iff. right. by apply Hfields.
  - cbn [length Nat.eqb negb fst]. by apply collapse_errorAtOutput.
Qed.

(** X2.  If the traversal meets any RuntimeError node in a query tree, the
    tree the error pass returns has at least one RuntimeError node at an
    output position.  Which of the errors it stands for is not said. *)
Theorem errors_reach_an_output_position :
  ∀ tree : JSVal,
    isQueryNode tree = true → errorsOf tree ≠ [] →
    errorAtOutput true (moveErrorsToOutputNodes tree) = true.
Proof.
  intros tree Hq Herrors. unfold moveErrorsToOutputNodes.
  by apply visitObject_surfaces.
Qed.

End ErrorPlacementFacts.

(* ===================================================================== *)
(** * Facts about following an edge *)
(* ===================================================================== *)

Module GraphFacts.
Import QueryTree JS Semantics Generator Reference Samples Graph GeneratorFacts.

Section FollowEdgeFacts.
Context `{Externals} `{Runtime}.

Lemma filterM_pure (f : Value → Eval Value) (p : Value → bool) items st :
  (∀ item, In item items → ∃ v, f item st = Ok (v, st) ∧ truthy v = p item) →
  filterM f items st = Ok (List.filter p items, st).
Proof.
  induction items as [|item items IH]; intros Hf; [done|].
  cbn [filterM List.filter]. unfold bind, ret in *.
  destruct (Hf item (or_introl eq_refl)) as (v & -> & ->).
  rewrite IH; [by destruct (p item)|]. intros x Hx. apply Hf. by right.
Qed.

Lemma mapM_pure_in {A} (f : Value → Eval A) (g : Value → A) items st :
  (∀ item, In item items → f item st = Ok (g item, st)) →
  mapM f items st = Ok (List.map g items, st).
Proof.
  induction items as [|item items IH]; intros Hf; [done|].
  cbn [mapM List.map]. unfold bind, ret in *.
  rewrite (Hf item (or_introl eq_refl)), IH; [done|]. intros x Hx. apply Hf. by right.
Qed.

Lemma findM_pure (f : Value → Eval Value) (p : Value → bool) items st :
  (∀ item, In item items → ∃ v, f item st = Ok (v, st) ∧ truthy v = p item) →
  findM f items st =
  Ok (match List.find p items with Some found => found | None => VUndefined end, st).
Proof.
  induction items as [|item items IH]; intros Hf; [done|].
  cbn [findM List.find]. unfold bind, ret in *.
  destruct (Hf item (or_introl eq_refl)) as (v & -> & ->).
  destruct (p item); [done|]. apply IH. intros x Hx. apply Hf. by right.
Qed.

Lemma eval_EFind e x body env :
  eval (EFind e x body) env =
  (v <- eval e env ;; items <- asList v ;;
   findM (fun item => eval body (bindVar x item env)) items).
Proof. reflexivity. Qed.

Lemma getMember_property st v name w :
  propertyOf st v name = Some w → getMember v name st = Ok (w, st).
Proof.
  unfold propertyOf. destruct v as [| | | | | |address]; try done.
  cbn [getMember]. unfold bind, readObject, liftResult, readProperty, ownProperty.
  destruct (heap st !! address) as [object|]; [|done].
  by destruct (List.find _ object) as [[k x]|]; [intros [= ->]|].
Qed.

Lemma getMember_string st v name s :
  stringProperty st v name = Some s → getMember v name st = Ok (VString s, st).
Proof.
  unfold stringProperty. destruct (propertyOf st v name) as [[| | | |s'| |]|] eqn:Hp; try done.
  intros [= ->]. by apply getMember_property.
Qed.

Lemma eval_filter_pure e x body env st items st1 (p : Value → bool) :
  eval e env st = Ok (VList items, st1) →
  (∀ item, In item items →
     ∃ v, eval body (bindVar x item env) st1 = Ok (v, st1) ∧ truthy v = p item) →
  eval (EFilter e x body) env st = Ok (VList (List.filter p items), st1).
Proof.
  intros He Hbody. rewrite eval_EFilter. unfold bind at 1. rewrite He.
  unfold bind at 1. cbn [asList]. unfold ret at 1. unfold bind.
  by rewrite (filterM_pure _ p).
Qed.

Lemma eval_map_pure e x body env st items st1 (g : Value → Value) :
  eval e env st = Ok (VList items, st1) →
  (∀ item, In item items → eval body (bindVar x item env) st1 = Ok (g item, st1)) →
  eval (EMap e x body) env st = Ok (VList (List.map g items), st1).
Proof.
  intros He Hbody. rewrite eval_EMap. unfold bind at 1. rewrite He.
  unfold bind at 1. cbn [asList]. unfold ret at 1. unfold bind.
  by rewrite (mapM_pure_in _ g).
Qed.

Lemma eval_find_pure e x body env st items st1 (p : Value → bool) :
  eval e env st = Ok (VList items, st1) →
  (∀ item, In item items →
     ∃ v, eval body (bindVar x item env) st1 = Ok (v, st1) ∧ truthy v = p item) →
  eval (EFind e x body) env st =
  Ok (match List.find p items with Some found => found | None => VUndefined end, st1).
Proof.
  intros He Hbody. rewrite eval_EFind. unfold bind at 1. rewrite He.
  unfold bind at 1. cbn [asList]. unfold ret at 1.
  by rewrite (findM_pure _ p).
Qed.

Lemma eval_ECollection name env st items :
  collections st !! name = Some items → eval (ECollection name) env st = Ok (VList items, st).
Proof. intros Hc. cbn [eval]. by rewrite Hc. Qed.

Lemma eval_member_of_var x name env st v s :
  lookupVar env x = Some v → stringProperty st v name = Some s →
  eval (EMember (EVar x) name) env st = Ok (VString s, st).
Proof.
  intros Hx Hs. cbn [eval]. rewrite Hx. unfold bind, ret.
  by rewrite (getMember_string _ _ _ _ Hs).
Qed.

Lemma eval_binary_strict op l r env st a b st1 st2 :
  match op with OpAnd | OpOr => False | _ => True end →
  eval l env st = Ok (a, st1) → eval r env st1 = Ok (b, st2) →
  eval (EBinary op l r) env st = liftResult (applyOperator op a b) st2.
Proof.
  intros Hop Hl Hr. cbn [eval]. unfold bind. rewrite Hl.
  destruct op; try done; by rewrite Hr.
Qed.

Lemma eval_EMember e name env :
  eval (EMember e name) env = (v <- eval e env ;; getMember v name).
Proof. reflexivity. Qed.

Lemma isEdge_ends st edge side :
  isEdge st edge = true →
  ∃ near far,
    stringProperty st edge (endOfEdge side) = Some near
    ∧ stringProperty st edge (endOfEdge (invertRelationFieldEdgeSide side)) = Some far.
Proof.
  unfold isEdge. destruct (stringProperty st edge "_from") as [from|] eqn:Hfrom; [|done].
  destruct (stringProperty st edge "_to") as [to|] eqn:Hto; [|done]. intros _.
  destruct side; cbn; eauto.
Qed.

Lemma processNode_FollowEdge edgeType sourceEntityNode sourceFieldSide context :
  processNode (FollowEdgeQueryNode edgeType sourceEntityNode sourceFieldSide) context =
  (let targetType := getTypeOfSide edgeType (invertRelationFieldEdgeSide sourceFieldSide) in
   edgeVar <- newJSVariable "edge" ;;
   itemVar <- newJSVariable (decapitalize (typeName targetType)) ;;
   source <- processNode sourceEntityNode context ;;
   ret (EFilter
          (EMap
             (EFilter (ECollection (getCollectionNameForEdge edgeType)) edgeVar
                (EBinary OpLooseEq
                   (EMember (EVar edgeVar) (endOfEdge sourceFieldSide))
                   (EMember source ID_FIELD_NAME)))
             edgeVar
             (EFind (ECollection (getCollectionNameForRootEntity targetType)) itemVar
                (EBinary OpStrictEq (EMember (EVar itemVar) ID_FIELD_NAME)
                   (EMember (EVar edgeVar)
                      (endOfEdge (invertRelationFieldEdgeSide sourceFieldSide))))))
          itemVar (EVar itemVar))).
Proof. by destruct sourceFieldSide. Qed.


Lemma reachedTargets_stages st side sourceId edges targets :
  forallb (isEdge st) edges = true →
  forallb (hasStringId st) targets = true →
  List.filter truthy (List.map (farEnd st side targets)
                        (List.filter (leaves st side sourceId) edges)) =
  reachedTargets st side sourceId edges targets.
Proof.
  intros Hedges Htargets. unfold reachedTargets.
  induction edges as [|edge edges IH]; [done|].
  cbn [forallb] in Hedges. apply andb_true_iff in Hedges as [Hedge Hedges].
  cbn [List.filter List.flat_map]. rewrite <- (IH Hedges). clear IH.
  destruct (isEdge_ends st edge side Hedge) as (near & far & Hnear & Hfar).
  unfold leaves at 1. rewrite Hnear, Hfar.
  destruct (String.eqb near sourceId); [|done].
  cbn [List.map List.filter].
  assert (farEnd st side targets edge =
          match List.find (hasId st far) targets with
          | Some target => target
          | None => VUndefined
          end) as -> by (unfold farEnd; by rewrite Hfar).
  destruct (List.find (hasId st far) targets) as [target|] eqn:Hfind; [|done].
  apply List.find_some in Hfind as [Hin Hid].
  assert (truthy target = true) as ->; [|done].
  unfold hasId, stringProperty, propertyOf in Hid. by destruct target.
Qed.

(** X3.  On a store whose edges have string identifiers on both ends and
    whose target entities have string identifiers, the code generated for a
    FollowEdge node evaluates, without changing the store, to the entities
    reached from the source entity: for each edge that leaves the identifier
    of the source on the source side, in the order of the edge collection,
    the first entity of the target collection with the identifier on the
    far end; an edge whose far end names no entity contributes nothing. *)
Theorem followEdge_collects_targets :
  ∀ (edgeType : EdgeType) (sourceEntityNode : QueryNode)
    (sourceFieldSide : RelationFieldEdgeSide) (context : QueryContext) (gs gs' : GenState)
    (source : JSExpr) (env : Env) (st : Store) (sourceValue : Value) (sourceId : string)
    (edges targets : list Value),
    let targetType := getTypeOfSide edgeType (invertRelationFieldEdgeSide sourceFieldSide) in
    let edgeVar := mkJSVar "edge" (nextJSVar gs) false in
    processNode sourceEntityNode context
      (mkGenState (S (S (nextJSVar gs))) (preExecQueries gs)) = Ok (source, gs') →
    collections st !! getCollectionNameForEdge edgeType = Some edges →
    collections st !! getCollectionNameForRootEntity targetType = Some targets →
    forallb (isEdge st) edges = true →
    forallb (hasStringId st) targets = true →
    (∀ edge, eval source (bindVar edgeVar edge env) st = Ok (sourceValue, st)) →
    stringProperty st sourceValue "id" = Some sourceId →
    ∃ code : JSExpr,
      processNode (FollowEdgeQueryNode edgeType sourceEntityNode sourceFieldSide) context gs
        = Ok (code, gs')
      ∧ eval code env st =
        Ok (VList (reachedTargets st sourceFieldSide sourceId edges targets), st).
Proof.
  intros edgeType sourceEntityNode sourceFieldSide context gs gs' source env st sourceValue
    sourceId edges targets targetType edgeVar Hsource Hedges Htargets Hwfe Hwft Hpure Hid.
  set (itemVar := mkJSVar (decapitalize (typeName targetType)) (S (nextJSVar gs)) false).
  eexists. split.
  - rewrite processNode_FollowEdge. cbn zeta. unfold bind, newJSVariable, ret.
    cbn [nextJSVar preExecQueries]. rewrite Hsource. reflexivity.
  - fold targetType edgeVar itemVar. unfold ID_FIELD_NAME.
    rewrite <- (reachedTargets_stages st sourceFieldSide sourceId edges targets Hwfe Hwft).
    rewrite forallb_forall in Hwfe. rewrite forallb_forall in Hwft.
    apply eval_filter_pure.
    + apply eval_map_pure.
      * apply eval_filter_pure; [by apply eval_ECollection|].
        intros edge Hin.
        destruct (isEdge_ends st edge sourceFieldSide (Hwfe edge Hin))
          as (near & far & Hnear & Hfar).
        exists (VBool (String.eqb near sourceId)). split; [|unfold leaves; by rewrite Hnear].
        rewrite (eval_binary_strict OpLooseEq _ _ _ _ (VString near) (VString sourceId) st st);
          [done|done| |].
        -- apply (eval_member_of_var _ _ _ _ edge); [apply lookupVar_bindVar|done].
        -- rewrite eval_EMember. unfold bind. rewrite Hpure.
           by apply getMember_string.
      * intros edge [Hin _]%List.filter_In.
        destruct (isEdge_ends st edge sourceFieldSide (Hwfe edge Hin))
          as (near & far & Hnear & Hfar).
        assert (farEnd st sourceFieldSide targets edge =
                match List.find (hasId st far) targets with
                | Some target => target
                | None => VUndefined
                end) as -> by (unfold farEnd; by rewrite Hfar).
        apply eval_find_pure; [by apply eval_ECollection|].
        intros target Htarget. specialize (Hwft target Htarget). unfold hasStringId in Hwft.
        destruct (stringProperty st target "id") as [i|] eqn:Hi; [|done].
        exists (VBool (String.eqb i far)). split; [|unfold hasId; by rewrite Hi].
        rewrite (eval_binary_strict OpStrictEq _ _ _ _ (VString i) (VString far) st st);
          [done|done| |].
        -- apply (eval_member_of_var _ _ _ _ target); [apply lookupVar_bindVar|done].
        -- apply (eval_member_of_var _ _ _ _ edge); [|done].
           subst itemVar edgeVar. unfold bindVar. cbn [lookupVar jsId].
           destruct (Nat.eqb_spec (S (nextJSVar gs)) (nextJSVar gs)) as [Heq|_]; [lia|].
           by rewrite Nat.eqb_refl.
    + intros item _. exists item. split; [|done]. cbn [eval]. by rewrite lookupVar_bindVar.
Qed.

End FollowEdgeFacts.
End GraphFacts.

(* ===================================================================== *)
(** * Facts about the other processors *)
(* ===================================================================== *)

Module ProcessorFacts.
Import QueryTree JS Semantics Generator Reference Samples Graph Processors.
Import GeneratorFacts GraphFacts ExecutionFacts.

Section EntityFromIdFacts.
Context `{Externals} `{Runtime}.

Lemma eval_EIndex e key env :
  eval (EIndex e key) env = (v <- eval e env ;; k <- eval key env ;; getIndex v k).
Proof. reflexivity. Qed.

Lemma find_head_filter {A} (p : A → bool) l : List.find p l = head (List.filter p l).
Proof. induction l as [|x l IH]; [done|]. cbn. by destruct (p x). Qed.

Lemma processNode_FirstOfList listNode context :
  processNode (FirstOfListQueryNode listNode) context =
  (list <- processNode listNode context ;; ret (EIndex list (EInteger 0))).
Proof. reflexivity. Qed.

Lemma processNode_RootEntityID objectNode context :
  processNode (RootEntityIDQueryNode objectNode) context =
  (object <- processNode objectNode context ;; ret (EMember object ID_FIELD_NAME)).
Proof. reflexivity. Qed.

(** X4.  The code generated for an EntityFromId node evaluates to the first
    entity of the type's collection whose identifier is strictly equal to
    the wanted one, and to [undefined] when there is none; the store is
    left as it is. *)
Theorem entityFromId_finds_first :
  ∀ (objectType : GraphQLObjectType) (idNode : QueryNode) (fresh : nat)
    (context : QueryContext) (gs gs' : GenState) (idCode : JSExpr)
    (env : Env) (st : Store) (entities : list Value) (wanted : Value),
    let itemVar := mkJSVar (decapitalize (typeName objectType)) (nextJSVar gs) false in
    let itemContext := mkContext (<[fresh := itemVar]> (variableMap context)) in
    variableMap context !! fresh = None →
    processNode idNode itemContext (mkGenState (S (nextJSVar gs)) (preExecQueries gs))
      = Ok (idCode, gs') →
    collections st !! getCollectionNameForRootEntity objectType = Some entities →
    forallb (hasStringId st) entities = true →
    (∀ item, eval idCode (bindVar itemVar item env) st = Ok (wanted, st)) →
    ∃ code : JSExpr,
      processEntityFromId objectType idNode fresh context gs =
        Ok (code, mkGenState (S (S (nextJSVar gs'))) (preExecQueries gs'))
      ∧ eval code env st =
        Ok (match List.find (idEquals st wanted) entities with
            | Some entity => entity
            | None => VUndefined
            end, st).
Proof.
  intros objectType idNode fresh context gs gs' idCode env st entities wanted itemVar
    itemContext Hfresh Hid Hcoll Hwf Hpure.
  exists (EIndex (EFilter (ECollection (getCollectionNameForRootEntity objectType)) itemVar
                    (EBinary OpStrictEq (EMember (EVar itemVar) ID_FIELD_NAME) idCode))
            (EInteger 0)).
  split.
  - unfold processEntityFromId, newTransformList. rewrite processNode_FirstOfList.
    unfold bind at 1. rewrite processNode_TransformList.
    unfold bind at 1. unfold introduceVariable, bind at 1, newJSVariable.
    unfold newNestedContextWithNewVariable. cbn [uid label]. rewrite Hfresh. unfold ret at 1.
    unfold bind at 1, getJSVariable. cbn [variableMap uid]. rewrite lookup_insert_eq.
    unfold ret at 1. fold itemVar itemContext.
    unfold bind at 1. unfold ret at 1. unfold bind at 1.
    assert (processNode (EntitiesQueryNode objectType) context
              (mkGenState (S (nextJSVar gs)) (preExecQueries gs)) =
            Ok (ECollection (getCollectionNameForRootEntity objectType),
                mkGenState (S (nextJSVar gs)) (preExecQueries gs))) as -> by reflexivity.
    unfold bind at 1. unfold bind at 1.
    rewrite processNode_BinaryOperation. unfold bind at 1.
    rewrite processNode_RootEntityID. unfold bind at 1.
    assert (processNode (VariableQueryNode (mkVar (decapitalize (typeName objectType)) fresh))
              itemContext (mkGenState (S (nextJSVar gs)) (preExecQueries gs)) =
            Ok (EVar itemVar, mkGenState (S (nextJSVar gs)) (preExecQueries gs))) as ->.
    { cbn [processNode]. unfold getVariable. subst itemContext. cbn [variableMap uid].
      by rewrite lookup_insert_eq. }
    unfold ret at 1. unfold bind at 1. rewrite Hid.
    unfold bind, newJSVariable, ret. cbn [getJSOperator nextJSVar preExecQueries].
    cbn [isVariable uid]. rewrite Nat.eqb_refl. cbn [negb]. reflexivity.
  - rewrite eval_EIndex. unfold bind at 1.
    rewrite (eval_filter_pure _ _ _ _ _ entities st (idEquals st wanted)); cycle 1.
    { by apply eval_ECollection. }
    { intros entity Hin. rewrite forallb_forall in Hwf. specialize (Hwf entity Hin).
      unfold hasStringId in Hwf.
      destruct (stringProperty st entity "id") as [i|] eqn:Hi; [|done].
      rewrite (eval_binary_strict OpStrictEq _ _ _ _ (VString i) wanted st st);
        [|done| |apply Hpure].
      - unfold idEquals. rewrite Hi. unfold liftResult, applyOperator.
        destruct wanted; cbn; eauto.
      - apply (eval_member_of_var _ _ _ _ entity); [apply lookupVar_bindVar|done]. }
    cbn [eval]. unfold bind, ret. cbn [getIndex].
    rewrite find_head_filter.
    destruct (List.filter (idEquals st wanted) entities) as [|first rest]; [done|].
    cbn [length]. replace (0 <=? 0) with true by done.
    replace (0 <? Z.of_nat (S (length rest))) with true by (symmetry; apply Z.ltb_lt; lia).
    done.
Qed.

End EntityFromIdFacts.

Section CreateEntityCodeFacts.
Context `{Externals} `{Runtime}.

Lemma eval_create object objVar idVar collection env st st1 (v : Value) :
  jsId objVar ≠ jsId idVar →
  eval object env st = Ok (v, st1) →
  eval (EExecutingFunction
          [SConst objVar object;
           SConst idVar EGenerateID;
           SSetMember objVar ID_FIELD_NAME (EVar idVar);
           SPush collection (EVar objVar);
           SReturn (EVar idVar)]) env st =
  let id := VString (fst (generateID (nextID st1))) in
  match v with
  | VRef address =>
      match heap st1 !! address with
      | Some properties =>
          match collections st1 !! collection with
          | Some entities =>
              Ok (id,
                  mkStore (<[address := setProperty "id" id properties]> (heap st1))
                    (<[collection := entities ++ [v]]> (collections st1))
                    (snd (generateID (nextID st1))))
          | None => Throw TypeError
          end
      | None => Throw ReferenceError
      end
  | VUndefined | VNull => Throw TypeError
  | _ => Throw Unmodelled
  end.
Proof.
  intros Hdistinct Hobject. cbn [eval exec]. unfold bind at 1. unfold bind at 1.
  rewrite Hobject. unfold ret at 1. cbn beta iota.
  unfold bind at 1. unfold bind at 1. unfold ret at 1. cbn beta iota.
  assert (lookupVar (bindVar idVar (VString (fst (generateID (nextID st1))))
                      (bindVar objVar v env)) objVar
          = Some v) as Hobj.
  { unfold bindVar. cbn [lookupVar]. destruct (Nat.eqb_spec (jsId idVar) (jsId objVar)); [lia|].
    by rewrite Nat.eqb_refl. }
  unfold bind at 1. rewrite Hobj. rewrite lookupVar_bindVar.
  unfold bind at 1. unfold ret at 1.
  destruct v as [| | | | | |address]; try reflexivity.
  unfold bind at 1. unfold readObject at 1. cbn [heap].
  destruct (heap st1 !! address) as [properties|]; [|reflexivity].
  unfold bind at 1. unfold writeObject, ID_FIELD_NAME. unfold ret at 1. cbn beta iota.
  unfold bind at 1. unfold bind at 1. cbn [collections heap nextID].
  destruct (collections st1 !! collection) as [entities|] eqn:Hcoll; [|reflexivity].
  unfold bind at 1. rewrite Hobj. unfold ret at 1. cbn beta iota.
  cbn [collections heap nextID]. rewrite Hcoll. cbn [default].
  unfold bind, ret. by rewrite lookupVar_bindVar.
Qed.

(** X5.  The code generated for a CreateEntity node evaluates to the
    identifier [db.generateID()] returns, whatever that is; the object the
    node describes gets that identifier as its [id] property (whatever [id]
    it had is overwritten, its other properties stay) and is appended to the
    collection of its type.  The source of identifiers is left in the state
    [db.generateID()] leaves it in. *)
Theorem createEntity_stores_with_generated_id :
  ∀ (objectType : GraphQLObjectType) (objectNode : QueryNode) (context : QueryContext)
    (gs gs' : GenState) (object : JSExpr) (env : Env) (st st1 : Store) (address : nat)
    (properties : list (string * Value)) (entities : list Value),
    let collection := getCollectionNameForRootEntity objectType in
    let id := VString (fst (generateID (nextID st1))) in
    processNode objectNode context (mkGenState (S (S (nextJSVar gs))) (preExecQueries gs))
      = Ok (object, gs') →
    eval object env st = Ok (VRef address, st1) →
    heap st1 !! address = Some properties →
    collections st1 !! collection = Some entities →
    ∃ code : JSExpr,
      processNode (CreateEntityQueryNode objectType objectNode) context gs = Ok (code, gs')
      ∧ eval code env st =
        Ok (id,
            mkStore (<[address := setProperty "id" id properties]> (heap st1))
              (<[collection := entities ++ [VRef address]]> (collections st1))
              (snd (generateID (nextID st1))))
      ∧ ownProperty "id" (setProperty "id" id properties) = Some id
      ∧ ∀ name, name ≠ "id" →
          ownProperty name (setProperty "id" id properties) = ownProperty name properties.
Proof.
  intros objectType objectNode context gs gs' object env st st1 address properties entities
    collection id Hcompile Heval Hheap Hcoll.
  eexists. split; [|split; [|split]].
  - rewrite processNode_CreateEntity. unfold bind, newJSVariable, ret.
    cbn [nextJSVar preExecQueries]. rewrite Hcompile. reflexivity.
  - rewrite (eval_create object (mkJSVar "obj" (nextJSVar gs) false)
               (mkJSVar "id" (S (nextJSVar gs)) false) _ _ _ _ _
               (Nat.neq_succ_diag_r (nextJSVar gs)) Heval).
    cbn zeta. fold collection. by rewrite Hheap, Hcoll.
  - rewrite ownProperty_setProperty. by rewrite String.eqb_refl.
  - intros name Hname. rewrite ownProperty_setProperty.
    by destruct (String.eqb_spec "id" name) as [<-|].
Qed.

End CreateEntityCodeFacts.

Section MergeObjectsFacts.
Context `{Externals} `{Runtime}.

Lemma processNode_MergeObjects objectNodes context :
  processNode (MergeObjectsQueryNode objectNodes) context =
  (objectList <- processItems context objectNodes ;;
   ret (EObjectAssign (EObject []) objectList)).
Proof. reflexivity. Qed.

Lemma eval_EObjectAssign target sources env :
  eval (EObjectAssign target sources) env =
  (t <- eval target env ;;
   vs <- evalAll env sources ;;
   match t with
   | VRef address => _ <- objectAssign address vs ;; ret t
   | VUndefined | VNull => fail TypeError
   | _ => fail Unmodelled
   end).
Proof. reflexivity. Qed.

Lemma objectAssign_merges (objects : list (list (string * Value))) target sources :
  forallb (isSource objects target) sources = true →
  ∀ (h : list (list (string * Value))) collections nextID acc,
    (∀ address, address ≠ target → h !! address = objects !! address) →
    h !! target = Some acc →
    objectAssign target sources (mkStore h collections nextID) =
    Ok (tt, mkStore (<[target := mergedProperties objects sources acc]> h) collections nextID).
Proof.
  induction sources as [|source sources IH]; intros Hsources h collections nextID acc Hsame Hacc.
  - cbn. unfold ret. by rewrite list_insert_id.
  - cbn [forallb] in Hsources. apply andb_true_iff in Hsources as [Hsource Hsources].
    cbn [objectAssign mergedProperties fold_left]. unfold bind at 1.
    destruct source as [| | | | | |address]; try discriminate Hsource;
      try (unfold ret at 1; by apply IH).
    cbn [isSource] in Hsource. apply andb_true_iff in Hsource as [Hne Hstored].
    apply negb_true_iff, Nat.eqb_neq in Hne.
    destruct (objects !! address) as [object|] eqn:Hobject; [|done].
    unfold bind at 1. unfold readObject at 1. cbn [heap]. rewrite (Hsame address Hne), Hobject.
    unfold bind at 1. unfold readObject at 1. cbn [heap]. rewrite Hacc.
    unfold writeObject. cbn [heap Semantics.collections Semantics.nextID].
    rewrite (IH Hsources _ _ _ (assignProperties acc object)).
    + by rewrite list_insert_insert_eq.
    + intros a Ha. rewrite list_lookup_insert_ne by done. by apply Hsame.
    + apply list_lookup_insert_eq. by apply lookup_lt_Some in Hacc.
Qed.

(** X6.  The code generated for a MergeObjects node evaluates to a new
    object, and none of the merged objects is changed: the new object has the
    properties of the merged objects assigned in turn, a later object
    winning over an earlier one, and [null], [undefined], numbers and
    booleans among them contribute nothing. *)
Theorem mergeObjects_assigns_onto_a_fresh_object :
  ∀ (objectNodes : list QueryNode) (context : QueryContext) (gs gs' : GenState)
    (objectList : list JSExpr) (env : Env) (st st1 : Store) (sources : list Value)
    (initial : list (string * Value)),
    let target := length (heap st) in
    processItems context objectNodes gs = Ok (objectList, gs') →
    evalAll env objectList (mkStore (heap st ++ [[]]) (collections st) (nextID st))
      = Ok (sources, st1) →
    heap st1 !! target = Some initial →
    forallb (isSource (heap st1) target) sources = true →
    ∃ code : JSExpr,
      processNode (MergeObjectsQueryNode objectNodes) context gs = Ok (code, gs')
      ∧ eval code env st =
        Ok (VRef target,
            mkStore (<[target := mergedProperties (heap st1) sources initial]> (heap st1))
              (collections st1) (nextID st1))
      ∧ ∀ (acc object : list (string * Value)) (name : string),
          ownProperty name (assignProperties acc object) =
          match lastValue name object with
          | Some v => Some v
          | None => ownProperty name acc
          end.
Proof.
  intros objectNodes context gs gs' objectList env st st1 sources initial target
    Hcompile Hsources Hinitial Hwf.
  eexists. split; [|split].
  - rewrite processNode_MergeObjects. unfold bind, ret. by rewrite Hcompile.
  - rewrite eval_EObjectAssign. unfold bind at 1. rewrite eval_EObject.
    cbn [keysAreNames forallb].
    unfold bind at 1. cbn [evalProperties]. unfold ret at 1. unfold allocate.
    cbn [assignProperties fold_left]. unfold bind at 1. fold target. rewrite Hsources.
    unfold bind, ret. destruct st1 as [h1 c1 n1]. cbn [heap collections nextID] in *.
    by rewrite (objectAssign_merges h1 target sources Hwf h1 c1 n1 initial).
  - intros acc object name. apply ownProperty_assignProperties.
Qed.

End MergeObjectsFacts.

Section MoreFacts.
Context `{Externals} `{Runtime}.

(** ** A RuntimeError node as a filter *)

Lemma filterM_allocating (object : list (string * Value)) (f : Value → Eval Value) items :
  (∀ item st, f item st =
     Ok (VRef (length (heap st)),
         mkStore (heap st ++ [object]) (collections st) (nextID st))) →
  ∀ st,
    filterM f items st =
    Ok (items, mkStore (heap st ++ replicate (length items) object)
                 (collections st) (nextID st)).
Proof.
  intros Hf. induction items as [|item items IH]; intros st.
  - cbn. unfold ret. rewrite app_nil_r. by destruct st.
  - cbn [filterM]. unfold bind at 1. rewrite Hf. unfold bind at 1. rewrite IH.
    unfold ret. cbn [truthy heap collections nextID length replicate].
    by rewrite <- app_assoc.
Qed.

(** X10.  A TransformList whose filter is a RuntimeError node filters
    nothing out: the generated filter evaluates, for every item, to a new
    object that carries the error message, which is truthy, so that the
    list comes back whole and the store holds one such object more per
    item. *)
Theorem runtime_error_as_filter_accepts_every_item :
  ∀ (listNode : QueryNode) (itemVariable : VarId) (message : string)
    (context : QueryContext) (gs gs' : GenState) (listCode : JSExpr)
    (env : Env) (st st1 : Store) (items : list Value),
    variableMap context !! uid itemVariable = None →
    processNode listNode context (mkGenState (S (nextJSVar gs)) (preExecQueries gs))
      = Ok (listCode, gs') →
    eval listCode env st = Ok (VList items, st1) →
    ∃ code : JSExpr,
      processNode
        (newTransformList listNode itemVariable (RuntimeErrorQueryNode message)) context gs
        = Ok (code, gs')
      ∧ eval code env st =
        Ok (VList items,
            mkStore (heap st1
                     ++ replicate (length items) [(RUNTIME_ERROR_TOKEN, VString message)])
              (collections st1) (nextID st1)).
Proof.
  intros listNode itemVariable message context gs gs' listCode env st st1 items
    Hfresh Hcompile Heval.
  eexists. split.
  - unfold newTransformList. rewrite processNode_TransformList.
    unfold bind at 1. unfold introduceVariable, bind at 1, newJSVariable.
    unfold newNestedContextWithNewVariable. rewrite Hfresh. unfold ret at 1.
    unfold bind at 1, getJSVariable. cbn [variableMap]. rewrite lookup_insert_eq.
    unfold ret at 1. unfold bind at 1. unfold ret at 1. unfold bind at 1.
    rewrite Hcompile. unfold bind at 1. unfold bind at 1.
    cbn [processNode]. unfold ret at 1. unfold ret at 1. cbn zeta.
    cbn [isVariable]. rewrite Nat.eqb_refl. cbn [negb]. reflexivity.
  - rewrite eval_EFilter. unfold bind at 1. rewrite Heval. unfold bind at 1.
    cbn [asList]. unfold ret at 1. unfold bind.
    rewrite (filterM_allocating [(RUNTIME_ERROR_TOKEN, VString message)]); [done|].
    intros item st'. reflexivity.
Qed.

(** ** Introducing a variable twice *)

(** X9.  In a context that already binds a variable, every node that
    introduces it again fails to compile with "Variable ... is introduced
    twice": a VariableAssignment, a TransformList and an UpdateEntities
    node over that variable, and a pre-execution query whose result is
    bound to it. *)
Theorem introducing_a_variable_twice_throws :
  ∀ (context : QueryContext) (variable : VarId) (jsVariable : JSVariable) (gs : GenState),
    variableMap context !! uid variable = Some jsVariable →
    let failure : Result string (JSExpr * GenState) :=
      Throw ("Variable " +:+ describeVariable variable +:+ " is introduced twice") in
    (∀ variableValueNode resultNode,
       processNode (VariableAssignmentQueryNode variable variableValueNode resultNode)
         context gs = failure)
    ∧ (∀ listNode filterNode orderBy maxCount innerNode,
         processNode
           (TransformListQueryNode listNode variable filterNode orderBy maxCount innerNode)
           context gs = failure)
    ∧ (∀ objectType listNode updates,
         processNode (UpdateEntitiesQueryNode objectType listNode updates variable)
           context gs = failure)
    ∧ (∀ preExecQuery resultValidator,
         addPreExecuteQuery context preExecQuery (Some variable) resultValidator gs =
         Throw ("Variable " +:+ describeVariable variable +:+ " is introduced twice")).
Proof.
  intros context variable jsVariable gs Hbound failure.
  assert (∀ gs0, introduceVariable context variable gs0 =
                 Throw ("Variable " +:+ describeVariable variable +:+ " is introduced twice"))
    as Hintro.
  { intros gs0. unfold introduceVariable, bind, newJSVariable,
      newNestedContextWithNewVariable. by rewrite Hbound. }
  split; [|split; [|split]].
  - intros variableValueNode resultNode. cbn [processNode]. unfold bind at 1.
    by rewrite Hintro.
  - intros listNode filterNode orderBy maxCount innerNode.
    rewrite processNode_TransformList. unfold bind at 1. by rewrite Hintro.
  - intros objectType listNode updates. rewrite processNode_UpdateEntities.
    unfold bind at 1. by rewrite Hintro.
  - intros preExecQuery resultValidator. unfold addPreExecuteQuery, bind,
      newJSQueryResultVariable, newNestedContextWithNewVariable. by rewrite Hbound.
Qed.

(** ** No binary operator is unsupported *)


(** ** Reading a list *)

Lemma processNode_Count listNode context :
  processNode (CountQueryNode listNode) context =
  (list <- processNode listNode context ;; ret (EMember list "length")).
Proof. reflexivity. Qed.

(** X7.  Where the list code evaluates to a list, the code generated for a
    FirstOfList node evaluates to its first item, [undefined] for the empty
    list, and the code generated for a Count node to its length; where the
    list code evaluates to [null] or [undefined], both throw a TypeError. *)
Theorem first_and_count_of_a_list :
  ∀ (listNode : QueryNode) (context : QueryContext) (gs gs' : GenState) (listCode : JSExpr)
    (env : Env) (st st1 : Store) (value : Value),
    processNode listNode context gs = Ok (listCode, gs') →
    eval listCode env st = Ok (value, st1) →
    (∃ code : JSExpr,
       processNode (FirstOfListQueryNode listNode) context gs = Ok (code, gs')
       ∧ match value with
         | VList items => eval code env st = Ok (List.hd VUndefined items, st1)
         | VUndefined | VNull => eval code env st = Throw TypeError
         | _ => True
         end)
    ∧ (∃ code : JSExpr,
         processNode (CountQueryNode listNode) context gs = Ok (code, gs')
         ∧ match value with
           | VList items => eval code env st = Ok (VNumber (Z.of_nat (length items)), st1)
           | VUndefined | VNull => eval code env st = Throw TypeError
           | _ => True
           end).
Proof.
  intros listNode context gs gs' listCode env st st1 value Hcompile Heval. split.
  - eexists. split.
    + rewrite processNode_FirstOfList. unfold bind, ret. by rewrite Hcompile.
    + destruct value as [| |b|n|s|items|address]; try done;
        rewrite eval_EIndex; unfold bind at 1; rewrite Heval; cbn [eval];
        unfold bind, ret; try done.
      cbn [getIndex]. destruct items as [|first rest]; [done|].
      cbn [length]. replace (0 <=? 0) with true by done.
      replace (0 <? Z.of_nat (S (length rest))) with true by (symmetry; apply Z.ltb_lt; lia).
      done.
  - eexists. split.
    + rewrite processNode_Count. unfold bind, ret. by rewrite Hcompile.
    + destruct value as [| |b|n|s|items|address]; try done;
        rewrite eval_EMember; unfold bind; by rewrite Heval.
Qed.

End MoreFacts.

End ProcessorFacts.

(* ===================================================================== *)
(** * Facts about the processors of the mutations *)
(* ===================================================================== *)

Module MutationFacts.
Import QueryTree JS Semantics Generator Reference Samples Graph Processors Mutations.
Import GeneratorFacts GraphFacts ProcessorFacts.

Section DeleteEntitiesFacts.
Context `{Externals} `{Runtime}.

Lemma listIncludes_ids st id items :
  forallb (hasStringId st) items = true →
  listIncludes (VString id) (List.map (idValue st) items) = Ok (existsb (hasId st id) items).
Proof.
  induction items as [|item items IH]; [done|]. cbn [forallb List.map listIncludes existsb].
  intros [Hitem Hitems]%andb_true_iff. unfold idValue at 1, hasId at 1.
  unfold hasStringId in Hitem. destruct (stringProperty st item "id") as [i|]; [|done].
  cbn [strictEq]. destruct (String.eqb i id); [done|]. by apply IH.
Qed.

(** X11.  The code generated for a DeleteEntities node evaluates to the
    list of entities it was given, and leaves in the collection of the
    type exactly the entities whose identifier is that of none of them, in
    their order; the objects themselves stay in the heap. *)
Theorem deleteEntities_returns_the_entities_and_removes_them :
  ∀ (objectType : GraphQLObjectType) (listNode : QueryNode) (currentEntityVariable : VarId)
    (context : QueryContext) (gs gs' : GenState) (listCode : JSExpr)
    (env : Env) (st st1 : Store) (items entities : list Value),
    let collection := getCollectionNameForRootEntity objectType in
    variableMap context !! uid currentEntityVariable = None →
    processNode listNode context
      (mkGenState (S (S (S (nextJSVar gs)))) (preExecQueries gs)) = Ok (listCode, gs') →
    eval listCode env st = Ok (VList items, st1) →
    forallb (hasStringId st1) items = true →
    collections st1 !! collection = Some entities →
    forallb (hasStringId st1) entities = true →
    ∃ code : JSMutation,
      processDeleteEntities objectType listNode currentEntityVariable context gs
        = Ok (code, gs')
      ∧ evalMutation code env st =
        Ok (VList items,
            mkStore (heap st1)
              (<[collection :=
                   List.filter (fun entity => negb (idAmong st1 items entity)) entities]>
                 (collections st1))
              (nextID st1)).
Proof.
  intros objectType listNode currentEntityVariable context gs gs' listCode env st st1 items
    entities collection Hfresh Hcompile Heval Hitems Hcoll Hentities.
  eexists. split.
  - unfold processDeleteEntities. unfold bind at 1.
    unfold introduceVariable, bind at 1, newJSVariable.
    unfold newNestedContextWithNewVariable. rewrite Hfresh. unfold ret at 1.
    unfold bind at 1, getJSVariable. cbn [variableMap]. rewrite lookup_insert_eq.
    unfold ret at 1. unfold bind at 1. cbn [nextJSVar preExecQueries].
    unfold bind at 1. cbn [nextJSVar preExecQueries].
    unfold bind, ret. rewrite Hcompile. reflexivity.
  - cbn [evalMutation]. unfold bind at 1. rewrite Heval. unfold bind at 1.
    cbn [asList]. unfold ret at 1. unfold bind at 1.
    rewrite (mapM_pure_in _ (idValue st1)); cycle 1.
    { intros item Hin. rewrite forallb_forall in Hitems. specialize (Hitems item Hin).
      unfold hasStringId in Hitems. unfold idValue, ID_FIELD_NAME.
      destruct (stringProperty st1 item "id") as [i|] eqn:Hi; [|done].
      by apply getMember_string. }
    unfold bind at 1. unfold readCollection at 1. fold collection. rewrite Hcoll.
    unfold bind at 1.
    rewrite (filterM_pure _ (fun entity => negb (idAmong st1 items entity))); cycle 1.
    { intros entity Hin. rewrite forallb_forall in Hentities. specialize (Hentities entity Hin).
      unfold hasStringId in Hentities. unfold idAmong, ID_FIELD_NAME.
      destruct (stringProperty st1 entity "id") as [i|] eqn:Hi; [|done].
      exists (VBool (negb (existsb (hasId st1 i) items))). split; [|done].
      unfold bind. rewrite (getMember_string _ _ _ _ Hi).
      unfold liftResult. by rewrite (listIncludes_ids _ _ _ Hitems). }
    reflexivity.
Qed.

End DeleteEntitiesFacts.

Section EdgeFacts.
Context `{Externals} `{Runtime}.

(** ** AddEdges *)

Lemma eval_edgeLiteral codes values env st :
  (∀ st', eval (fst codes) env st' = Ok (fst values, st')
          ∧ eval (snd codes) env st' = Ok (snd values, st')) →
  eval (edgeLiteral codes) env st =
  Ok (VRef (length (heap st)),
      mkStore (heap st ++ [edgeObject values]) (collections st) (nextID st)).
Proof.
  intros Hpure. unfold edgeLiteral. rewrite eval_EObject.
  cbn [keysAreNames forallb fst keyName andb]. cbn [evalProperties keyName].
  unfold bind, ret. rewrite (proj1 (Hpure st)), (proj2 (Hpure st)). reflexivity.
Qed.

Lemma evalAll_edgeLiterals env edgeCodes ends :
  Forall2 (fun codes values =>
             ∀ st', eval (fst codes) env st' = Ok (fst values, st')
                    ∧ eval (snd codes) env st' = Ok (snd values, st')) edgeCodes ends →
  ∀ st,
    evalAll env (List.map edgeLiteral edgeCodes) st =
    Ok (List.map VRef (seq (length (heap st)) (length ends)),
        mkStore (heap st ++ List.map edgeObject ends) (collections st) (nextID st)).
Proof.
  induction 1 as [|codes values edgeCodes ends Hpure _ IH]; intros st.
  - cbn. unfold ret. rewrite app_nil_r. by destruct st.
  - cbn [List.map evalAll]. unfold bind at 1. rewrite (eval_edgeLiteral _ _ _ _ Hpure).
    unfold bind at 1. rewrite IH. unfold ret.
    cbn [heap collections nextID length seq List.map]. rewrite length_app. cbn [length].
    rewrite Nat.add_1_r, <- app_assoc. reflexivity.
Qed.

(** X12.  The code generated for an AddEdges node appends to the edge
    collection one new edge object per pair of identifiers, in the order
    of the pairs, and evaluates to [undefined]; edges that are already
    there are neither looked at nor replaced.  If the edge collection does
    not exist it throws a TypeError. *)
Theorem addEdges_appends_one_edge_per_pair :
  ∀ (edgeType : EdgeType) (edges : list (QueryNode * QueryNode)) (context : QueryContext)
    (gs gs' : GenState) (edgeCodes : list (JSExpr * JSExpr)) (env : Env) (st : Store)
    (ends : list (Value * Value)),
    let collection := getCollectionNameForEdge edgeType in
    processEdges context edges gs = Ok (edgeCodes, gs') →
    Forall2 (fun codes values =>
               ∀ st', eval (fst codes) env st' = Ok (fst values, st')
                      ∧ eval (snd codes) env st' = Ok (snd values, st')) edgeCodes ends →
    ∃ code : JSMutation,
      processAddEdges edgeType edges context gs = Ok (code, gs')
      ∧ evalMutation code env st =
        match collections st !! collection with
        | Some old =>
            Ok (VUndefined,
                mkStore (heap st ++ List.map edgeObject ends)
                  (<[collection :=
                       old ++ List.map VRef (seq (length (heap st)) (length ends))]>
                     (collections st))
                  (nextID st))
        | None => Throw TypeError
        end.
Proof.
  intros edgeType edges context gs gs' edgeCodes env st ends collection Hcompile Hpure.
  eexists. split.
  - unfold processAddEdges. unfold bind, ret. by rewrite Hcompile.
  - cbn [evalMutation]. fold collection. unfold bind at 1, readCollection.
    destruct (collections st !! collection) as [old|] eqn:Hcoll; [|done].
    unfold bind at 1. rewrite (evalAll_edgeLiterals _ _ _ Hpure).
    unfold bind, pushAll, ret. cbn [heap collections nextID]. by rewrite Hcoll.
Qed.

(** ** RemoveEdges and SetEdge *)

Lemma listIncludes_strings s values :
  listIncludes (VString s) values = Ok (existsb (isString s) values).
Proof.
  induction values as [|v values IH]; [done|]. cbn [listIncludes existsb].
  destruct v as [| |b|n|t|l|a]; cbn [strictEq isString orb]; try exact IH.
  destruct (String.eqb t s); [done|exact IH].
Qed.

Lemma eval_endIncluded edgeVar edgeEnd ids values env st edge s :
  evalAll (bindVar edgeVar edge env) ids st = Ok (values, st) →
  stringProperty st edge edgeEnd = Some s →
  eval (endIncluded edgeVar edgeEnd ids) (bindVar edgeVar edge env) st =
  Ok (VBool (existsb (isString s) values), st).
Proof.
  intros Hids Hs. unfold endIncluded. cbn [eval].
  fold (evalAll (bindVar edgeVar edge env)). unfold bind at 1. unfold bind at 1.
  rewrite Hids. unfold ret at 1. unfold bind at 1. cbn [requireObjectCoercible].
  unfold ret at 1. unfold bind at 1. rewrite lookupVar_bindVar. unfold bind at 1.
  unfold ret at 1. rewrite (getMember_string _ _ _ _ Hs).
  unfold bind, liftResult, ret. by rewrite listIncludes_strings.
Qed.

Lemma eval_endEquals edgeVar edgeEnd id i env st edge s :
  eval id (bindVar edgeVar edge env) st = Ok (VString i, st) →
  stringProperty st edge edgeEnd = Some s →
  eval (endEquals edgeVar edgeEnd id) (bindVar edgeVar edge env) st =
  Ok (VBool (String.eqb s i), st).
Proof.
  intros Hid Hs. unfold endEquals.
  rewrite (eval_binary_strict OpLooseEq _ _ _ _ (VString s) (VString i) st st); [done|done| |done].
  apply (eval_member_of_var _ _ _ _ edge); [apply lookupVar_bindVar|done].
Qed.

Lemma filterCollection_pure collection x keep env st entities (p : Value → bool) :
  collections st !! collection = Some entities →
  (∀ entity, In entity entities →
     eval keep (bindVar x entity env) st = Ok (VBool (p entity), st)) →
  filterCollection collection x keep env st =
  Ok (tt, mkStore (heap st) (<[collection := List.filter p entities]> (collections st))
            (nextID st)).
Proof.
  intros Hcoll Hkeep. unfold filterCollection, bind at 1, readCollection. rewrite Hcoll.
  unfold bind. rewrite (filterM_pure _ p); [done|].
  intros entity Hin. exists (VBool (p entity)). split; [by apply Hkeep|done].
Qed.

(** X13.  The code generated for a RemoveEdges node leaves in the edge
    collection exactly the edges that do not match the filter; an edge
    matches when, for each end the filter names identifiers for, its
    identifier on that end is among them.  A filter that names identifiers
    for neither end yields code that is not JavaScript: evaluating it is a
    SyntaxError. *)
Theorem removeEdges_removes_the_edges_that_match :
  ∀ (edgeType : EdgeType) (fromIDNodes toIDNodes : option (list QueryNode))
    (context : QueryContext) (gs gs1 gs' : GenState)
    (fromCodes toCodes : option (list JSExpr)) (env : Env) (st : Store)
    (edges : list Value) (fromIds toIds : option (list Value)),
    let collection := getCollectionNameForEdge edgeType in
    let edgeVar := mkJSVar "edge" (nextJSVar gs) false in
    processOptionalItems context fromIDNodes
      (mkGenState (S (nextJSVar gs)) (preExecQueries gs)) = Ok (fromCodes, gs1) →
    processOptionalItems context toIDNodes gs1 = Ok (toCodes, gs') →
    collections st !! collection = Some edges →
    forallb (isEdge st) edges = true →
    (∀ edge, allEvaluateTo (bindVar edgeVar edge env) st fromCodes fromIds) →
    (∀ edge, allEvaluateTo (bindVar edgeVar edge env) st toCodes toIds) →
    ∃ code : JSMutation,
      processRemoveEdges edgeType fromIDNodes toIDNodes context gs = Ok (code, gs')
      ∧ evalMutation code env st =
        match fromCodes, toCodes with
        | None, None => Throw SyntaxError
        | _, _ =>
            Ok (VUndefined,
                mkStore (heap st)
                  (<[collection :=
                       List.filter
                         (fun edge => negb (endIsAmong st "_from" fromIds edge
                                            && endIsAmong st "_to" toIds edge)) edges]>
                     (collections st))
                  (nextID st))
        end.
Proof.
  intros edgeType fromIDNodes toIDNodes context gs gs1 gs' fromCodes toCodes env st edges
    fromIds toIds collection edgeVar Hfrom Hto Hcoll Hedges Hfrompure Htopure.
  eexists. split.
  - unfold processRemoveEdges. unfold bind at 1, newJSVariable. unfold bind at 1.
    rewrite Hfrom. unfold bind at 1. rewrite Hto. reflexivity.
  - fold edgeVar collection. cbn [evalMutation].
    rewrite forallb_forall in Hedges.
    assert (∀ edge, In edge edges →
              ∃ from to, stringProperty st edge "_from" = Some from
                         ∧ stringProperty st edge "_to" = Some to) as Hends.
    { intros edge Hin. specialize (Hedges edge Hin). unfold isEdge in Hedges.
      destruct (stringProperty st edge "_from") as [from|]; [|done].
      destruct (stringProperty st edge "_to") as [to|]; [|done]. eauto. }
    destruct fromCodes as [fromCodes|], toCodes as [toCodes|];
      destruct fromIds as [fromIds|]; try (by destruct (Hfrompure VUndefined));
      destruct toIds as [toIds|]; try (by destruct (Htopure VUndefined));
      cbn [option_map compact flat_map app edgeShouldStay fold_left].
    + unfold bind.
      rewrite (filterCollection_pure _ _ _ _ _ edges
                 (fun edge => negb (endIsAmong st "_from" (Some fromIds) edge
                                    && endIsAmong st "_to" (Some toIds) edge)) Hcoll);
        [done|].
      intros edge Hin. destruct (Hends edge Hin) as (from & to & Hf & Ht).
      cbn [eval]. unfold bind, ret.
      rewrite (eval_endIncluded _ _ _ _ _ _ _ _ (Hfrompure edge) Hf).
      unfold endIsAmong. rewrite Hf, Ht. cbn [truthy].
      destruct (existsb (isString from) fromIds); [|done].
      by rewrite (eval_endIncluded _ _ _ _ _ _ _ _ (Htopure edge) Ht).
    + unfold bind.
      rewrite (filterCollection_pure _ _ _ _ _ edges
                 (fun edge => negb (endIsAmong st "_from" (Some fromIds) edge
                                    && endIsAmong st "_to" None edge)) Hcoll);
        [done|].
      intros edge Hin. destruct (Hends edge Hin) as (from & to & Hf & Ht).
      cbn [eval]. unfold bind, ret.
      rewrite (eval_endIncluded _ _ _ _ _ _ _ _ (Hfrompure edge) Hf).
      unfold endIsAmong. rewrite Hf. by rewrite andb_true_r.
    + unfold bind.
      rewrite (filterCollection_pure _ _ _ _ _ edges
                 (fun edge => negb (endIsAmong st "_from" None edge
                                    && endIsAmong st "_to" (Some toIds) edge)) Hcoll);
        [done|].
      intros edge Hin. destruct (Hends edge Hin) as (from & to & Hf & Ht).
      cbn [eval]. unfold bind, ret.
      rewrite (eval_endIncluded _ _ _ _ _ _ _ _ (Htopure edge) Ht).
      unfold endIsAmong. by rewrite Ht.
Qed.

End EdgeFacts.

Section SetEdgeFacts.
Context `{Externals} `{Runtime}.

(** X14.  The code generated for a SetEdge node removes the edges that
    match the existing edge on every end that is given, then appends the
    new edge, and evaluates to [undefined].  An existing edge that gives
    neither end yields code that is not JavaScript: evaluating it is a
    SyntaxError. *)
Theorem setEdge_replaces_the_edges_that_match :
  ∀ (edgeType : EdgeType) (existingFrom existingTo : option QueryNode)
    (newFrom newTo : QueryNode) (context : QueryContext) (gs gs1 gs2 gs3 gs' : GenState)
    (fromCode toCode : option JSExpr) (newFromCode newToCode : JSExpr)
    (env : Env) (st : Store) (edges : list Value) (fromId toId : option string)
    (newEnds : Value * Value),
    let collection := getCollectionNameForEdge edgeType in
    let edgeVar := mkJSVar "edge" (nextJSVar gs) false in
    processOptional context existingFrom
      (mkGenState (S (nextJSVar gs)) (preExecQueries gs)) = Ok (fromCode, gs1) →
    processOptional context existingTo gs1 = Ok (toCode, gs2) →
    processNode newFrom context gs2 = Ok (newFromCode, gs3) →
    processNode newTo context gs3 = Ok (newToCode, gs') →
    collections st !! collection = Some edges →
    forallb (isEdge st) edges = true →
    (∀ edge, evaluatesToString (bindVar edgeVar edge env) st fromCode fromId) →
    (∀ edge, evaluatesToString (bindVar edgeVar edge env) st toCode toId) →
    (∀ st', eval newFromCode env st' = Ok (fst newEnds, st')
            ∧ eval newToCode env st' = Ok (snd newEnds, st')) →
    ∃ code : JSMutation,
      processSetEdge edgeType existingFrom existingTo newFrom newTo context gs
        = Ok (code, gs')
      ∧ evalMutation code env st =
        match fromCode, toCode with
        | None, None => Throw SyntaxError
        | _, _ =>
            Ok (VUndefined,
                mkStore (heap st ++ [edgeObject newEnds])
                  (<[collection :=
                       List.filter
                         (fun edge => negb (endIs st "_from" fromId edge
                                            && endIs st "_to" toId edge)) edges
                       ++ [VRef (length (heap st))]]>
                     (collections st))
                  (nextID st))
        end.
Proof.
  intros edgeType existingFrom existingTo newFrom newTo context gs gs1 gs2 gs3 gs'
    fromCode toCode newFromCode newToCode env st edges fromId toId newEnds collection edgeVar
    Hfrom Hto Hnewfrom Hnewto Hcoll Hedges Hfrompure Htopure Hnew.
  eexists. split.
  - unfold processSetEdge. unfold bind at 1, newJSVariable. unfold bind at 1.
    rewrite Hfrom. unfold bind at 1. rewrite Hto. unfold bind at 1. rewrite Hnewfrom.
    unfold bind at 1. rewrite Hnewto. reflexivity.
  - fold edgeVar collection. cbn [evalMutation].
    rewrite forallb_forall in Hedges.
    assert (∀ edge, In edge edges →
              ∃ from to, stringProperty st edge "_from" = Some from
                         ∧ stringProperty st edge "_to" = Some to) as Hends.
    { intros edge Hin. specialize (Hedges edge Hin). unfold isEdge in Hedges.
      destruct (stringProperty st edge "_from") as [from|]; [|done].
      destruct (stringProperty st edge "_to") as [to|]; [|done]. eauto. }
    assert (∀ keep (p : Value → bool),
              (∀ edge, In edge edges →
                 eval keep (bindVar edgeVar edge env) st = Ok (VBool (p edge), st)) →
              (_ <- filterCollection collection edgeVar keep env ;;
               _ <- readCollection collection ;;
               edge <- eval (edgeLiteral (newFromCode, newToCode)) env ;;
               _ <- pushAll collection [edge] ;;
               ret VUndefined) st =
              Ok (VUndefined,
                  mkStore (heap st ++ [edgeObject newEnds])
                    (<[collection := List.filter p edges ++ [VRef (length (heap st))]]>
                       (collections st))
                    (nextID st))) as Hrun.
    { intros keep p Hkeep. unfold bind at 1.
      rewrite (filterCollection_pure _ _ _ _ _ edges p Hcoll Hkeep).
      unfold bind at 1, readCollection. cbn [collections]. rewrite lookup_insert_eq.
      unfold bind at 1. rewrite (eval_edgeLiteral _ newEnds); [|exact Hnew].
      unfold bind, pushAll, ret. cbn [heap collections nextID].
      rewrite lookup_insert_eq. cbn [default]. by rewrite insert_insert_eq. }
    destruct fromCode as [fromCode|], toCode as [toCode|];
      destruct fromId as [fromId|]; try (by destruct (Hfrompure VUndefined));
      destruct toId as [toId|]; try (by destruct (Htopure VUndefined));
      cbn [option_map compact flat_map app edgeShouldStay fold_left].
    + apply Hrun. intros edge Hin. destruct (Hends edge Hin) as (from & to & Hf & Ht).
      cbn [eval]. unfold bind, ret.
      rewrite (eval_endEquals _ _ _ _ _ _ _ _ (Hfrompure edge) Hf).
      unfold endIs. rewrite Hf, Ht. cbn [truthy].
      destruct (String.eqb from fromId); [|done].
      by rewrite (eval_endEquals _ _ _ _ _ _ _ _ (Htopure edge) Ht).
    + apply Hrun. intros edge Hin. destruct (Hends edge Hin) as (from & to & Hf & Ht).
      cbn [eval]. unfold bind, ret.
      rewrite (eval_endEquals _ _ _ _ _ _ _ _ (Hfrompure edge) Hf).
      unfold endIs. rewrite Hf. by rewrite andb_true_r.
    + apply Hrun. intros edge Hin. destruct (Hends edge Hin) as (from & to & Hf & Ht).
      cbn [eval]. unfold bind, ret.
      rewrite (eval_endEquals _ _ _ _ _ _ _ _ (Htopure edge) Ht).
      unfold endIs. by rewrite Ht.
Qed.

End SetEdgeFacts.

End MutationFacts.

(* ===================================================================== *)
(** * Facts about access to the far side of an edge *)
(* ===================================================================== *)

Module AccessFacts.
Import QueryTree JS Semantics Generator Authorization Graph.
Import GeneratorFacts GraphFacts.

Section Verdicts.
Context {AuthContext : Type}.
Variable getPermissionDescriptor :
  GraphQLObjectType → option GraphQLField → PermissionDescriptor AuthContext.

(** X15.  The authorization transformer returns a FollowEdge node unchanged
    exactly when both the field-level and the entity-level READ verdict are
    GRANTED.  Whatever else it returns without throwing is either a
    RuntimeError node, or was returned under a field-level GRANTED and an
    entity-level verdict other than DENIED; and without a field-level
    GRANTED nothing but a RuntimeError node is returned. *)
Theorem followEdge_unchanged_only_when_both_granted :
  ∀ (edgeType : EdgeType) (sourceEntityNode : QueryNode)
    (sourceFieldSide : RelationFieldEdgeSide) (authContext : AuthContext) (fresh : nat),
    let node := FollowEdgeQueryNode edgeType sourceEntityNode sourceFieldSide in
    let result :=
      transformFollowEdgeQueryNode getPermissionDescriptor edgeType sourceEntityNode
        sourceFieldSide authContext fresh in
    let field := fieldVerdict getPermissionDescriptor edgeType sourceFieldSide authContext in
    let entity := entityVerdict getPermissionDescriptor edgeType sourceFieldSide authContext in
    (result = Ok node ↔ field = Some GRANTED ∧ entity = GRANTED)
    ∧ (∀ authorized, result = Ok authorized →
         (∃ message, authorized = RuntimeErrorQueryNode message)
         ∨ (field = Some GRANTED ∧ entity ≠ DENIED))
    ∧ (field ≠ Some GRANTED → ∀ authorized, result = Ok authorized →
         ∃ message, authorized = RuntimeErrorQueryNode message).
Proof.
  intros edgeType sourceEntityNode sourceFieldSide authContext fresh node result field entity.
  subst result field entity node.
  unfold transformFollowEdgeQueryNode, fieldVerdict, entityVerdict, newTransformList.
  destruct (getFieldOfSide edgeType sourceFieldSide) as [sourceField|].
  - destruct (canAccess _ authContext READ) eqn:Hfield.
    + destruct (canAccess (getPermissionDescriptor
                             (getTypeOfSide edgeType
                                (invertRelationFieldEdgeSide sourceFieldSide)) None)
                  authContext READ) eqn:Hentity.
      * split; [split; [done|done]|]. split; [intros ? _; by right|]. done.
      * split; [split; [done|by intros [_ ?]]|].
        split; [intros ? [= <-]; left; eauto|done].
      * destruct (lookupField _ "accessGroup").
        -- split; [split; [done|by intros [_ ?]]|]. split; [intros ? _; by right|]. done.
        -- split; [split; [done|by intros [_ ?]]|]. split; [done|done].
    + split; [split; [done|by intros [? _]]|].
      split; [intros ? [= <-]; left; eauto|intros _ ? [= <-]; eauto].
    + split; [split; [done|by intros [? _]]|]. split; [done|done].
  - split; [split; [done|by intros [? _]]|]. split; [done|done].
Qed.

(** X16.  Following an edge is checked, at field level, as reading the
    relation field is: the field transformer returns the field access
    itself exactly when the field-level READ verdict is GRANTED, and whenever
    it does not, the follow-edge transformer returns the same RuntimeError
    node, or throws the same error, as the field transformer. *)
Theorem followEdge_checks_the_field_as_a_field_read :
  ∀ (edgeType : EdgeType) (sourceEntityNode : QueryNode)
    (sourceFieldSide : RelationFieldEdgeSide) (authContext : AuthContext) (fresh : nat)
    (sourceField : GraphQLField),
    let sourceType := getTypeOfSide edgeType sourceFieldSide in
    let asField :=
      transformFieldQueryNode getPermissionDescriptor sourceEntityNode sourceField sourceType
        authContext in
    let asEdge :=
      transformFollowEdgeQueryNode getPermissionDescriptor edgeType sourceEntityNode
        sourceFieldSide authContext fresh in
    getFieldOfSide edgeType sourceFieldSide = Some sourceField →
    (asField = Ok (FieldQueryNode sourceEntityNode sourceField sourceType)
     ↔ fieldVerdict getPermissionDescriptor edgeType sourceFieldSide authContext
       = Some GRANTED)
    ∧ (asField ≠ Ok (FieldQueryNode sourceEntityNode sourceField sourceType) →
       asEdge = asField).
Proof.
  intros edgeType sourceEntityNode sourceFieldSide authContext fresh sourceField sourceType
    asField asEdge Hfield.
  subst asField asEdge.
  unfold transformFieldQueryNode, transformFollowEdgeQueryNode, fieldVerdict.
  rewrite Hfield. fold sourceType.
  destruct (canAccess (getPermissionDescriptor sourceType (Some sourceField)) authContext READ).
  - split; [done|]. by intros [].
  - split; [split; [done|done]|done].
  - split; [split; [done|done]|done].
Qed.

End Verdicts.

Section Composition.
Context `{Externals} `{Runtime}.
Context {AuthContext : Type}.
Variable getPermissionDescriptor :
  GraphQLObjectType → option GraphQLField → PermissionDescriptor AuthContext.

Lemma filter_is_true (filterNode : QueryNode) :
  match filterNode with ConstBoolQueryNode true => false | _ => true end = false →
  filterNode = ConstBoolQueryNode true.
Proof. destruct filterNode; try done. by destruct value. Qed.

(** X17.  Under a field-level GRANTED and an entity-level CONDITIONAL
    verdict, for a target type with an accessGroup field, the node the
    authorization transformer returns compiles, and its code evaluates to
    the list the code of the unrestricted node evaluates to, cut down to
    the items the compiled access condition accepts, in their order. *)
Theorem conditional_access_filters_the_followed_edge :
  ∀ (edgeType : EdgeType) (sourceEntityNode : QueryNode)
    (sourceFieldSide : RelationFieldEdgeSide) (authContext : AuthContext) (fresh : nat)
    (accessGroupField : GraphQLField) (context : QueryContext) (gs gs1 gs' : GenState)
    (listCode cond : JSExpr) (env : Env) (st st1 : Store) (reached : list Value)
    (accepted : Value → bool),
    let node := FollowEdgeQueryNode edgeType sourceEntityNode sourceFieldSide in
    let targetType := getTypeOfSide edgeType (invertRelationFieldEdgeSide sourceFieldSide) in
    let itemVariable := mkVar "item" fresh in
    let itemVar := mkJSVar "item" (nextJSVar gs) false in
    let itemContext := mkContext (<[fresh := itemVar]> (variableMap context)) in
    let condition :=
      getAccessCondition (getPermissionDescriptor targetType None) authContext READ
        (FieldQueryNode (VariableQueryNode itemVariable) accessGroupField targetType) in
    fieldVerdict getPermissionDescriptor edgeType sourceFieldSide authContext = Some GRANTED →
    entityVerdict getPermissionDescriptor edgeType sourceFieldSide authContext = CONDITIONAL →
    lookupField targetType "accessGroup" = Some accessGroupField →
    variableMap context !! fresh = None →
    processNode node context (mkGenState (S (nextJSVar gs)) (preExecQueries gs))
      = Ok (listCode, gs1) →
    processNode condition itemContext gs1 = Ok (cond, gs') →
    eval listCode env st = Ok (VList reached, st1) →
    (∀ item, In item reached →
       ∃ v, eval cond (bindVar itemVar item env) st1 = Ok (v, st1)
            ∧ truthy v = accepted item) →
    ∃ (authorized : QueryNode) (code : JSExpr),
      transformFollowEdgeQueryNode getPermissionDescriptor edgeType sourceEntityNode
        sourceFieldSide authContext fresh = Ok authorized
      ∧ processNode authorized context gs = Ok (code, gs')
      ∧ eval code env st = Ok (VList (List.filter accepted reached), st1).
Proof.
  intros edgeType sourceEntityNode sourceFieldSide authContext fresh accessGroupField context
    gs gs1 gs' listCode cond env st st1 reached accepted node targetType itemVariable itemVar
    itemContext condition Hfield Hentity Hgroup Hfresh Hlist Hcond Heval Haccepted.
  exists (newTransformList node itemVariable condition).
  assert (transformFollowEdgeQueryNode getPermissionDescriptor edgeType sourceEntityNode
            sourceFieldSide authContext fresh
          = Ok (newTransformList node itemVariable condition)) as Hauthorized.
  { unfold transformFollowEdgeQueryNode, fieldVerdict, entityVerdict in *.
    destruct (getFieldOfSide edgeType sourceFieldSide) as [sourceField|]; [|done].
    injection Hfield as ->. fold targetType in Hentity |- *. rewrite Hentity, Hgroup.
    reflexivity. }
  assert (∀ filtered,
            (if match condition with ConstBoolQueryNode true => false | _ => true end
             then (pred <- processNode condition itemContext ;;
                   ret (EFilter listCode itemVar pred))
             else ret listCode) gs1 = Ok (filtered, gs') →
            eval filtered env st = Ok (VList (List.filter accepted reached), st1)) as Hfiltered.
  { intros filtered.
    destruct (match condition with ConstBoolQueryNode true => false | _ => true end) eqn:Hc.
    - unfold bind, ret. rewrite Hcond. intros [= <-]. by apply eval_filter_pure.
    - assert (condition = ConstBoolQueryNode true) as Htrue by by apply filter_is_true.
      rewrite Htrue in Hcond. cbn [processNode] in Hcond. unfold ret in *.
      injection Hcond as <- <-. intros [= <-]. rewrite Heval.
      rewrite (forallb_filter_id accepted reached); [done|].
      apply forallb_forall. intros item Hin.
      destruct (Haccepted item Hin) as (v & Hv & <-). cbn [eval] in Hv. unfold ret in Hv.
      by injection Hv as <-. }
  destruct ((if match condition with ConstBoolQueryNode true => false | _ => true end
             then (pred <- processNode condition itemContext ;;
                   ret (EFilter listCode itemVar pred))
             else ret listCode) gs1) as [[filtered gs2]|e] eqn:Hstep.
  2: { exfalso. destruct (match condition with ConstBoolQueryNode true => false | _ => true end).
       - unfold bind, ret in Hstep. by rewrite Hcond in Hstep.
       - done. }
  assert (gs2 = gs') as ->.
  { destruct (match condition with ConstBoolQueryNode true => false | _ => true end) eqn:Hc.
    - unfold bind, ret in Hstep. rewrite Hcond in Hstep. by injection Hstep.
    - assert (condition = ConstBoolQueryNode true) as Htrue by by apply filter_is_true.
      rewrite Htrue in Hcond. cbn [processNode] in Hcond. unfold ret in *.
      injection Hcond as _ <-. by injection Hstep. }
  exists filtered. split; [exact Hauthorized|]. split; [|by apply Hfiltered].
  unfold newTransformList. rewrite processNode_TransformList.
  unfold bind at 1. unfold introduceVariable, bind at 1, newJSVariable.
  unfold newNestedContextWithNewVariable. cbn [uid label itemVariable].
  rewrite Hfresh. unfold ret at 1.
  unfold bind at 1, getJSVariable. cbn [variableMap uid]. rewrite lookup_insert_eq.
  unfold ret at 1. unfold bind at 1. unfold ret at 1. unfold bind at 1.
  fold node. rewrite Hlist. unfold bind at 1. fold itemVar itemContext. fold condition.
  rewrite Hstep. cbn zeta. cbn [isVariable uid]. rewrite Nat.eqb_refl. reflexivity.
Qed.

End Composition.
End AccessFacts.

(* ===================================================================== *)
(** * Facts about whole compilations *)
(* ===================================================================== *)

Module CompilationFacts.
Import QueryTree JS Semantics Generator Authorization GeneratorFacts.

Section TopLevel.
Context `{Externals}.

(** X20.  A query tree that refers to a variable which none of its nodes
    introduces is rejected by [getJSQuery]: it throws instead of generating
    code with an unbound name in it. *)
Theorem getJSQuery_rejects_free_variables :
  ∀ (node : QueryNode) (v : nat),
    mentions v node = true →
    binds v node = false →
    ∃ e : string, getJSQuery node = Throw e.
Proof.
  intros node v Hmentions Hbinds. unfold getJSQuery, createJSCompoundQuery.
  unfold bind at 1, newJSQueryResultVariable.
  destruct (processNode_unbound v node emptyContext Hmentions Hbinds
              (lookup_empty v) (mkGenState 1 [])) as [e He].
  exists e. unfold bind. cbn [nextJSVar preExecQueries]. by rewrite He.
Qed.

End TopLevel.

Section DeniedCreate.
Context `{Externals} `{Runtime}.
Context {AuthContext : Type}.
Variable getPermissionDescriptor :
  GraphQLObjectType → option GraphQLField → PermissionDescriptor AuthContext.
Variable AUTHORIZATION_ERROR_NAME : string.

(** X21.  The authorization transformer returns a CreateEntity node
    unchanged exactly when the WRITE verdict is GRANTED.  Under DENIED what
    it returns compiles to code that creates nothing: it evaluates to a new
    object carrying the error message, and the collections and the
    identifier counter are as before. *)
Theorem create_goes_ahead_only_when_granted :
  ∀ (objectType : GraphQLObjectType) (objectNode : QueryNode) (authContext : AuthContext),
    let access := canAccess (getPermissionDescriptor objectType None) authContext WRITE in
    let authorized :=
      transformCreateEntityQueryNode getPermissionDescriptor AUTHORIZATION_ERROR_NAME
        objectType objectNode authContext in
    (authorized = CreateEntityQueryNode objectType objectNode ↔ access = GRANTED)
    ∧ (access = DENIED →
       ∀ (context : QueryContext) (gs : GenState),
       ∃ code : JSExpr,
         processNode authorized context gs = Ok (code, gs)
         ∧ ∀ (env : Env) (st : Store),
             eval code env st =
             Ok (VRef (length (heap st)),
                 mkStore
                   (heap st
                    ++ [[(RUNTIME_ERROR_TOKEN,
                          VString (AUTHORIZATION_ERROR_NAME
                                   +:+ ": Not authorized to create "
                                   +:+ typeName objectType +:+ " objects"))]])
                   (collections st) (nextID st))).
Proof.
  intros objectType objectNode authContext access authorized. subst authorized access.
  unfold transformCreateEntityQueryNode.
  destruct (canAccess (getPermissionDescriptor objectType None) authContext WRITE).
  - split; [done|]. done.
  - split; [done|]. intros _ context gs. eexists. split; [reflexivity|].
    intros env st. reflexivity.
  - split; [done|]. done.
Qed.

End DeniedCreate.
End CompilationFacts.

(* ===================================================================== *)
(** * Facts about collecting the selected fields *)
(* ===================================================================== *)

Module SelectionFacts.
Import Selections.
Local Open Scope nat_scope.

Section WalkFacts.
Context {ArgumentNodes FieldNode VariableValues : Type}.
Context `{GraphQLJS ArgumentNodes VariableValues}.
Variable context : ResolveContext ArgumentNodes FieldNode VariableValues.

(** Induction over a selection and the selections nested in it. *)
Lemma Selection_nested_ind (P : Selection ArgumentNodes FieldNode → Prop) :
  (∀ directives field, P (Field directives field)) →
  (∀ directives selectionSet,
     Forall P selectionSet → P (InlineFragment directives selectionSet)) →
  (∀ directives name, P (FragmentSpread directives name)) →
  ∀ selection, P selection.
Proof.
  intros Hfield Hinline Hspread. fix IH 1. intros [d f|d selectionSet|d name].
  - apply Hfield.
  - apply Hinline.
    induction selectionSet as [|x rest IHrest]; constructor; [apply IH|exact IHrest].
  - apply Hspread.
Qed.

Lemma extends_refl (s : WalkState ArgumentNodes FieldNode) : extends context s s.
Proof. split; [done|]. exists []. by rewrite app_nil_r. Qed.

Lemma extends_trans (s1 s2 s3 : WalkState ArgumentNodes FieldNode) :
  extends context s1 s2 → extends context s2 s3 → extends context s1 s3.
Proof.
  intros [Hv1 (m1 & Hn1 & Hm1)] [Hv2 (m2 & Hn2 & Hm2)].
  split; [by transitivity (visitedFragmentNames s2)|].
  exists (m1 ++ m2). split; [by rewrite Hn2, Hn1, app_assoc|by apply Forall_app].
Qed.

Lemma extends_remaining (s s' : WalkState ArgumentNodes FieldNode) :
  extends context s s' → remaining context s' ≤ remaining context s.
Proof.
  intros [Hv _]. apply subseteq_size. intros x [Hd Hn]%elem_of_difference.
  apply elem_of_difference. split; [done|]. intros Hx. by apply Hn, Hv.
Qed.

Lemma remaining_visit (s : WalkState ArgumentNodes FieldNode) name fragment :
  name ∉ visitedFragmentNames s →
  fragments context !! name = Some fragment →
  remaining context (mkWalkState ({[name]} ∪ visitedFragmentNames s) (nodes s))
  < remaining context s.
Proof.
  intros Hnotin Hfragment. apply subset_size. cbn [visitedFragmentNames].
  apply elem_of_dom_2 in Hfragment. split.
  - intros x [Hd Hn]%elem_of_difference. apply elem_of_difference. split; [done|].
    intros Hx. apply Hn. apply elem_of_union. by right.
  - intros Hsub. assert (name ∈ dom (fragments context) ∖ visitedFragmentNames s) as Hname
      by by apply elem_of_difference.
    apply Hsub in Hname. apply elem_of_difference in Hname as [_ Hname].
    apply Hname. apply elem_of_union. left. by apply elem_of_singleton.
Qed.

Lemma forEach_agreeBelow {A : Type} n
    (m1 m2 : A → Walk (ArgumentNodes := ArgumentNodes) (FieldNode := FieldNode) unit)
    (items : list A) s :
  Forall (fun a => ∀ s, remaining context s < n →
            m1 a s = m2 a s ∧ m1 a s ≠ Throw OutOfFuel
            ∧ ∀ u s', m1 a s = Ok (u, s') → extends context s s') items →
  remaining context s < n →
  forEach m1 items s = forEach m2 items s
  ∧ forEach m1 items s ≠ Throw OutOfFuel
  ∧ ∀ u s', forEach m1 items s = Ok (u, s') → extends context s s'.
Proof.
  intros Hitems. revert s. induction Hitems as [|a rest Ha _ IH]; intros s Hs.
  - cbn. unfold ret. split; [done|]. split; [done|]. intros u s' [= _ <-]. apply extends_refl.
  - cbn [forEach]. unfold bind. destruct (Ha s Hs) as (Heq & Hfuel & Hext).
    rewrite <- Heq. destruct (m1 a s) as [[u s1]|e] eqn:Hm1; [|done].
    specialize (Hext u s1 eq_refl).
    assert (remaining context s1 < n) as Hs1
      by (pose proof (extends_remaining _ _ Hext); lia).
    destruct (IH s1 Hs1) as (Heq' & Hfuel' & Hext').
    split; [done|]. split; [done|]. intros u' s' Hrest.
    eapply extends_trans; [exact Hext|]. by eapply Hext'.
Qed.

Lemma walkSelection_agreeBelow n
    (walk1 walk2 : list (Selection ArgumentNodes FieldNode) → Walk unit) :
  agreeBelow context n walk1 walk2 →
  agreeBelow context (S n) (walkSelection context walk1) (walkSelection context walk2).
Proof.
  intros Hwalk selection. induction selection as [d f|d selectionSet IH|d name]
    using Selection_nested_ind; intros s Hs; cbn [walkSelection directivesOf].
  - destruct (shouldIncludeNode _ _) as [[|]|e] eqn:Hinc.
    + split; [done|]. split; [done|]. intros u s' [= _ <-]. split; [done|].
      exists [Field d f]. split; [done|]. by constructor.
    + split; [done|]. split; [done|]. intros u s' [= _ <-]. apply extends_refl.
    + done.
  - destruct (shouldIncludeNode _ _) as [[|]|e] eqn:Hinc.
    + by apply (forEach_agreeBelow (S n)).
    + split; [done|]. split; [done|]. intros u s' [= _ <-]. apply extends_refl.
    + done.
  - destruct (shouldIncludeNode _ _) as [[|]|e] eqn:Hinc.
    + destruct (decide (name ∈ visitedFragmentNames s)) as [Hin|Hnotin].
      { split; [done|]. split; [done|]. intros u s' [= _ <-]. apply extends_refl. }
      destruct (fragments context !! name) as [fragment|] eqn:Hfragment; [|done].
      pose proof (remaining_visit s name fragment Hnotin Hfragment) as Hless.
      destruct (Hwalk fragment
                  (mkWalkState ({[name]} ∪ visitedFragmentNames s) (nodes s)) ltac:(lia))
        as (Heq & Hfuel & Hext).
      split; [done|]. split; [done|]. intros u s' Hs'.
      eapply extends_trans; [|by eapply Hext]. split; [apply union_subseteq_r|].
      exists []. cbn [nodes]. by rewrite app_nil_r.
    + split; [done|]. split; [done|]. intros u s' [= _ <-]. apply extends_refl.
    + done.
Qed.

Lemma walk_agreeBelow n fuel1 fuel2 :
  n ≤ fuel1 → n ≤ fuel2 → agreeBelow context n (walk fuel1 context) (walk fuel2 context).
Proof.
  revert fuel1 fuel2. induction n as [|n IH]; intros fuel1 fuel2 H1 H2.
  - intros selections s Hs. lia.
  - destruct fuel1 as [|fuel1]; [lia|]. destruct fuel2 as [|fuel2]; [lia|].
    intros selections s Hs. cbn [walk]. apply (forEach_agreeBelow (S n)); [|done].
    apply Forall_forall. intros selection _.
    apply walkSelection_agreeBelow. apply IH; lia.
Qed.

Lemma remaining_initial :
  remaining context (mkWalkState ∅ []) = size (dom (fragments context)).
Proof. unfold remaining. cbn [visitedFragmentNames]. by rewrite difference_empty_L. Qed.

Lemma walk_extends fuel selections s u s' :
  walk fuel context selections s = Ok (u, s') → extends context s s'.
Proof.
  revert selections s u s'. induction fuel as [|fuel IHfuel]; [done|].
  assert (∀ selection s u s',
            walkSelection context (walk fuel context) selection s = Ok (u, s') →
            extends context s s') as Hturn.
  { induction selection as [d f|d selectionSet IH|d name] using Selection_nested_ind;
      intros s u s'; cbn [walkSelection directivesOf];
      destruct (shouldIncludeNode _ _) as [[|]|e] eqn:Hinc; try done;
      try (intros [= _ <-]; apply extends_refl).
    - intros [= _ <-]. split; [done|]. exists [Field d f]. split; [done|]. by constructor.
    - revert s u s'. induction IH as [|x rest Hx _ IHrest]; intros s u s'.
      + cbn. unfold ret. intros [= _ <-]. apply extends_refl.
      + cbn [forEach]. unfold bind.
        destruct (walkSelection context (walk fuel context) x s) as [[u1 s1]|e] eqn:Hx1;
          [|done].
        intros Hrest. eapply extends_trans; [by eapply Hx|by eapply IHrest].
    - destruct (decide _); [intros [= _ <-]; apply extends_refl|].
      destruct (fragments context !! name) as [fragment|]; [|done].
      intros Hjump. eapply extends_trans; [|by eapply IHfuel].
      split; [apply union_subseteq_r|]. exists []. cbn [nodes]. by rewrite app_nil_r. }
  intros selections. cbn [walk]. induction selections as [|x rest IHrest]; intros s u s'.
  - cbn. unfold ret. intros [= _ <-]. apply extends_refl.
  - cbn [forEach]. unfold bind.
    destruct (walkSelection context (walk fuel context) x s) as [[u1 s1]|e] eqn:Hx1; [|done].
    intros Hrest. eapply extends_trans; [by eapply Hturn|by eapply IHrest].
Qed.

(** X18.  [resolveSelections] ends however the fragments refer to each
    other: with more fuel than there are fragments the walk never runs out
    of fuel, not even on fragments that spread themselves or one another,
    and its outcome (the fields or the error) is the same for every such
    amount of fuel. *)
Theorem resolveSelections_ends_however_fragments_refer_to_each_other :
  ∀ (fuel : nat) (selectionSet : list (Selection ArgumentNodes FieldNode)),
    size (dom (fragments context)) < fuel →
    resolveSelections fuel selectionSet context ≠ Throw OutOfFuel
    ∧ ∀ fuel', size (dom (fragments context)) < fuel' →
        resolveSelections fuel' selectionSet context
        = resolveSelections fuel selectionSet context.
Proof.
  intros fuel selectionSet Hfuel. unfold resolveSelections. split.
  - destruct (walk_agreeBelow (S (size (dom (fragments context)))) fuel fuel
                ltac:(lia) ltac:(lia) selectionSet (mkWalkState ∅ []))
      as (_ & Hends & _); [rewrite remaining_initial; lia|].
    by destruct (walk fuel context selectionSet _) as [[u s]|[|message]].
  - intros fuel' Hfuel'.
    destruct (walk_agreeBelow (S (size (dom (fragments context)))) fuel' fuel
                ltac:(lia) ltac:(lia) selectionSet (mkWalkState ∅ []))
      as (-> & _ & _); [rewrite remaining_initial; lia|done].
Qed.

Lemma walk_reports_direct_fields fuel selections d f s u s' :
  In (Field d f) selections →
  isIncludedField context (Field d f) →
  walk fuel context selections s = Ok (u, s') →
  In (Field d f) (nodes s').
Proof.
  intros Hin Hincluded. destruct fuel as [|fuel]; [done|]. cbn [walk].
  revert s u s'. induction selections as [|x rest IH]; intros s u s'; [done|].
  cbn [forEach]. unfold bind.
  destruct (walkSelection context (walk fuel context) x s) as [[u1 s1]|e] eqn:Hx; [|done].
  intros Hrest. destruct Hin as [->|Hin]; [|by eapply IH].
  cbn [walkSelection directivesOf] in Hx. cbn [isIncludedField] in Hincluded.
  rewrite Hincluded in Hx. injection Hx as _ <-.
  assert (extends context
            (mkWalkState (visitedFragmentNames s) (nodes s ++ [Field d f])) s') as Hext.
  { clear IH. revert Hrest. generalize (mkWalkState (visitedFragmentNames s)
                                          (nodes s ++ [Field d f])).
    intros s1 Hrest. apply (walk_extends (S fuel) rest s1 u s'). exact Hrest. }
  destruct Hext as [_ (more & -> & _)]. cbn [nodes].
  apply in_or_app. left. apply in_or_app. right. by left.
Qed.

(** X19.  What [resolveSelections] returns are field nodes that
    [shouldIncludeNode] lets through, and nothing else: no skipped field, no
    fragment.  Every field of the selection set itself that
    [shouldIncludeNode] lets through is among them. *)
Theorem resolveSelections_reports_the_included_fields :
  ∀ (fuel : nat) (selectionSet result : list (Selection ArgumentNodes FieldNode)),
    resolveSelections fuel selectionSet context = Ok result →
    Forall (isIncludedField context) result
    ∧ ∀ directives field,
        In (Field directives field) selectionSet →
        isIncludedField context (Field directives field) →
        In (Field directives field) result.
Proof.
  intros fuel selectionSet result. unfold resolveSelections.
  destruct (walk fuel context selectionSet _) as [[u s]|e] eqn:Hwalk; [|done].
  intros [= <-]. split.
  - by destruct (walk_extends _ _ _ _ _ Hwalk) as [_ (more & -> & Hmore)].
  - intros directives field Hin Hincluded.
    by eapply walk_reports_direct_fields.
Qed.

End WalkFacts.
End SelectionFacts.

(* ===================================================================== *)
(** * Facts about the data paths of the sidecar validator *)
(* ===================================================================== *)

Module SidecarPathFacts.
Import SidecarPaths.
Local Open Scope nat_scope.

Lemma replaceAll_skip matchAt (taken rest : Text) :
  replaceAll matchAt (length taken) (taken ++ rest) = replaceAll matchAt 0 rest.
Proof.
  induction taken as [|c taken IH]; [by destruct rest|]. exact IH.
Qed.

Lemma replaceAll_match matchAt (c : ascii) (taken rest replacement : Text) :
  matchAt (c :: taken ++ rest) = Some (replacement, S (length taken)) →
  replaceAll matchAt 0 (c :: taken ++ rest) = replacement ++ replaceAll matchAt 0 rest.
Proof.
  intros Hmatch. cbn [replaceAll]. rewrite Hmatch. cbn [pred].
  by rewrite replaceAll_skip.
Qed.

Lemma replaceAll_none matchAt (trigger : ascii) (kept rest : Text) :
  (∀ c s, c ≠ trigger → matchAt (c :: s) = None) →
  Forall (fun c => c ≠ trigger) kept →
  replaceAll matchAt 0 (kept ++ rest) = kept ++ replaceAll matchAt 0 rest.
Proof.
  intros Hother. induction 1 as [|c kept Hc _ IH]; [done|].
  cbn [app replaceAll]. rewrite (Hother c _ Hc). by rewrite IH.
Qed.

Lemma longest_stop (class : ascii → bool) (name rest : Text) :
  forallb class name = true →
  match rest with c :: _ => class c = false | [] => True end →
  longest class (name ++ rest) = name.
Proof.
  intros Hname Hrest. induction name as [|c name IH].
  - destruct rest as [|c rest]; [done|]. cbn. by rewrite Hrest.
  - cbn [forallb] in Hname. apply andb_true_iff in Hname as [Hc Hname].
    cbn [app longest]. rewrite Hc. by rewrite IH.
Qed.

Lemma matchDotName_other c s : c ≠ "."%char → matchDotName (c :: s) = None.
Proof.
  intros Hc. unfold matchDotName.
  destruct c as [[] [] [] [] [] [] [] []]; try done.
Qed.

Lemma matchQuotedName_other c s : c ≠ "["%char → matchQuotedName (c :: s) = None.
Proof.
  intros Hc. unfold matchQuotedName.
  destruct c as [[] [] [] [] [] [] [] []]; try done.
Qed.

Lemma matchBracket_other c s : c ≠ "["%char → matchBracket (c :: s) = None.
Proof.
  intros Hc. unfold matchBracket.
  destruct c as [[] [] [] [] [] [] [] []]; try done.
Qed.

Lemma Forall_class (class : ascii → bool) (other : ascii) (s : Text) :
  class other = false → forallb class s = true → Forall (fun c => c ≠ other) s.
Proof.
  intros Hother Hs. apply List.Forall_forall. intros c Hin ->.
  rewrite forallb_forall in Hs. specialize (Hs other Hin). by rewrite Hother in Hs.
Qed.

Lemma rendered_head (steps : list Step) :
  match concat (map render steps) with
  | c :: _ => isWordChar c = false
  | [] => True
  end.
Proof. by destruct steps as [|[name|name|digits] steps]. Qed.

Lemma quoted_chars (other : ascii) (name : Text) :
  negb (Ascii.eqb other "'") && negb (Ascii.eqb other ".") && negb (Ascii.eqb other "[")
  = false →
  forallb (fun c => negb (Ascii.eqb c "'") && negb (Ascii.eqb c ".")
                    && negb (Ascii.eqb c "[")) name = true →
  Forall (fun c => c ≠ other) name.
Proof.
  apply (Forall_class (fun c => negb (Ascii.eqb c "'") && negb (Ascii.eqb c ".")
                                && negb (Ascii.eqb c "[")) other name).
Qed.

Lemma replace_dots (steps : list Step) :
  forallb wellFormed steps = true →
  replaceAll matchDotName 0 (concat (map render steps)) = concat (map afterDots steps).
Proof.
  induction steps as [|step steps IH]; [done|]. cbn [forallb map concat].
  intros [Hstep Hsteps]%andb_true_iff. specialize (IH Hsteps).
  destruct step as [name|name|digits]; cbn [render afterDots wellFormed] in *.
  - apply andb_true_iff in Hstep as [Hname Hword].
    change (("."%char :: name) ++ concat (map render steps))
      with ("."%char :: name ++ concat (map render steps)).
    rewrite (replaceAll_match _ _ _ _ ("/"%char :: name)); [by rewrite IH|].
    unfold matchDotName.
    rewrite (longest_stop isWordChar name _ Hword (rendered_head steps)).
    destruct name; [by rewrite bool_decide_true in Hname|done].
  - rewrite (replaceAll_none matchDotName "."%char _ _ matchDotName_other);
      [by rewrite IH|].
    constructor; [done|]. constructor; [done|]. apply Forall_app. split.
    + by apply quoted_chars.
    + by repeat constructor.
  - rewrite (replaceAll_none matchDotName "."%char _ _ matchDotName_other);
      [by rewrite IH|].
    constructor; [done|]. apply Forall_app. split.
    + by apply (Forall_class isDigit).
    + by repeat constructor.
Qed.

Lemma replace_quotes (steps : list Step) :
  forallb wellFormed steps = true →
  replaceAll matchQuotedName 0 (concat (map afterDots steps))
  = concat (map afterQuotes steps).
Proof.
  induction steps as [|step steps IH]; [done|]. cbn [forallb map concat].
  intros [Hstep Hsteps]%andb_true_iff. specialize (IH Hsteps).
  destruct step as [name|name|digits]; cbn [render afterDots afterQuotes wellFormed] in *.
  - apply andb_true_iff in Hstep as [Hname Hword].
    rewrite (replaceAll_none matchQuotedName "["%char _ _ matchQuotedName_other);
      [by rewrite IH|].
    constructor; [done|]. by apply (Forall_class isWordChar).
  - change (("["%char :: "'"%char :: name ++ ["'"%char; "]"%char])
            ++ concat (map afterDots steps))
      with ("["%char :: ("'"%char :: name ++ ["'"%char; "]"%char])
            ++ concat (map afterDots steps)).
    rewrite (replaceAll_match _ _ _ _ ("/"%char :: name)); [by rewrite IH|].
    cbn [app length]. rewrite <- app_assoc. cbn [app]. unfold matchQuotedName.
    rewrite (longest_stop (fun c => negb (Ascii.eqb c "'")) name).
    + rewrite drop_app_length. rewrite length_app. cbn [length].
      do 2 f_equal. lia.
    + rewrite forallb_forall in Hstep. apply forallb_forall. intros c Hc.
      specialize (Hstep c Hc). by destruct (Ascii.eqb c "'").
    + done.
  - change (("["%char :: digits ++ ["]"%char]) ++ concat (map afterDots steps))
      with ("["%char :: (digits ++ ["]"%char]) ++ concat (map afterDots steps)).
    cbn [replaceAll].
    assert (matchQuotedName ("["%char :: (digits ++ ["]"%char])
                             ++ concat (map afterDots steps)) = None) as ->.
    { unfold matchQuotedName. destruct digits as [|d digits]; [done|].
      cbn [forallb] in Hstep. apply andb_true_iff in Hstep as [Hd _].
      cbn [app]. destruct d as [[] [] [] [] [] [] [] []]; try done. }
    rewrite (replaceAll_none matchQuotedName "["%char _ _ matchQuotedName_other);
      [by rewrite IH|].
    apply Forall_app. split.
    + by apply (Forall_class isDigit).
    + by repeat constructor.
Qed.

Lemma replace_brackets (steps : list Step) :
  forallb wellFormed steps = true →
  replaceAll matchBracket 0 (concat (map afterQuotes steps))
  = concat (map reformatted steps).
Proof.
  induction steps as [|step steps IH]; [done|]. cbn [forallb map concat].
  intros [Hstep Hsteps]%andb_true_iff. specialize (IH Hsteps).
  destruct step as [name|name|digits];
    cbn [render afterQuotes reformatted wellFormed] in *.
  - apply andb_true_iff in Hstep as [Hname Hword].
    rewrite (replaceAll_none matchBracket "["%char _ _ matchBracket_other);
      [by rewrite IH|].
    constructor; [done|]. by apply (Forall_class isWordChar).
  - rewrite (replaceAll_none matchBracket "["%char _ _ matchBracket_other);
      [by rewrite IH|].
    constructor; [done|]. by apply quoted_chars.
  - change (("["%char :: digits ++ ["]"%char]) ++ concat (map afterQuotes steps))
      with ("["%char :: (digits ++ ["]"%char]) ++ concat (map afterQuotes steps)).
    rewrite (replaceAll_match _ _ _ _ ("/"%char :: lastOrUndefined digits));
      [by rewrite IH|].
    rewrite <- app_assoc. cbn [app]. unfold matchBracket.
    rewrite (longest_stop (fun c => negb (Ascii.eqb c "]")) digits).
    + rewrite drop_app_length. rewrite length_app. cbn [length].
      do 2 f_equal. lia.
    + rewrite forallb_forall in Hstep. apply forallb_forall. intros c Hc.
      specialize (Hstep c Hc). destruct c as [[] [] [] [] [] [] [] []]; done.
    + done.
Qed.

Lemma reformatted_shorter (steps : list Step) :
  forallb hasIndexDigit steps = true →
  length (concat (map reformatted steps))
  + (if forallb hasShortIndex steps then 0 else 1)
  ≤ length (concat (map pointer steps)).
Proof.
  induction steps as [|step steps IH]; [done|]. cbn [forallb map concat].
  intros [Hstep Hsteps]%andb_true_iff. specialize (IH Hsteps).
  rewrite !length_app.
  destruct step as [name|name|digits]; cbn [reformatted pointer hasShortIndex andb length].
  - lia.
  - lia.
  - cbn [hasIndexDigit] in Hstep. unfold lastOrUndefined.
    destruct digits as [|d [|d' digits]]; [done| |].
    + cbn [last length Nat.eqb andb]. lia.
    + destruct (last (d :: d' :: digits)) eqn:Hlast; [|by apply last_None in Hlast].
      cbn [length Nat.eqb andb].
      destruct (forallb hasShortIndex steps); lia.
Qed.

(** X22.  For a data path made of [.name], [['name']] and [[index]] steps
    in which every name after a dot is a non-empty word, no quoted name
    holds a quote, a dot or an opening bracket, and every index is written
    in digits, [reformatPath] turns every name step into a slash and the
    name, and every index step into a slash and the last digit of the index
    only.  The result is the JSON pointer of the path when every index has
    one digit; when some index has more (and none is empty) it is not.
    Paths with other names are outside the statement. *)
Theorem reformatPath_keeps_the_last_digit_of_an_index :
  ∀ steps : list Step,
    forallb wellFormed steps = true →
    reformatPath (concat (map render steps)) = concat (map reformatted steps)
    ∧ (forallb hasShortIndex steps = true →
       reformatPath (concat (map render steps)) = concat (map pointer steps))
    ∧ (forallb hasIndexDigit steps = true →
       forallb hasShortIndex steps = false →
       reformatPath (concat (map render steps)) ≠ concat (map pointer steps)).
Proof.
  intros steps Hsteps.
  assert (reformatPath (concat (map render steps)) = concat (map reformatted steps))
    as Hreformatted.
  { unfold reformatPath. by rewrite replace_dots, replace_quotes, replace_brackets. }
  split; [exact Hreformatted|]. split.
  - intros Hshort. rewrite Hreformatted. f_equal. apply map_ext_in.
    intros step Hin. rewrite forallb_forall in Hshort. specialize (Hshort step Hin).
    destruct step as [name|name|digits]; [done|done|].
    cbn [hasShortIndex] in Hshort. apply Nat.eqb_eq in Hshort.
    destruct digits as [|d [|d' digits]]; done.
  - intros Hdigits Hlong. rewrite Hreformatted. intros Heq.
    pose proof (reformatted_shorter steps Hdigits) as Hlength.
    rewrite Hlong, Heq in Hlength. lia.
Qed.

End SidecarPathFacts.

(* ===================================================================== *)
(** * The theorems at work on the sample data *)
(* ===================================================================== *)

Module Examples.
Import ErrorPass QueryTree Authorization JS Semantics Generator Samples Selections.
Import ErrorPlacement Graph Processors Mutations SidecarPaths GraphSamples.
Import ErrorPlacementFacts GraphFacts ProcessorFacts MutationFacts AccessFacts CompilationFacts
  SelectionFacts SidecarPathFacts.

Lemma errors_at_output_positions_stay_witness :
  moveErrorsToOutputNodes innerErrorTree = innerErrorTree.
Proof. exact (errors_at_output_positions_stay innerErrorTree eq_refl). Defined.

Lemma errors_reach_an_output_position_witness :
  errorAtOutput true (moveErrorsToOutputNodes filterErrorTree) = true.
Proof.
  apply (errors_reach_an_output_position filterErrorTree); [reflexivity|].
  vm_compute. discriminate.
Defined.

Lemma followEdge_collects_targets_witness :
  ∃ code : JSExpr,
    processNode (FollowEdgeQueryNode heroMissions firstHero FROM_SIDE) emptyContext
      (mkGenState 0 []) = Ok (code, mkGenState 2 [])
    ∧ eval code [] graphStore = Ok (VList [VRef 2; VRef 3], graphStore).
Proof.
  exact (followEdge_collects_targets heroMissions firstHero FROM_SIDE emptyContext
           (mkGenState 0 []) (mkGenState 2 []) (EIndex (ECollection "heros") (EInteger 0))
           [] graphStore (VRef 0) "h1" [VRef 4; VRef 5; VRef 6] [VRef 2; VRef 3]
           eq_refl eq_refl eq_refl eq_refl eq_refl (fun _ => eq_refl) eq_refl).
Defined.

Lemma entityFromId_finds_first_witness :
  ∃ code : JSExpr,
    processEntityFromId Mission (literalId "m2") 7 emptyContext (mkGenState 0 []) =
      Ok (code, mkGenState 3 [])
    ∧ eval code [] graphStore = Ok (VRef 3, graphStore).
Proof.
  eapply (entityFromId_finds_first Mission (literalId "m2") 7%nat emptyContext
            (mkGenState 0 []) (mkGenState 1 []) _ [] graphStore
            [VRef 2; VRef 3] (VString "m2")).
  - reflexivity.
  - reflexivity.
  - reflexivity.
  - reflexivity.
  - intros item. reflexivity.
Defined.

Lemma createEntity_stores_with_generated_id_witness :
  ∃ code : JSExpr,
    processNode
      (CreateEntityQueryNode Mission
         (ObjectQueryNode [mkProperty "title" (LiteralQueryNode (JString "Relief"))]))
      emptyContext (mkGenState 0 []) = Ok (code, mkGenState 2 [])
    ∧ eval code [] graphStore =
      Ok (VString "100",
          mkStore (heap graphStore ++ [[("title", VString "Relief"); ("id", VString "100")]])
            (<["missions" := [VRef 2; VRef 3; VRef 7]]> (collections graphStore)) 101).
Proof.
  edestruct createEntity_stores_with_generated_id
    with (objectType := Mission)
         (objectNode :=
            ObjectQueryNode [mkProperty "title" (LiteralQueryNode (JString "Relief"))])
         (context := emptyContext) (gs := mkGenState 0 []) (env := @nil (nat * Value))
         (st := graphStore)
    as (code & Hcode & Heval & _).
  - reflexivity.
  - reflexivity.
  - reflexivity.
  - reflexivity.
  - exists code. split; [exact Hcode|]. rewrite Heval. reflexivity.
Defined.

Lemma mergeObjects_assigns_onto_a_fresh_object_witness :
  ∃ code : JSExpr,
    processNode (MergeObjectsQueryNode [firstHero; NullQueryNode; firstHero]) emptyContext
      (mkGenState 0 []) = Ok (code, mkGenState 0 [])
    ∧ eval code [] graphStore =
      Ok (VRef 7,
          mkStore (heap graphStore ++ [[("id", VString "h1"); ("name", VString "Flash")]])
            (collections graphStore) 100).
Proof.
  edestruct mergeObjects_assigns_onto_a_fresh_object
    with (objectNodes := [firstHero; NullQueryNode; firstHero]) (context := emptyContext)
         (gs := mkGenState 0 []) (env := @nil (nat * Value)) (st := graphStore)
    as (code & Hcode & Heval & _).
  - reflexivity.
  - reflexivity.
  - reflexivity.
  - reflexivity.
  - exists code. split; [exact Hcode|]. rewrite Heval. reflexivity.
Defined.

Lemma runtime_error_as_filter_accepts_every_item_witness :
  ∃ code : JSExpr,
    processNode
      (newTransformList (EntitiesQueryNode Hero) (mkVar "item" 7)
         (RuntimeErrorQueryNode "Not authorized"))
      emptyContext (mkGenState 0 []) = Ok (code, mkGenState 1 [])
    ∧ eval code [] graphStore =
      Ok (VList [VRef 0; VRef 1],
          mkStore (heap graphStore
                   ++ [[("__cruddl_runtime_error", VString "Not authorized")];
                       [("__cruddl_runtime_error", VString "Not authorized")]])
            (collections graphStore) 100).
Proof.
  edestruct runtime_error_as_filter_accepts_every_item
    with (listNode := EntitiesQueryNode Hero) (itemVariable := mkVar "item" 7)
         (message := "Not authorized") (context := emptyContext) (gs := mkGenState 0 [])
         (env := @nil (nat * Value)) (st := graphStore)
    as (code & Hcode & Heval).
  - reflexivity.
  - reflexivity.
  - reflexivity.
  - exists code. split; [exact Hcode|]. rewrite Heval. reflexivity.
Defined.

Lemma introducing_a_variable_twice_throws_witness :
  processNode
    (VariableAssignmentQueryNode hero NullQueryNode (VariableQueryNode hero))
    (mkContext {[ 0%nat := mkJSVar "hero" 0 false ]}) (mkGenState 1 [])
  = Throw "Variable $hero is introduced twice".
Proof.
  exact (proj1 (introducing_a_variable_twice_throws
                  (mkContext {[ 0%nat := mkJSVar "hero" 0 false ]}) hero
                  (mkJSVar "hero" 0 false) (mkGenState 1 []) eq_refl)
           NullQueryNode (VariableQueryNode hero)).
Defined.


Lemma first_and_count_of_a_list_witness :
  (∃ code : JSExpr,
     processNode (FirstOfListQueryNode (EntitiesQueryNode Hero)) emptyContext
       (mkGenState 0 []) = Ok (code, mkGenState 0 [])
     ∧ eval code [] graphStore = Ok (VRef 0, graphStore))
  ∧ (∃ code : JSExpr,
       processNode (CountQueryNode (EntitiesQueryNode Hero)) emptyContext
         (mkGenState 0 []) = Ok (code, mkGenState 0 [])
       ∧ eval code [] graphStore = Ok (VNumber 2, graphStore)).
Proof.
  exact (first_and_count_of_a_list (EntitiesQueryNode Hero) emptyContext (mkGenState 0 [])
           (mkGenState 0 []) (ECollection "heros") [] graphStore graphStore
           (VList [VRef 0; VRef 1]) eq_refl eq_refl).
Defined.

Lemma deleteEntities_returns_the_entities_and_removes_them_witness :
  ∃ code : JSMutation,
    processDeleteEntities Mission (ListQueryNode [FirstOfListQueryNode (EntitiesQueryNode Mission)])
      (mkVar "mission" 7) emptyContext (mkGenState 0 []) = Ok (code, mkGenState 3 [])
    ∧ evalMutation code [] graphStore =
      Ok (VList [VRef 2],
          mkStore (heap graphStore) (<["missions" := [VRef 3]]> (collections graphStore))
            100).
Proof.
  edestruct deleteEntities_returns_the_entities_and_removes_them
    with (objectType := Mission)
         (listNode := ListQueryNode [FirstOfListQueryNode (EntitiesQueryNode Mission)])
         (currentEntityVariable := mkVar "mission" 7) (context := emptyContext)
         (gs := mkGenState 0 []) (env := @nil (nat * Value)) (st := graphStore)
    as (code & Hcode & Heval).
  - reflexivity.
  - reflexivity.
  - reflexivity.
  - reflexivity.
  - reflexivity.
  - reflexivity.
  - exists code. split; [exact Hcode|]. rewrite Heval. reflexivity.
Defined.

Lemma addEdges_appends_one_edge_per_pair_witness :
  ∃ code : JSMutation,
    processAddEdges heroMissions [(literalId "h2", literalId "m2")] emptyContext
      (mkGenState 0 []) = Ok (code, mkGenState 0 [])
    ∧ evalMutation code [] graphStore =
      Ok (VUndefined,
          mkStore (heap graphStore ++ [[("_from", VString "h2"); ("_to", VString "m2")]])
            (<["heros_missions" := [VRef 4; VRef 5; VRef 6; VRef 7]]>
               (collections graphStore))
            100).
Proof.
  edestruct addEdges_appends_one_edge_per_pair
    with (edgeType := heroMissions) (edges := [(literalId "h2", literalId "m2")])
         (context := emptyContext) (gs := mkGenState 0 []) (env := @nil (nat * Value))
         (st := graphStore) (ends := [(VString "h2", VString "m2")])
    as (code & Hcode & Heval).
  - reflexivity.
  - constructor; [|constructor]. intros st'. split; reflexivity.
  - exists code. split; [exact Hcode|]. rewrite Heval. reflexivity.
Defined.

Lemma removeEdges_removes_the_edges_that_match_witness :
  ∃ code : JSMutation,
    processRemoveEdges heroMissions (Some [literalId "h1"]) None emptyContext
      (mkGenState 0 []) = Ok (code, mkGenState 1 [])
    ∧ evalMutation code [] graphStore =
      Ok (VUndefined,
          mkStore (heap graphStore)
            (<["heros_missions" := [VRef 5]]> (collections graphStore)) 100).
Proof.
  edestruct removeEdges_removes_the_edges_that_match
    with (edgeType := heroMissions) (fromIDNodes := Some [literalId "h1"])
         (toIDNodes := @None (list QueryNode)) (context := emptyContext)
         (gs := mkGenState 0 []) (env := @nil (nat * Value)) (st := graphStore)
         (fromIds := Some [VString "h1"]) (toIds := @None (list Value))
    as (code & Hcode & Heval).
  - reflexivity.
  - reflexivity.
  - reflexivity.
  - reflexivity.
  - intros edge. reflexivity.
  - intros edge. reflexivity.
  - exists code. split; [exact Hcode|]. rewrite Heval. reflexivity.
Defined.

Lemma setEdge_replaces_the_edges_that_match_witness :
  ∃ code : JSMutation,
    processSetEdge heroMissions (Some (literalId "h2")) None (literalId "h2")
      (literalId "m2") emptyContext (mkGenState 0 []) = Ok (code, mkGenState 1 [])
    ∧ evalMutation code [] graphStore =
      Ok (VUndefined,
          mkStore (heap graphStore ++ [[("_from", VString "h2"); ("_to", VString "m2")]])
            (<["heros_missions" := [VRef 4; VRef 6; VRef 7]]> (collections graphStore))
            100).
Proof.
  edestruct setEdge_replaces_the_edges_that_match
    with (edgeType := heroMissions) (existingFrom := Some (literalId "h2"))
         (existingTo := @None QueryNode) (newFrom := literalId "h2")
         (newTo := literalId "m2") (context := emptyContext)
         (gs := mkGenState 0 []) (env := @nil (nat * Value)) (st := graphStore)
         (fromId := Some "h2") (toId := @None string)
         (newEnds := (VString "h2", VString "m2"))
    as (code & Hcode & Heval).
  - reflexivity.
  - reflexivity.
  - reflexivity.
  - reflexivity.
  - reflexivity.
  - reflexivity.
  - intros edge. reflexivity.
  - intros edge. reflexivity.
  - intros st'. split; reflexivity.
  - exists code. split; [exact Hcode|]. rewrite Heval. reflexivity.
Defined.

Lemma followEdge_checks_the_field_as_a_field_read_witness :
  transformFollowEdgeQueryNode (sampleDescriptors DENIED GRANTED) heroMissions
    NullQueryNode FROM_SIDE ["agent"] 7
  = transformFieldQueryNode (sampleDescriptors DENIED GRANTED) NullQueryNode
      (mkField "missions") Hero ["agent"].
Proof.
  apply (proj2 (followEdge_checks_the_field_as_a_field_read
                  (sampleDescriptors DENIED GRANTED) heroMissions NullQueryNode FROM_SIDE
                  ["agent"] 7%nat (mkField "missions") eq_refl)).
  vm_compute. discriminate.
Defined.

Lemma conditional_access_filters_the_followed_edge_witness :
  ∃ (authorized : QueryNode) (code : JSExpr),
    transformFollowEdgeQueryNode (sampleDescriptors GRANTED CONDITIONAL) heroMissions
      firstHero FROM_SIDE ["agent"] 7 = Ok authorized
    ∧ processNode authorized emptyContext (mkGenState 0 []) = Ok (code, mkGenState 6 [])
    ∧ eval code [] graphStore = Ok (VList [VRef 2], graphStore).
Proof.
  edestruct (conditional_access_filters_the_followed_edge
               (sampleDescriptors GRANTED CONDITIONAL))
    with (edgeType := heroMissions) (sourceEntityNode := firstHero)
         (sourceFieldSide := FROM_SIDE) (authContext := ["agent"]) (fresh := 7%nat)
         (accessGroupField := mkField "accessGroup") (context := emptyContext)
         (gs := mkGenState 0 []) (env := @nil (nat * Value)) (st := graphStore)
         (st1 := graphStore) (reached := [VRef 2; VRef 3]) (accepted := isForAgents)
    as (authorized & code & Hauthorized & Hcode & Heval).
  - reflexivity.
  - reflexivity.
  - reflexivity.
  - reflexivity.
  - cbv. reflexivity.
  - cbv. reflexivity.
  - reflexivity.
  - intros item [<-|[<-|[]]]; eexists; split; reflexivity.
  - exists authorized, code. split; [exact Hauthorized|]. split; [exact Hcode|].
    rewrite Heval. reflexivity.
Defined.

Lemma resolveSelections_ends_however_fragments_refer_to_each_other_witness :
  resolveSelections 3 sampleSelectionSet sampleResolveContext ≠ Throw OutOfFuel
  ∧ resolveSelections 9 sampleSelectionSet sampleResolveContext
    = resolveSelections 3 sampleSelectionSet sampleResolveContext.
Proof.
  assert (size (dom (fragments sampleResolveContext)) < 3)%nat as Hfuel
    by (vm_compute; lia).
  destruct (resolveSelections_ends_however_fragments_refer_to_each_other
              sampleResolveContext 3%nat sampleSelectionSet Hfuel) as [Hends Hsame].
  split; [exact Hends|]. apply Hsame. vm_compute. lia.
Defined.

Lemma resolveSelections_reports_the_included_fields_witness :
  Forall (isIncludedField sampleResolveContext)
    [Field None "x"; Field None "a"; Field None "b"; Field None "y"].
Proof.
  exact (proj1 (resolveSelections_reports_the_included_fields sampleResolveContext 3%nat
                  sampleSelectionSet
                  [Field None "x"; Field None "a"; Field None "b"; Field None "y"]
                  eq_refl)).
Defined.

Lemma getJSQuery_rejects_free_variables_witness :
  ∃ e : string, getJSQuery (heroField "name") = Throw e.
Proof.
  exact (getJSQuery_rejects_free_variables (heroField "name") 0%nat eq_refl eq_refl).
Defined.

Lemma reformatPath_keeps_the_last_digit_of_an_index_witness :
  reformatPath (concat (map render sampleDataPath))
  = String.list_ascii_of_string "/permissionProfiles/my-profile/permissions/0/roles/2".
Proof.
  exact (proj1 (reformatPath_keeps_the_last_digit_of_an_index sampleDataPath eq_refl)).
Defined.

End Examples.
